(** * bookmark-mgr: the offline-first bookmark client

    A shallow embedding of [src/lib/bookmarkClient.ts]: the [BookmarkClient]
    class with its in-memory collection, its queue of pending operations and
    its copy in [localStorage], together with the properties of replay,
    mutation, import, synchronisation and duplicate detection.

    Conventions of the embedding.
    - A JavaScript string is a [string]; [trim] and [toLowerCase] act on the
      ASCII range (white space 9-13 and 32, letters A-Z).
    - A [number] that counts visits is a [Z].
    - An optional property of an object literal is an [option]: [None] is a
      missing key.  [lastVisitedAt] is already optional in [Bookmark], so in
      a [Partial<Bookmark>] it is an [option (option string)].
    - Objects are values: the code replaces bookmarks and never changes one
      in place.  The objects of [this.pending] also carry their address,
      because [sync] removes operations with [===].
    - [localStorage] holds what [JSON.parse] reads back from what
      [JSON.stringify] has written: a key whose value is [undefined] is
      gone ([throughJSON]).  A [Bookmark] has one [None] for a
      [lastVisitedAt] that is missing and for one that is [undefined], so it
      is its own JSON form; the fields of a queued Update are not.
    - The client runs in a browser ([isBrowser] holds) and the writes to
      [localStorage] succeed.  The listeners are seen through the list of
      the snapshots that [notify] hands them.
    - The environment (network, [navigator.onLine], clock, id generator) is
      a state [World] with the operations the code calls on it.  A method is
      a function from the client and the world to an outcome, a client and a
      world; an [await] hands the world on, and a method runs to its end
      before the next one starts. *)

From Stdlib Require Import ZArith Ascii String Sorted.
From stdpp Require Import base list strings.

Local Open Scope string_scope.
Local Open Scope list_scope.

(** ** Strings *)

Definition isWhiteSpace (c : ascii) : bool :=
  let n := nat_of_ascii c in
  ((9 <=? n)%nat && (n <=? 13)%nat) || (n =? 32)%nat.

Fixpoint trimStart (s : string) : string :=
  match s with
  | EmptyString => EmptyString
  | String c rest => if isWhiteSpace c then trimStart rest else s
  end.

Fixpoint trimEnd (s : string) : string :=
  match s with
  | EmptyString => EmptyString
  | String c rest =>
      match trimEnd rest with
      | EmptyString => if isWhiteSpace c then EmptyString else String c EmptyString
      | kept => String c kept
      end
  end.

(** [String.prototype.trim] *)
Definition trim (s : string) : string := trimEnd (trimStart s).

Definition lowerChar (c : ascii) : ascii :=
  let n := nat_of_ascii c in
  if ((65 <=? n)%nat && (n <=? 90)%nat)%bool then ascii_of_nat (n + 32) else c.

(** [String.prototype.toLowerCase] *)
Fixpoint toLowerCase (s : string) : string :=
  match s with
  | EmptyString => EmptyString
  | String c rest => String (lowerChar c) (toLowerCase rest)
  end.

(** Truthiness of a string: only the empty string is falsy. *)
Definition truthy (s : string) : bool :=
  match s with EmptyString => false | _ => true end.

(** ** Data model *)

Record Bookmark : Type := mkBookmark {
  id : string;
  title : string;
  url : string;
  description : string;
  notes : string;
  tags : list string;
  folder : string;
  createdAt : string;
  updatedAt : string;
  visitCount : Z;
  lastVisitedAt : option string
}.

Record BookmarkDraft : Type := mkDraft {
  d_title : string;
  d_url : string;
  d_description : option string;
  d_notes : option string;
  d_tags : option (list string);
  d_folder : option string
}.

(** [Partial<Bookmark>] *)
Record PartialBookmark : Type := mkPartial {
  p_id : option string;
  p_title : option string;
  p_url : option string;
  p_description : option string;
  p_notes : option string;
  p_tags : option (list string);
  p_folder : option string;
  p_createdAt : option string;
  p_updatedAt : option string;
  p_visitCount : option Z;
  p_lastVisitedAt : option (option string)
}.

Definition noFields : PartialBookmark :=
  mkPartial None None None None None None None None None None None.

(** A [Bookmark] used where a [Partial<Bookmark>] is expected: every key is
    there. *)
Definition asPartial (b : Bookmark) : PartialBookmark :=
  mkPartial (Some (id b)) (Some (title b)) (Some (url b)) (Some (description b))
    (Some (notes b)) (Some (tags b)) (Some (folder b)) (Some (createdAt b))
    (Some (updatedAt b)) (Some (visitCount b)) (Some (lastVisitedAt b)).

(** The object spread [{ ...b, ...u }]: a key of [u] wins over [b]'s. *)
Definition spread (b : Bookmark) (u : PartialBookmark) : Bookmark :=
  {| id := default (id b) (p_id u);
     title := default (title b) (p_title u);
     url := default (url b) (p_url u);
     description := default (description b) (p_description u);
     notes := default (notes b) (p_notes u);
     tags := default (tags b) (p_tags u);
     folder := default (folder b) (p_folder u);
     createdAt := default (createdAt b) (p_createdAt u);
     updatedAt := default (updatedAt b) (p_updatedAt u);
     visitCount := default (visitCount b) (p_visitCount u);
     lastVisitedAt := default (lastVisitedAt b) (p_lastVisitedAt u) |}.

Inductive PendingOperation : Type :=
  | OpCreate (bookmark : Bookmark)
  | OpUpdate (target : string) (updates : PartialBookmark)
  | OpDelete (target : string).

(** [JSON.parse(JSON.stringify(u))] for the fields of an Update:
    [JSON.stringify] leaves out a key whose value is [undefined], and of
    the keys of a [Partial<Bookmark>] only [lastVisitedAt] can be there
    with that value. *)
Definition throughJSONFields (u : PartialBookmark) : PartialBookmark :=
  mkPartial (p_id u) (p_title u) (p_url u) (p_description u) (p_notes u)
    (p_tags u) (p_folder u) (p_createdAt u) (p_updatedAt u) (p_visitCount u)
    (match p_lastVisitedAt u with
     | Some None => None
     | kept => kept
     end).

(** [JSON.parse(JSON.stringify(operation))] *)
Definition throughJSON (op : PendingOperation) : PendingOperation :=
  match op with
  | OpUpdate key updates => OpUpdate key (throughJSONFields updates)
  | _ => op
  end.

(** ** Arrays of bookmarks *)

(** [arr.findIndex(b => b.id === key)]; [None] stands for [-1]. *)
Fixpoint findIndex (key : string) (arr : list Bookmark) : option nat :=
  match arr with
  | [] => None
  | b :: rest =>
      if String.eqb (id b) key then Some 0%nat
      else option_map S (findIndex key rest)
  end.

(** [arr.some(b => b.id === key)] *)
Definition some (key : string) (arr : list Bookmark) : bool :=
  existsb (fun b => String.eqb (id b) key) arr.

(** [arr.splice(idx, 1)] *)
Definition splice1 (idx : nat) (arr : list Bookmark) : list Bookmark :=
  take idx arr ++ drop (S idx) arr.

(** ** Replay of the pending operations

    The body of the loop of [applyPendingLocally]: three [if]s on the type of
    the operation. *)
Definition applyOperation (result : list Bookmark) (operation : PendingOperation)
  : list Bookmark :=
  match operation with
  | OpCreate bookmark =>
      if some (id bookmark) result then result else result ++ [bookmark]
  | OpUpdate key updates =>
      match findIndex key result with
      | Some idx =>
          match result !! idx with
          | Some old => <[idx := spread old updates]> result
          | None => result
          end
      | None => result
      end
  | OpDelete key =>
      match findIndex key result with
      | Some idx => splice1 idx result
      | None => result
      end
  end.

(** [applyPendingLocally(base)] for a given content of [this.pending]. *)
Definition replay (log : list PendingOperation) (base : list Bookmark)
  : list Bookmark :=
  fold_left applyOperation log base.

(** ** Arrays of strings: [normalizeTags] *)

(** [arr.indexOf(x)]; [None] stands for [-1]. *)
Fixpoint indexOf (x : string) (arr : list string) : option nat :=
  match arr with
  | [] => None
  | y :: rest => if String.eqb y x then Some 0%nat else option_map S (indexOf x rest)
  end.

(** [arr.filter((tag, idx, arr) => arr.indexOf(tag) === idx)] *)
Definition firstOccurrences (arr : list string) : list string :=
  omap (fun '(idx, tag) =>
          match indexOf tag arr with
          | Some first => if Nat.eqb first idx then Some tag else None
          | None => None
          end)
       (imap (fun idx tag => (idx, tag)) arr).

(** [Array.prototype.sort(compare)]: a stable sort.  [compare a b > 0] puts
    [a] after [b]. *)
Fixpoint insertSorted {A : Type} (compare : A -> A -> Z) (x : A) (sorted : list A)
  : list A :=
  match sorted with
  | [] => [x]
  | y :: rest =>
      if (compare x y <=? 0)%Z then x :: sorted
      else y :: insertSorted compare x rest
  end.

Definition sort {A : Type} (compare : A -> A -> Z) (arr : list A) : list A :=
  foldr (insertSorted compare) [] arr.

(** ** Requests and responses of the bookmark API *)

Inductive Request : Type :=
  | GET
  | POST (body : Bookmark)
  | PUT (key : string) (body : PartialBookmark)
  | DELETE (key : string).

(** The JSON body of a successful response, as the client reads it: one
    record (bare or under the key [bookmark]) or a list of records (a bare
    array or under the key [bookmarks]). *)
Inductive Payload : Type :=
  | OneRecord (raw : PartialBookmark)
  | Listing (items : list PartialBookmark).

(** What [apiRequest] makes of a call: [Failure] when [fetch] rejects, the
    status is not ok or the body is not JSON; [NoContent] for status 204
    (and for a falsy body). *)
Inductive Response : Type :=
  | Failure
  | NoContent
  | Json (data : Payload).

(** [savedData.bookmark ?? savedData], read as a [Partial<Bookmark>]. *)
Definition savedRaw (data : Payload) : PartialBookmark :=
  match data with
  | OneRecord raw => raw
  | Listing _ => noFields
  end.

(** [Array.isArray(data) ? data : (data?.bookmarks ?? [])] *)
Definition listedItems (data : option Payload) : list PartialBookmark :=
  match data with
  | Some (Listing items) => items
  | _ => []
  end.

(** ** The environment *)

Class Environment (World : Type) : Type := {
  (** one HTTP exchange *)
  fetch : Request -> World -> Response * World;
  (** [navigator.onLine]; [None] when [navigator] is undefined *)
  onLine : World -> option bool;
  (** [new Date().toISOString()] *)
  isoNow : World -> string * World;
  (** [crypto.randomUUID()] *)
  randomUUID : World -> string * World;
  (** [a.localeCompare(b)] *)
  localeCompare : string -> string -> Z;
  (** [new Date(s).getTime()]; [None] stands for [NaN] *)
  getTime : string -> option Z
}.

(** ** The client *)

Inductive Error : Type :=
  | BookmarkNotFound     (* new Error('Bookmark not found') *)
  | RequestFailed.       (* thrown by apiRequest *)

(** An object of [this.pending] and its address. *)
Record Queued : Type := mkQueued {
  address : nat;
  operation : PendingOperation
}.

(** The three keys of [localStorage]. *)
Record Storage : Type := mkStorage {
  BOOKMARK_STORAGE_KEY : list Bookmark;
  PENDING_STORAGE_KEY : list PendingOperation;
  LAST_SYNC_KEY : option string
}.

Record BookmarkClient : Type := mkClient {
  bookmarks : list Bookmark;
  pending : list Queued;
  (** the address of the next object the client allocates *)
  fresh : nat;
  localStorage : Storage;
  (** the snapshots handed to the listeners, oldest first *)
  notified : list (list Bookmark)
}.

(** The client in its environment.  [requests] is the history of the calls
    of [apiRequest], oldest first; the code never reads it. *)
Record Machine (World : Type) : Type := mkMachine {
  this : BookmarkClient;
  world : World;
  requests : list Request
}.
Arguments mkMachine {World}.
Arguments this {World}.
Arguments world {World}.
Arguments requests {World}.

Inductive Outcome (A : Type) : Type :=
  | Returned (value : A)
  | Thrown (error : Error).
Arguments Returned {A}.
Arguments Thrown {A}.

Definition Action (S A : Type) : Type := S -> Outcome A * S.

Definition ret {S A : Type} (a : A) : Action S A := fun s => (Returned a, s).

Definition throw {S A : Type} (e : Error) : Action S A := fun s => (Thrown e, s).

Definition bind {S A B : Type} (m : Action S A) (k : A -> Action S B) : Action S B :=
  fun s =>
    match m s with
    | (Returned a, s') => k a s'
    | (Thrown e, s') => (Thrown e, s')
    end.

Definition tryCatch {S A : Type} (body : Action S A) (handler : Error -> Action S A)
  : Action S A :=
  fun s =>
    match body s with
    | (Returned a, s') => (Returned a, s')
    | (Thrown e, s') => handler e s'
    end.

Declare Scope action_scope.
Delimit Scope action_scope with action.
Notation "x <- m ;; k" := (bind m (fun x => k))
  (at level 100, m at next level, right associativity) : action_scope.
Notation "m ;;; k" := (bind m (fun _ => k))
  (at level 100, right associativity) : action_scope.

Section Methods.
Context {World : Type} `{Environment World}.

Local Open Scope action_scope.

(** A method of the class: it runs on the client and the world. *)
Local Abbreviation Method := (Action (Machine World)).

(** Reading and writing the fields of [this]. *)
Definition getThis : Method BookmarkClient :=
  fun m => (Returned (this m), m).

Definition setThis (c : BookmarkClient) : Method unit :=
  fun m => (Returned tt, mkMachine c (world m) (requests m)).

(** A call into the environment. *)
Definition ask {A : Type} (call : World -> A * World) : Method A :=
  fun m =>
    let (a, w) := call (world m) in
    (Returned a, mkMachine (this m) w (requests m)).

(** The request leaves the client. *)
Definition send (request : Request) : Method Response :=
  fun m =>
    let (response, w) := fetch request (world m) in
    (Returned response, mkMachine (this m) w (requests m ++ [request])).

Definition navigatorOnLine : Method (option bool) :=
  fun m => (Returned (onLine (world m)), m).

(** [createId()]: [crypto.randomUUID] is there, [createBookmark] calls it
    without a test. *)
Definition createId : Method string := ask randomUUID.

Definition normalizeTags (tagList : list string) : list string :=
  sort localeCompare (firstOccurrences (filter (fun tag => truthy tag = true) (map trim tagList))).

Definition parseBookmark (raw : PartialBookmark) : Method Bookmark :=
  now <- ask isoNow ;;
  ident <- match p_id raw with
           | Some given => ret given
           | None => createId
           end ;;
  ret {| id := ident;
         title := default "Untitled" (option_map trim (p_title raw));
         url := default "" (option_map trim (p_url raw));
         description := default "" (option_map trim (p_description raw));
         notes := default "" (option_map trim (p_notes raw));
         tags := normalizeTags (default [] (p_tags raw));
         folder := default "" (option_map trim (p_folder raw));
         createdAt := default now (p_createdAt raw);
         updatedAt := default now (p_updatedAt raw);
         visitCount := default 0%Z (p_visitCount raw);
         lastVisitedAt := default None (p_lastVisitedAt raw) |}.

(** [persist()]: the collection and the queue go to [localStorage], each
    through [JSON.stringify]. *)
Definition persist : Method unit :=
  c <- getThis ;;
  setThis (mkClient (bookmarks c) (pending c) (fresh c)
             (mkStorage (bookmarks c)
                (map throughJSON (map operation (pending c)))
                (LAST_SYNC_KEY (localStorage c)))
             (notified c)).

(** [safeLocalStorageSet(LAST_SYNC_KEY, new Date().toISOString())] *)
Definition stampLastSync : Method unit :=
  now <- ask isoNow ;;
  c <- getThis ;;
  setThis (mkClient (bookmarks c) (pending c) (fresh c)
             (mkStorage (BOOKMARK_STORAGE_KEY (localStorage c))
                (PENDING_STORAGE_KEY (localStorage c)) (Some now))
             (notified c)).

(** [notify()] *)
Definition notify : Method unit :=
  c <- getThis ;;
  setThis (mkClient (bookmarks c) (pending c) (fresh c) (localStorage c)
             (notified c ++ [bookmarks c])).

Definition setBookmarks (items : list Bookmark) : Method unit :=
  c <- getThis ;;
  setThis (mkClient items (pending c) (fresh c) (localStorage c) (notified c)).

(** [apiRequest(path, init)] *)
Definition apiRequest (request : Request) : Method (option Payload) :=
  response <- send request ;;
  match response with
  | Failure => throw RequestFailed
  | NoContent => ret None
  | Json data => ret (Some data)
  end.

(** The comparison of [fetchRemote]'s sort; a [NaN] counts as [0]. *)
Definition byUpdatedAtDescending (a b : Bookmark) : Z :=
  match getTime (updatedAt b), getTime (updatedAt a) with
  | Some tb, Some ta => (tb - ta)%Z
  | _, _ => 0%Z
  end.

Fixpoint parseAll (items : list PartialBookmark) : Method (list Bookmark) :=
  match items with
  | [] => ret []
  | item :: rest =>
      parsed <- parseBookmark item ;;
      others <- parseAll rest ;;
      ret (parsed :: others)
  end.

Definition fetchRemote : Method (list Bookmark) :=
  data <- apiRequest GET ;;
  list <- parseAll (listedItems data) ;;
  ret (sort byUpdatedAtDescending list).

(** [recordPending(operation)]: the operation is a new object. *)
Definition recordPending (op : PendingOperation) : Method unit :=
  c <- getThis ;;
  setThis (mkClient (bookmarks c) (pending c ++ [mkQueued (fresh c) op])
             (S (fresh c)) (localStorage c) (notified c)) ;;;
  persist.

(** [removePending(predicate)] *)
Definition removePending (predicate : Queued -> bool) : Method unit :=
  c <- getThis ;;
  setThis (mkClient (bookmarks c)
             (filter (fun queued => predicate queued = false) (pending c))
             (fresh c) (localStorage c) (notified c)) ;;;
  persist.

(** [upsertLocal(bookmark)] *)
Definition upsertLocal (bookmark : Bookmark) : Method unit :=
  c <- getThis ;;
  match findIndex (id bookmark) (bookmarks c) with
  | Some idx => setBookmarks (<[idx := bookmark]> (bookmarks c))
  | None => setBookmarks (bookmarks c ++ [bookmark])
  end.

(** [applyPendingLocally(base)] *)
Definition applyPendingLocally (base : list Bookmark) : Method (list Bookmark) :=
  c <- getThis ;;
  ret (replay (map operation (pending c)) base).

(** [load()] *)
Definition load : Method (list Bookmark) :=
  tryCatch
    (remote <- fetchRemote ;;
     projected <- applyPendingLocally remote ;;
     setBookmarks projected ;;;
     persist ;;;
     stampLastSync ;;;
     notify)
    (fun _ => ret tt) ;;;
  c <- getThis ;;
  ret (bookmarks c).

(** The [catch] of the three mutations: the error goes on to the caller
    when [navigator] exists and reports itself online. *)
Definition rethrowWhenOnline (error : Error) : Method unit :=
  status <- navigatorOnLine ;;
  match status with
  | Some true => throw error
  | _ => ret tt
  end.

Definition isCreateOf (key : string) (queued : Queued) : bool :=
  match operation queued with
  | OpCreate bookmark => String.eqb (id bookmark) key
  | _ => false
  end.

Definition isUpdateOf (key : string) (queued : Queued) : bool :=
  match operation queued with
  | OpUpdate target _ => String.eqb target key
  | _ => false
  end.

Definition isDeleteOf (key : string) (queued : Queued) : bool :=
  match operation queued with
  | OpDelete target => String.eqb target key
  | _ => false
  end.

(** [createBookmark(draft)], its synchronous part: the bookmark is built,
    pushed on the collection, recorded as pending and shown. *)
Definition createLocally (draft : BookmarkDraft) : Method Bookmark :=
  now <- ask isoNow ;;
  uuid <- ask randomUUID ;;
  bookmark <- parseBookmark
                {| p_id := Some uuid;
                   p_title := Some (d_title draft);
                   p_url := Some (d_url draft);
                   p_description := Some (default "" (d_description draft));
                   p_notes := Some (default "" (d_notes draft));
                   p_tags := Some (default [] (d_tags draft));
                   p_folder := Some (default "" (d_folder draft));
                   p_createdAt := Some now;
                   p_updatedAt := Some now;
                   p_visitCount := Some 0%Z;
                   p_lastVisitedAt := None |} ;;
  c <- getThis ;;
  setBookmarks (bookmarks c ++ [bookmark]) ;;;
  recordPending (OpCreate bookmark) ;;;
  notify ;;;
  ret bookmark.

(** [createBookmark(draft)], its [try] and [catch] around the request. *)
Definition confirmCreate (bookmark : Bookmark) : Method unit :=
  tryCatch
    (savedData <- apiRequest (POST bookmark) ;;
     match savedData with
     | Some data =>
         saved <- parseBookmark (savedRaw data) ;;
         upsertLocal saved ;;;
         removePending (isCreateOf (id bookmark)) ;;;
         persist ;;;
         notify
     | None => ret tt
     end)
    rethrowWhenOnline.

(** [createBookmark(draft)] *)
Definition createBookmark (draft : BookmarkDraft) : Method (list Bookmark) :=
  bookmark <- createLocally draft ;;
  confirmCreate bookmark ;;;
  c' <- getThis ;;
  ret (bookmarks c').

(** [updateBookmark(id, updates)] *)
Definition updateBookmark (key : string) (updates : PartialBookmark)
  : Method (list Bookmark) :=
  c <- getThis ;;
  match findIndex key (bookmarks c) with
  | None => throw BookmarkNotFound
  | Some idx =>
      match bookmarks c !! idx with
      | None => throw BookmarkNotFound
      | Some old =>
          now <- ask isoNow ;;
          let merged :=
            {| id := id (spread old updates);
               title := title (spread old updates);
               url := url (spread old updates);
               description := description (spread old updates);
               notes := notes (spread old updates);
               tags := normalizeTags (default (tags old) (p_tags updates));
               folder := default (folder old) (option_map trim (p_folder updates));
               createdAt := createdAt (spread old updates);
               updatedAt := now;
               visitCount := visitCount (spread old updates);
               lastVisitedAt := lastVisitedAt (spread old updates) |} in
          setBookmarks (<[idx := merged]> (bookmarks c)) ;;;
          recordPending (OpUpdate key (asPartial merged)) ;;;
          notify ;;;
          tryCatch
            (savedData <- apiRequest (PUT key (asPartial merged)) ;;
             match savedData with
             | Some data =>
                 saved <- parseBookmark (savedRaw data) ;;
                 upsertLocal saved ;;;
                 removePending (isUpdateOf key) ;;;
                 persist ;;;
                 notify
             | None => ret tt
             end)
            rethrowWhenOnline ;;;
          c' <- getThis ;;
          ret (bookmarks c')
      end
  end.

(** [deleteBookmark(id)] *)
Definition deleteBookmark (key : string) : Method (list Bookmark) :=
  c <- getThis ;;
  setBookmarks (filter (fun bookmark => String.eqb (id bookmark) key = false)
                  (bookmarks c)) ;;;
  recordPending (OpDelete key) ;;;
  notify ;;;
  tryCatch
    (apiRequest (DELETE key) ;;;
     removePending (isDeleteOf key) ;;;
     persist ;;;
     notify)
    rethrowWhenOnline ;;;
  c' <- getThis ;;
  ret (bookmarks c').

(** [trackVisit(id)] *)
Definition trackVisit (key : string) : Method (list Bookmark) :=
  c <- getThis ;;
  match find (fun item => String.eqb (id item) key) (bookmarks c) with
  | None => throw BookmarkNotFound
  | Some bookmark =>
      now <- ask isoNow ;;
      updateBookmark key
        {| p_id := None; p_title := None; p_url := None; p_description := None;
           p_notes := None; p_tags := None; p_folder := None;
           p_createdAt := None; p_updatedAt := None;
           p_visitCount := Some (visitCount bookmark + 1)%Z;
           p_lastVisitedAt := Some (Some now) |}
  end.

(** The counters of [importBookmarks]. *)
Record ImportReport : Type := mkReport {
  imported : nat;
  skipped : nat
}.

(** The loop of [importBookmarks(entries)], from given counters. *)
Fixpoint importFrom (entries : list BookmarkDraft) (count : ImportReport)
  : Method ImportReport :=
  match entries with
  | [] => ret count
  | entry :: rest =>
      let normalizedUrl := trim (d_url entry) in
      if truthy normalizedUrl then
        c <- getThis ;;
        match find (fun bookmark => String.eqb (url bookmark) normalizedUrl)
                (bookmarks c) with
        | Some duplicate =>
            importFrom rest (mkReport (imported count) (S (skipped count)))
        | None =>
            tryCatch (createBookmark entry ;;; ret tt) (fun _ => ret tt) ;;;
            importFrom rest (mkReport (S (imported count)) (skipped count))
        end
      else importFrom rest (mkReport (imported count) (S (skipped count)))
  end.

Definition importBookmarks (entries : list BookmarkDraft) : Method ImportReport :=
  importFrom entries (mkReport 0 0).

(** [pendingOp === operation] *)
Definition sameObject (a b : Queued) : bool := Nat.eqb (address a) (address b).

(** The [try] block of [sync]'s loop for one operation of the queue. *)
Definition pushOperation (queued : Queued) : Method unit :=
  match operation queued with
  | OpCreate bookmark =>
      savedData <- apiRequest (POST bookmark) ;;
      match savedData with
      | Some data =>
          saved <- parseBookmark (savedRaw data) ;;
          upsertLocal saved
      | None => ret tt
      end ;;;
      removePending (sameObject queued)
  | OpUpdate key updates =>
      savedData <- apiRequest (PUT key updates) ;;
      match savedData with
      | Some data =>
          saved <- parseBookmark (savedRaw data) ;;
          upsertLocal saved
      | None => ret tt
      end ;;;
      removePending (sameObject queued)
  | OpDelete key =>
      apiRequest (DELETE key) ;;;
      removePending (sameObject queued)
  end.

(** [for (const operation of queue) { try {...} catch { return false } }]:
    [false] when the loop was left by the [return] of the [catch]. *)
Fixpoint drain (queue : list Queued) : Method bool :=
  match queue with
  | [] => ret true
  | queued :: rest =>
      done <- tryCatch (pushOperation queued ;;; ret true) (fun _ => ret false) ;;
      if done then drain rest else ret false
  end.

(** [sync()] *)
Definition sync : Method bool :=
  c <- getThis ;;
  match pending c with
  | [] => ret true
  | _ :: _ =>
      status <- navigatorOnLine ;;
      match status with
      | Some false => ret false
      | _ =>
          drained <- drain (pending c) ;;
          if drained then
            tryCatch
              (remote <- fetchRemote ;;
               setBookmarks remote ;;;
               persist ;;;
               stampLastSync ;;;
               notify)
              (fun _ => ret tt) ;;;
            ret true
          else ret false
      end
  end.
End Methods.

(** [new BookmarkClient()] in a browser whose [localStorage] holds
    [stored]: [JSON.parse] builds the operations as new objects, and the
    constructor replays them over the stored collection with the loop of
    [applyPendingLocally].  [stored] is what [JSON.parse] reads: where
    [persist] has written it, the operations have gone through
    [throughJSON]. *)
Definition construct (stored : Storage) : BookmarkClient :=
  mkClient (replay (PENDING_STORAGE_KEY stored) (BOOKMARK_STORAGE_KEY stored))
    (imap mkQueued (PENDING_STORAGE_KEY stored))
    (length (PENDING_STORAGE_KEY stored)) stored [].

(** ** Duplicate detection

    A [Map] keeps its keys in the order of their first [set]. *)
Fixpoint mapGet {V : Type} (key : string) (entries : list (string * V)) : option V :=
  match entries with
  | [] => None
  | (k, v) :: rest => if String.eqb k key then Some v else mapGet key rest
  end.

Fixpoint mapSet {V : Type} (key : string) (value : V) (entries : list (string * V))
  : list (string * V) :=
  match entries with
  | [] => [(key, value)]
  | (k, v) :: rest =>
      if String.eqb k key then (k, value) :: rest
      else (k, v) :: mapSet key value rest
  end.

(** The first loop of [detectDuplicates]. *)
Definition groupByUrl (items : list Bookmark) : list (string * list Bookmark) :=
  fold_left
    (fun map bookmark =>
       if truthy (url bookmark) then
         let key := toLowerCase (url bookmark) in
         let group := default [] (mapGet key map) in
         mapSet key (group ++ [bookmark]) map
       else map)
    items [].

(** [detectDuplicates()] *)
Definition detectDuplicates (c : BookmarkClient) : list (string * list Bookmark) :=
  filter (fun entry => (length entry.2 <? 2)%nat = false) (groupByUrl (bookmarks c)).

(** ** Notions used in the statements *)

(** The updates of the operation leave the id of their target alone: the key
    [id] is missing from them or repeats the target. *)
Definition keepsId (op : PendingOperation) : Prop :=
  match op with
  | OpUpdate key updates => p_id updates = None \/ p_id updates = Some key
  | _ => True
  end.

(** The ids of the bookmarks that the log creates, in log order. *)
Definition createdIds (log : list PendingOperation) : list string :=
  omap (fun op => match op with OpCreate b => Some (id b) | _ => None end) log.

(** The request [sync] issues for an operation of the queue. *)
Definition requestOf (op : PendingOperation) : Request :=
  match op with
  | OpCreate bookmark => POST bookmark
  | OpUpdate key updates => PUT key updates
  | OpDelete key => DELETE key
  end.

(** The bookmarks of the list that have a url and whose url, in lower case,
    is [key]. *)
Definition sharingUrl (key : string) (items : list Bookmark) : list Bookmark :=
  filter (fun b => url b <> "" /\ toLowerCase (url b) = key) items.

(** The objects of the queue are distinct and were allocated by the client:
    no address occurs twice, and none is ahead of the allocator. *)
Definition wellAllocated (c : BookmarkClient) : Prop :=
  NoDup (map address (pending c))
  /\ Forall (fun queued => (address queued < fresh c)%nat) (pending c).

Section Notions.
Context {World : Type} `{Environment World}.

(** The calls for the operations of [queue], issued one after the other
    from [m], all succeed: the machine they leave, [None] when one of
    them fails. *)
Fixpoint pushedAll (queue : list Queued) (m : Machine World)
  : option (Machine World) :=
  match queue with
  | [] => Some m
  | queued :: rest =>
      match fetch (requestOf (operation queued)) (world m) with
      | (Failure, _) => None
      | _ => pushedAll rest (pushOperation queued m).2
      end
  end.

(** The method keeps the queue well allocated, whether it returns or
    throws. *)
Definition keepsAllocation {A : Type} (method : Action (Machine World) A) : Prop :=
  forall m, wellAllocated (this m) -> wellAllocated (this (method m).2).

(** The [updatedAt] of the bookmark parses as a date. *)
Definition dated (b : Bookmark) : Prop := is_Some (getTime (updatedAt b)).

(** [a] may stand before [b] in a list that is newest first: both dates
    parse, and [b]'s is not the later one. *)
Definition notOlder (a b : Bookmark) : Prop :=
  exists ta tb,
    getTime (updatedAt a) = Some ta /\ getTime (updatedAt b) = Some tb
    /\ (tb <= ta)%Z.

(** The list is ordered by [updatedAt] descending: of any two of its
    bookmarks, the one that stands first is not the older one. *)
Definition newestFirst (items : list Bookmark) : Prop :=
  forall i j a b,
    (i < j)%nat -> items !! i = Some a -> items !! j = Some b -> notOlder a b.

(** What [parseBookmark] makes of a record: the fields of the record are
    taken over, the strings trimmed and the tags normalized, and a field
    that is missing gets its default; only an id and dates that are missing
    come from the environment. *)
Definition parsedFrom (raw : PartialBookmark) (b : Bookmark) : Prop :=
  (forall given, p_id raw = Some given -> id b = given)
  /\ title b = default "Untitled" (option_map trim (p_title raw))
  /\ url b = default "" (option_map trim (p_url raw))
  /\ description b = default "" (option_map trim (p_description raw))
  /\ notes b = default "" (option_map trim (p_notes raw))
  /\ tags b = normalizeTags (default [] (p_tags raw))
  /\ folder b = default "" (option_map trim (p_folder raw))
  /\ (forall given, p_createdAt raw = Some given -> createdAt b = given)
  /\ (forall given, p_updatedAt raw = Some given -> updatedAt b = given)
  /\ visitCount b = default 0%Z (p_visitCount raw)
  /\ lastVisitedAt b = default None (p_lastVisitedAt raw).
End Notions.

(** ** A scripted environment

    The replies of the network are listed in advance, one per request, and a
    request after the last reply fails; the clock and the id generator
    count. *)
Record Scripted : Type := mkScripted {
  connectivity : option bool;
  replies : list Response;
  ticks : nat
}.

Definition twoDigits (n : nat) : string :=
  String (ascii_of_nat (48 + (n / 10) mod 10))
    (String (ascii_of_nat (48 + n mod 10)) EmptyString).

(** The digits of a string read as one decimal number; [None] without
    digits.  On timestamps of one format it grows with the time. *)
Fixpoint digitsValue (s : string) (acc : option Z) : option Z :=
  match s with
  | EmptyString => acc
  | String c rest =>
      let n := nat_of_ascii c in
      if ((48 <=? n)%nat && (n <=? 57)%nat)%bool
      then digitsValue rest (Some (10 * default 0 acc + Z.of_nat (n - 48))%Z)
      else digitsValue rest acc
  end.

#[export] Instance scripted : Environment Scripted := {|
  fetch := fun _ w =>
    (hd Failure (replies w), mkScripted (connectivity w) (tl (replies w)) (ticks w));
  onLine := connectivity;
  isoNow := fun w =>
    ("2024-01-01T00:00:" +:+ twoDigits (ticks w) +:+ ".000Z",
     mkScripted (connectivity w) (replies w) (S (ticks w)));
  randomUUID := fun w =>
    ("uuid-" +:+ twoDigits (ticks w),
     mkScripted (connectivity w) (replies w) (S (ticks w)));
  localeCompare := fun a b =>
    match String.compare a b with Lt => (-1)%Z | Eq => 0%Z | Gt => 1%Z end;
  getTime := fun s => digitsValue s None
|}.

(** Sample data. *)
Definition sampleBookmark (key link stamp : string) : Bookmark :=
  {| id := key; title := "Example"; url := link; description := ""; notes := "";
     tags := []; folder := ""; createdAt := stamp; updatedAt := stamp;
     visitCount := 0; lastVisitedAt := None |}.

Definition sampleDraft (name link : string) : BookmarkDraft :=
  mkDraft name link None None None None.

Definition emptyClient : BookmarkClient :=
  mkClient [] [] 0 (mkStorage [] [] None) [].

Definition clientWith (items : list Bookmark) (queue : list Queued) : BookmarkClient :=
  mkClient items queue (length queue) (mkStorage items (map operation queue) None) [].

Definition offlineWorld : Scripted := mkScripted (Some false) [] 0.

Definition onlineWorld (script : list Response) : Scripted :=
  mkScripted (Some true) script 0.

(** An empty client, offline. *)
Definition idle : Machine Scripted := mkMachine emptyClient offlineWorld [].

(** One operation waits while the environment is offline. *)
Definition waitingOffline : Machine Scripted :=
  mkMachine (clientWith [] [mkQueued 0 (OpDelete "a")]) offlineWorld [].

Definition renamed (name : string) : PartialBookmark :=
  mkPartial None (Some name) None None None None None None None None None.

(** Five operations wait; the service accepts two calls and rejects the
    third. *)
Definition fiveQueued : list Queued :=
  [ mkQueued 0 (OpCreate (sampleBookmark "a" "https://a.example" "2024-01-01T00:00:00.000Z"));
    mkQueued 1 (OpUpdate "a" (renamed "First"));
    mkQueued 2 (OpDelete "b");
    mkQueued 3 (OpCreate (sampleBookmark "c" "https://c.example" "2024-01-02T00:00:00.000Z"));
    mkQueued 4 (OpDelete "a") ].

Definition thirdFails : Machine Scripted :=
  mkMachine
    (clientWith [sampleBookmark "a" "https://a.example" "2024-01-01T00:00:00.000Z"]
       fiveQueued)
    (onlineWorld [NoContent; NoContent; Failure; NoContent; NoContent]) [].

(** A mirror of two bookmarks, and an Update of the first that carries the
    id of the second. *)
Definition twoBookmarks : list Bookmark :=
  [ sampleBookmark "a" "https://a.example" "2024-01-02T00:00:00.000Z";
    sampleBookmark "b" "https://b.example" "2024-01-01T00:00:00.000Z" ].

Definition takesIdOfOther : PendingOperation :=
  OpUpdate "a" (mkPartial (Some "b") None None None None None None None None None None).

(** A bookmark older than the one a queued Create brings. *)
Definition olderBookmark : Bookmark :=
  sampleBookmark "a" "https://a.example" "2023-01-01T00:00:00.000Z".

Definition newerBookmark : Bookmark :=
  sampleBookmark "b" "https://b.example" "2024-06-01T00:00:00.000Z".

(** The two urls of the specification's example of duplicates. *)
Definition mixedCase : Bookmark :=
  sampleBookmark "a" "https://Example.com/" "2024-01-01T00:00:00.000Z".

Definition bareHost : Bookmark :=
  sampleBookmark "b" "example.com" "2024-01-02T00:00:00.000Z".

Definition lowerCase : Bookmark :=
  sampleBookmark "c" "https://example.com/" "2024-01-03T00:00:00.000Z".

(** A draft without title and url, and one of white space only. *)
Definition blankDraft : BookmarkDraft := sampleDraft "" "".

Definition spacesDraft : BookmarkDraft := sampleDraft "   " "  ".

(** Three drafts, the second with the url of a bookmark of the collection;
    the service is unreachable for the last one. *)
Definition threeDrafts : list BookmarkDraft :=
  [ sampleDraft "One" "https://one.example";
    sampleDraft "Again" " https://a.example ";
    sampleDraft "Two" "https://two.example" ].

Definition importing : Machine Scripted :=
  mkMachine
    (clientWith [sampleBookmark "a" "https://a.example" "2024-01-01T00:00:00.000Z"] [])
    (onlineWorld [NoContent]) [].

(** An empty client, online, whose service rejects every call. *)
Definition rejecting : Machine Scripted := mkMachine emptyClient (onlineWorld []) [].

(** Three bookmarks, two of them with urls that differ in case only. *)
Definition threeUrls : BookmarkClient := clientWith [mixedCase; bareHost; lowerCase] [].

(** The service lists two bookmarks, the older one first. *)
Definition listing : Machine Scripted :=
  mkMachine emptyClient
    (onlineWorld [Json (Listing [asPartial olderBookmark; asPartial newerBookmark])]) [].

(** ** Further notions *)

(** [localStorage] holds the collection and the queue of the memory in
    their JSON form. *)
Definition inSync (c : BookmarkClient) : Prop :=
  BOOKMARK_STORAGE_KEY (localStorage c) = bookmarks c
  /\ PENDING_STORAGE_KEY (localStorage c)
     = map throughJSON (map operation (pending c)).

(** The collection is the replay of the queue over [mirror], and its ids
    are distinct. *)
Definition projects (mirror : list Bookmark) (c : BookmarkClient) : Prop :=
  NoDup (map id (bookmarks c))
  /\ bookmarks c = replay (map operation (pending c)) mirror.

Section FurtherNotions.
Context {World : Type} `{Environment World}.

(** The method does not write to the client. *)
Definition leavesClient {A : Type} (method : Action (Machine World) A) : Prop :=
  forall m, this (method m).2 = this m.

(** No request gets through: every call of [fetch] fails. *)
Definition serviceUnreachable : Prop :=
  forall (request : Request) (w : World), (fetch request w).1 = Failure.

(** The sign of [localeCompare] turns with its arguments. *)
Definition comparesBothWays : Prop :=
  forall a b : string, (0 < localeCompare a b)%Z -> (localeCompare b a <= 0)%Z.

(** Neighbours of the list are in the order of [localeCompare]. *)
Definition inLocaleOrder (tagList : list string) : Prop :=
  Sorted (fun a b => (localeCompare a b <= 0)%Z) tagList.
End FurtherNotions.

(** An environment without network: every request fails, the browser
    reports itself offline, the clock and the id generator count. *)
Record CutOff : Type := mkCutOff { elapsed : nat }.

#[export] Instance cutOff : Environment CutOff := {|
  fetch := fun _ w => (Failure, w);
  onLine := fun _ => Some false;
  isoNow := fun w =>
    ("2024-01-01T00:00:" +:+ twoDigits (elapsed w) +:+ ".000Z",
     mkCutOff (S (elapsed w)));
  randomUUID := fun w => ("uuid-" +:+ twoDigits (elapsed w), mkCutOff (S (elapsed w)));
  localeCompare := fun a b =>
    match String.compare a b with Lt => (-1)%Z | Eq => 0%Z | Gt => 1%Z end;
  getTime := fun s => digitsValue s None
|}.

(** A client with one bookmark and nothing pending, without network. *)
Definition stranded : Machine CutOff :=
  mkMachine
    (clientWith [sampleBookmark "a" "https://a.example" "2024-01-01T00:00:00.000Z"] [])
    (mkCutOff 0) [].

(** Two operations wait; the service accepts both and then lists two
    bookmarks, the older one first. *)
Definition twoQueued : list Queued :=
  [ mkQueued 0 (OpUpdate "a" (renamed "First")); mkQueued 1 (OpDelete "b") ].

Definition allAccepted : Machine Scripted :=
  mkMachine
    (clientWith [sampleBookmark "a" "https://a.example" "2024-01-01T00:00:00.000Z"]
       twoQueued)
    (onlineWorld
       [NoContent; NoContent;
        Json (Listing [asPartial olderBookmark; asPartial newerBookmark])]) [].

(** The part of [firstOccurrences arr] that comes from the elements [rest]
    of [arr], the first of which has index [start]. *)
Definition occurrencesFrom (arr : list string) (start : nat) (rest : list string)
  : list string :=
  omap (fun '(idx, tag) =>
          match indexOf tag arr with
          | Some first => if Nat.eqb first idx then Some tag else None
          | None => None
          end)
       (imap (fun idx tag => ((start + idx)%nat, tag)) rest).

(** ** The form of the bookmark manager

    The functions of the component [BookmarkManager] that prepare what the
    form hands to the client. *)

(** [/^https?:\/\//i.test(url)] *)
Definition hasHttpScheme (link : string) : bool :=
  String.prefix "http://" (toLowerCase link)
  || String.prefix "https://" (toLowerCase link).

(** [formatUrl(url)] *)
Definition formatUrl (link : string) : string :=
  if truthy link then
    if hasHttpScheme link then link else "https://" +:+ link
  else "".

(** [input.split(',')] *)
Fixpoint splitAtCommas (input : string) : list string :=
  match input with
  | EmptyString => [EmptyString]
  | String c rest =>
      if Ascii.eqb c "," then EmptyString :: splitAtCommas rest
      else match splitAtCommas rest with
           | piece :: pieces => String c piece :: pieces
           | [] => [String c EmptyString]
           end
  end.

(** [parseTagsInput(input)] *)
Definition parseTagsInput (input : string) : list string :=
  firstOccurrences
    (filter (fun tag => truthy tag = true) (map trim (splitAtCommas input))).

(** The state of the form. *)
Record FormState : Type := mkForm {
  f_title : string;
  f_url : string;
  f_description : string;
  f_notes : string;
  f_tagsInput : string;
  f_folder : string
}.

(** [handleSubmit], from the trimming of title and url to the payload it
    hands to the client; [None] when it stops with 'Title and URL are
    required.'. *)
Definition submittedPayload (form : FormState) : option BookmarkDraft :=
  let trimmedTitle := trim (f_title form) in
  let trimmedUrl := trim (f_url form) in
  if negb (truthy trimmedTitle) || negb (truthy trimmedUrl) then None
  else Some {| d_title := trimmedTitle;
               d_url := formatUrl trimmedUrl;
               d_description := Some (trim (f_description form));
               d_notes := Some (trim (f_notes form));
               d_tags := Some (parseTagsInput (f_tagsInput form));
               d_folder := Some (trim (f_folder form)) |}.

(** A form as a user may fill it. *)
Definition filledForm : FormState :=
  mkForm "  Rocq  " " rocq-prover.org " "" "" "proof, logic ,proof,, " "".

(** ** Notions for the reload *)

(** The id an operation is about. *)
Definition targetOf (op : PendingOperation) : string :=
  match op with
  | OpCreate bookmark => id bookmark
  | OpUpdate key _ => key
  | OpDelete key => key
  end.

(** Every Create of the log brings an id that is not among [seen] and that
    no earlier operation of the log is about: ids are drawn anew. *)
Fixpoint createsFresh (seen : list string) (log : list PendingOperation) : Prop :=
  match log with
  | [] => True
  | op :: rest =>
      match op with
      | OpCreate bookmark => id bookmark ∉ seen
      | _ => True
      end
      /\ createsFresh (targetOf op :: seen) rest
  end.

(** The entries with another id than [key]. *)
Definition others (key : string) (items : list Bookmark) : list Bookmark :=
  filter (fun b => id b <> key) items.

(** Two bookmarks with the same id that are equal, or, when the id is [key],
    equal once the fields [u] are merged into both. *)
Definition upTo (key : string) (u : PartialBookmark) (a b : Bookmark) : Prop :=
  id a = id b
  /\ (id a = key -> spread a u = spread b u)
  /\ (id a <> key -> a = b).

(** The operation takes no visit back: an Update that carries
    [lastVisitedAt: undefined] meets an entry that has none. *)
Definition keepsVisit (items : list Bookmark) (op : PendingOperation) : Prop :=
  match op with
  | OpUpdate key updates =>
      p_lastVisitedAt updates = Some None ->
      match find (fun b => String.eqb (id b) key) items with
      | Some old => lastVisitedAt old = None
      | None => True
      end
  | _ => True
  end.

(** No operation of the log takes a visit back, along the replay of the log
    over [items]. *)
Fixpoint keepsVisits (items : list Bookmark) (log : list PendingOperation) : Prop :=
  match log with
  | [] => True
  | op :: rest => keepsVisit items op /\ keepsVisits (applyOperation items op) rest
  end.

(** What [localStorage] holds can be read back: it holds the JSON form of
    the memory, the collection is the replay of the queue over a mirror
    with distinct ids, the Updates of the queue keep ids and take no visit
    back, and its Creates bring new ids. *)
Definition reloadable (mirror : list Bookmark) (c : BookmarkClient) : Prop :=
  inSync c
  /\ projects mirror c
  /\ NoDup (map id mirror)
  /\ Forall keepsId (map operation (pending c))
  /\ createsFresh (map id mirror) (map operation (pending c))
  /\ keepsVisits mirror (map operation (pending c)).

(** ** The server's key of a url

    [normalizeUrlValue] of the Mongoose model, the key under which the
    service looks for duplicates.  [new URL] is the browser's and Node's
    parser; it is a parameter here, [None] when it throws. *)
Record ParsedUrl : Type := mkUrl {
  u_protocol : string;
  u_host : string;
  u_pathname : string;
  u_search : string
}.

(** [pathname.replace(/\/+$/, '')] *)
Fixpoint stripTrailingSlashes (s : string) : string :=
  match s with
  | EmptyString => EmptyString
  | String c rest =>
      match stripTrailingSlashes rest with
      | EmptyString => if Ascii.eqb c "/" then EmptyString else String c EmptyString
      | kept => String c kept
      end
  end.

(** [normalizeUrlValue(value)]; setting [parsed.hash] changes none of the
    parts that are read afterwards. *)
Definition normalizeUrlValue (newURL : string -> option ParsedUrl) (value : string)
  : string :=
  if truthy value then
    let normalized := trim value in
    let normalized :=
      if hasHttpScheme normalized then normalized else "https://" +:+ normalized in
    match newURL normalized with
    | Some parsed =>
        let pathname := stripTrailingSlashes (u_pathname parsed) in
        let pathname := if truthy pathname then pathname else "/" in
        toLowerCase (u_protocol parsed +:+ "//" +:+ u_host parsed +:+ pathname
                     +:+ u_search parsed)
    | None => toLowerCase normalized
    end
  else "".

(** A sample of [new URL] for plain http and https addresses: the host in
    lower case up to the first [/], [?] or [#], the path up to [?] or [#]
    ([/] when there is none), the query up to [#]. *)
Fixpoint splitWhere (stop : ascii -> bool) (s : string) : string * string :=
  match s with
  | EmptyString => (EmptyString, EmptyString)
  | String c rest =>
      if stop c then (EmptyString, s)
      else let (before, after) := splitWhere stop rest in (String c before, after)
  end.

Fixpoint skip (n : nat) (s : string) : string :=
  match n, s with
  | S k, String _ rest => skip k rest
  | _, _ => s
  end.

Definition plainURL (address : string) : option ParsedUrl :=
  let scheme :=
    if String.prefix "https://" (toLowerCase address) then Some ("https:", skip 8 address)
    else if String.prefix "http://" (toLowerCase address) then Some ("http:", skip 7 address)
    else None in
  match scheme with
  | Some (protocol, rest) =>
      let (host, afterHost) :=
        splitWhere (fun c => Ascii.eqb c "/" || Ascii.eqb c "?" || Ascii.eqb c "#") rest in
      let (path, afterPath) :=
        splitWhere (fun c => Ascii.eqb c "?" || Ascii.eqb c "#") afterHost in
      let (query, _) := splitWhere (fun c => Ascii.eqb c "#") afterPath in
      if truthy host then
        Some (mkUrl protocol (toLowerCase host)
                (if truthy path then path else "/")
                (if String.eqb query "?" then "" else query))
      else None
  | None => None
  end.

(** More sample data. *)
Definition taggedRaw : PartialBookmark :=
  mkPartial None (Some "  Rocq ") (Some "https://rocq-prover.org ") None None
    (Some [" proof"; "logic"; "proof "; ""]) None None None None None.

Definition visitedTwice : Bookmark :=
  {| id := "v"; title := "Example"; url := "https://v.example"; description := "";
     notes := ""; tags := []; folder := "";
     createdAt := "2024-01-01T00:00:00.000Z"; updatedAt := "2024-01-01T00:00:00.000Z";
     visitCount := 2; lastVisitedAt := None |}.

Definition strandedVisitor : Machine CutOff :=
  mkMachine (clientWith [olderBookmark; visitedTwice] []) (mkCutOff 0) [].

(** A bookmark is added, the stored one renamed and then deleted, all while
    the service cannot be reached. *)
Definition editedOffline : BookmarkClient :=
  this (deleteBookmark "a"
          (updateBookmark "a" (renamed "A")
             (createBookmark (sampleDraft "B" "https://b.example") stranded).2).2).2.

(** * Properties *)

(** ** Searching an array by id *)

Lemma eqb_string_true (a b : string) : String.eqb a b = true <-> a = b.
Proof. apply String.eqb_eq. Qed.

Lemma eqb_string_false (a b : string) : String.eqb a b = false <-> a <> b.
Proof. apply String.eqb_neq. Qed.

Lemma some_present (key : string) (arr : list Bookmark) :
  some key arr = true <-> key ∈ map id arr.
Proof.
  unfold some. induction arr as [|b arr IH]; simpl.
  - split; [discriminate | intros Hin; inversion Hin].
  - rewrite orb_true_iff, IH, elem_of_cons, eqb_string_true.
    split; intros [->|Hin]; auto.
Qed.

Lemma some_absent (key : string) (arr : list Bookmark) :
  some key arr = false <-> key ∉ map id arr.
Proof.
  rewrite <- some_present. destruct (some key arr); split; congruence.
Qed.

Lemma findIndex_absent (key : string) (arr : list Bookmark) :
  findIndex key arr = None <-> key ∉ map id arr.
Proof.
  induction arr as [|b arr IH]; simpl.
  - split; [intros _ Hin; inversion Hin | reflexivity].
  - rewrite not_elem_of_cons. destruct (String.eqb (id b) key) eqn:E.
    + apply eqb_string_true in E. split; [discriminate | intros [Hne _]; congruence].
    + apply eqb_string_false in E. rewrite <- IH.
      destruct (findIndex key arr); simpl; split; try discriminate; auto.
      intros [_ Hnone]. discriminate.
Qed.

(** The index found is that of the first entry with the id. *)
Lemma findIndex_first (key : string) (before after : list Bookmark) (old : Bookmark) :
  id old = key -> key ∉ map id before ->
  findIndex key (before ++ old :: after) = Some (length before).
Proof.
  intros Hid. induction before as [|b before IH]; simpl; intros Hnot.
  - apply eqb_string_true in Hid. now rewrite Hid.
  - apply not_elem_of_cons in Hnot as [Hne Hnot].
    assert (String.eqb (id b) key = false) as -> by (apply eqb_string_false; congruence).
    now rewrite IH.
Qed.

Lemma findIndex_split (key : string) (arr : list Bookmark) (idx : nat) :
  findIndex key arr = Some idx ->
  exists before old after,
    arr = before ++ old :: after /\ length before = idx /\
    id old = key /\ key ∉ map id before.
Proof.
  revert idx. induction arr as [|b arr IH]; simpl; intros idx Hfind; [discriminate|].
  destruct (String.eqb (id b) key) eqn:E.
  - apply eqb_string_true in E. injection Hfind as <-.
    exists [], b, arr. repeat split; auto. intros Hin; inversion Hin.
  - apply eqb_string_false in E.
    destruct (findIndex key arr) as [j|] eqn:Hj; [|discriminate].
    simpl in Hfind. injection Hfind as <-.
    destruct (IH j eq_refl) as (before & old & after & -> & Hlen & Hid & Hnot).
    exists (b :: before), old, after. simpl. repeat split; auto.
    apply not_elem_of_cons. split; congruence.
Qed.

Lemma splice1_middle (before after : list Bookmark) (old : Bookmark) :
  splice1 (length before) (before ++ old :: after) = before ++ after.
Proof.
  unfold splice1. rewrite take_app_length.
  change (S (length before)) with (1 + length before)%nat.
  rewrite Nat.add_comm, <- drop_drop, drop_app_length. reflexivity.
Qed.

Lemma insert_middle (before after : list Bookmark) (old new : Bookmark) :
  <[length before := new]> (before ++ old :: after) = before ++ new :: after.
Proof.
  rewrite insert_app_r_alt by lia. now rewrite Nat.sub_diag.
Qed.

Lemma lookup_middle (before after : list Bookmark) (old : Bookmark) :
  (before ++ old :: after) !! length before = Some old.
Proof. apply list_lookup_middle. reflexivity. Qed.

(** ** One step of the replay *)

Lemma applyOperation_create_present (result : list Bookmark) (b : Bookmark) :
  id b ∈ map id result -> applyOperation result (OpCreate b) = result.
Proof. intros Hin. simpl. apply some_present in Hin. now rewrite Hin. Qed.

Lemma applyOperation_create_absent (result : list Bookmark) (b : Bookmark) :
  id b ∉ map id result -> applyOperation result (OpCreate b) = result ++ [b].
Proof. intros Hin. simpl. apply some_absent in Hin. now rewrite Hin. Qed.

Lemma applyOperation_update_absent (result : list Bookmark) key updates :
  key ∉ map id result -> applyOperation result (OpUpdate key updates) = result.
Proof. intros Hin. simpl. apply findIndex_absent in Hin. now rewrite Hin. Qed.

Lemma applyOperation_update_present (before after : list Bookmark) old key updates :
  id old = key -> key ∉ map id before ->
  applyOperation (before ++ old :: after) (OpUpdate key updates)
  = before ++ spread old updates :: after.
Proof.
  intros Hid Hnot. simpl. rewrite (findIndex_first key before after old Hid Hnot).
  rewrite lookup_middle. apply insert_middle.
Qed.

Lemma applyOperation_delete_absent (result : list Bookmark) key :
  key ∉ map id result -> applyOperation result (OpDelete key) = result.
Proof. intros Hin. simpl. apply findIndex_absent in Hin. now rewrite Hin. Qed.

Lemma applyOperation_delete_present (before after : list Bookmark) old key :
  id old = key -> key ∉ map id before ->
  applyOperation (before ++ old :: after) (OpDelete key) = before ++ after.
Proof.
  intros Hid Hnot. simpl. rewrite (findIndex_first key before after old Hid Hnot).
  apply splice1_middle.
Qed.

(** An entry with the id can always be singled out as the first one. *)
Lemma first_with_id (key : string) (arr : list Bookmark) :
  key ∈ map id arr ->
  exists before old after,
    arr = before ++ old :: after /\ id old = key /\ key ∉ map id before.
Proof.
  intros Hin. destruct (findIndex key arr) as [idx|] eqn:Hfind.
  - destruct (findIndex_split key arr idx Hfind) as (before & old & after & ? & _ & ? & ?).
    eauto 6.
  - apply findIndex_absent in Hfind. contradiction.
Qed.

Lemma replay_snoc (log : list PendingOperation) (op : PendingOperation) base :
  replay (log ++ [op]) base = applyOperation (replay log base) op.
Proof. unfold replay. now rewrite fold_left_app. Qed.

(** ** The ids along the replay *)

Lemma spread_keeps_id (old : Bookmark) key updates :
  id old = key -> keepsId (OpUpdate key updates) -> id (spread old updates) = key.
Proof. intros Hid [Hnone|Hsame]; simpl in *; rewrite ?Hnone, ?Hsame; simpl; auto. Qed.

(** What one operation does to the list of ids, when it keeps ids. *)
Lemma applyOperation_ids (result : list Bookmark) (op : PendingOperation) :
  keepsId op ->
  (exists b, op = OpCreate b /\ (id b ∉ map id result) /\
             map id (applyOperation result op) = map id result ++ [id b])
  \/ map id (applyOperation result op) = map id result
  \/ (exists before key after,
        map id result = before ++ key :: after /\
        map id (applyOperation result op) = before ++ after).
Proof.
  intros Hkeeps. destruct op as [b|key updates|key].
  - destruct (decide (id b ∈ map id result)) as [Hin|Hout].
    + right; left. now rewrite applyOperation_create_present.
    + left. exists b. rewrite applyOperation_create_absent by assumption.
      now rewrite map_app.
  - right; left. destruct (decide (key ∈ map id result)) as [Hin|Hout].
    + destruct (first_with_id key result Hin) as (before & old & after & -> & Hid & Hnot).
      rewrite applyOperation_update_present by assumption.
      rewrite !map_app. cbn [map].
      now rewrite (spread_keeps_id old key updates Hid Hkeeps), Hid.
    + now rewrite applyOperation_update_absent.
  - destruct (decide (key ∈ map id result)) as [Hin|Hout].
    + right; right.
      destruct (first_with_id key result Hin) as (before & old & after & -> & Hid & Hnot).
      rewrite applyOperation_delete_present by assumption.
      exists (map id before), key, (map id after). rewrite !map_app. simpl.
      now rewrite Hid.
    + right; left. now rewrite applyOperation_delete_absent.
Qed.

Lemma applyOperation_distinct (result : list Bookmark) (op : PendingOperation) :
  keepsId op -> NoDup (map id result) -> NoDup (map id (applyOperation result op)).
Proof.
  intros Hkeeps Hdistinct.
  destruct (applyOperation_ids result op Hkeeps)
    as [(b & _ & Hout & ->)|[->|(before & key & after & Hsplit & ->)]]; auto.
  - apply NoDup_app. repeat split; auto.
    + intros x Hx Hb. apply list_elem_of_singleton in Hb as ->. contradiction.
    + apply NoDup_singleton.
  - rewrite Hsplit in Hdistinct. apply NoDup_app in Hdistinct as (Hb & Hcross & Ha).
    apply NoDup_cons in Ha as [_ Ha]. apply NoDup_app. repeat split; auto.
    intros x Hx Hin. apply (Hcross x Hx). now apply elem_of_cons; right.
Qed.

(** C3.  [applyPendingLocally] never raises and leaves the client alone; it
    replays the queue from its first operation to its last; and one
    operation acts on the array built so far as follows.  A Create of an id
    that some entry has changes nothing, a Create of a new id puts its
    bookmark at the end.  An Update of an id that no entry has changes
    nothing, otherwise its fields are merged into the first entry with that
    id, which stays in place: the merged entry has, field by field, the
    value the Update carries, and the value of the old entry where the
    Update carries none.  A Delete of an id that no entry has changes
    nothing, otherwise the first entry with that id is removed. *)
Theorem replay_rule :
  forall (World : Type) (E : Environment World) (m : Machine World)
         (base : list Bookmark),
    applyPendingLocally base m
    = (Returned (replay (map operation (pending (this m))) base), m)
    /\ replay [] base = base
    /\ (forall op log, replay (op :: log) base = replay log (applyOperation base op))
    /\ (forall result b,
          (id b ∈ map id result -> applyOperation result (OpCreate b) = result)
          /\ (id b ∉ map id result ->
              applyOperation result (OpCreate b) = result ++ [b]))
    /\ (forall result key updates,
          (key ∉ map id result ->
           applyOperation result (OpUpdate key updates) = result)
          /\ (forall before old after,
                result = before ++ old :: after -> id old = key ->
                key ∉ map id before ->
                exists merged,
                  applyOperation result (OpUpdate key updates)
                  = before ++ merged :: after
                  /\ id merged = default (id old) (p_id updates)
                  /\ title merged = default (title old) (p_title updates)
                  /\ url merged = default (url old) (p_url updates)
                  /\ description merged
                     = default (description old) (p_description updates)
                  /\ notes merged = default (notes old) (p_notes updates)
                  /\ tags merged = default (tags old) (p_tags updates)
                  /\ folder merged = default (folder old) (p_folder updates)
                  /\ createdAt merged = default (createdAt old) (p_createdAt updates)
                  /\ updatedAt merged = default (updatedAt old) (p_updatedAt updates)
                  /\ visitCount merged
                     = default (visitCount old) (p_visitCount updates)
                  /\ lastVisitedAt merged
                     = default (lastVisitedAt old) (p_lastVisitedAt updates))
          /\ (key ∈ map id result ->
              exists before old after,
                result = before ++ old :: after /\ id old = key /\
                key ∉ map id before))
    /\ (forall result key,
          (key ∉ map id result -> applyOperation result (OpDelete key) = result)
          /\ (forall before old after,
                result = before ++ old :: after -> id old = key ->
                key ∉ map id before ->
                applyOperation result (OpDelete key) = before ++ after)).
Proof.
  intros World E m base. split; [reflexivity|]. split; [reflexivity|].
  split; [reflexivity|]. split; [|split].
  - intros result b. split.
    + apply applyOperation_create_present.
    + apply applyOperation_create_absent.
  - intros result key updates. split; [|split].
    + apply applyOperation_update_absent.
    + intros before old after -> Hid Hnot. exists (spread old updates).
      split; [now apply applyOperation_update_present|]. repeat split.
    + apply first_with_id.
  - intros result key. split.
    + apply applyOperation_delete_absent.
    + intros before old after ->. apply applyOperation_delete_present.
Qed.

(** C4, amended.  When the ids of the mirror are pairwise distinct and no
    Update of the log carries an id other than its target's, the ids of the
    projection are pairwise distinct. *)
Theorem replay_distinct_ids :
  forall (log : list PendingOperation) (base : list Bookmark),
    NoDup (map id base) -> Forall keepsId log ->
    NoDup (map id (replay log base)).
Proof.
  unfold replay. induction log as [|op log IH]; simpl; intros base Hbase Hlog; auto.
  apply Forall_cons in Hlog as [Hop Hlog].
  apply IH; auto. now apply applyOperation_distinct.
Qed.

(** ** Running the methods *)

(** A decidable statement about sample data, by evaluation. *)
Ltac decided := apply (bool_decide_unpack _); vm_compute; exact I.

Ltac run :=
  unfold bind, ret, throw, tryCatch, getThis, setThis, ask, send, navigatorOnLine;
  simpl.

(** ** The order of the collection *)

Lemma insertSorted_permutation {A : Type} (compare : A -> A -> Z) (x : A) sorted :
  insertSorted compare x sorted ≡ₚ x :: sorted.
Proof.
  induction sorted as [|y rest IH]; simpl; [reflexivity|].
  destruct (compare x y <=? 0)%Z; [reflexivity|].
  rewrite IH. apply Permutation_swap.
Qed.

(** [sort] rearranges, it neither drops nor adds. *)
Lemma sort_permutation {A : Type} (compare : A -> A -> Z) (arr : list A) :
  sort compare arr ≡ₚ arr.
Proof.
  induction arr as [|x arr IH]; simpl; [reflexivity|].
  now rewrite insertSorted_permutation, IH.
Qed.

Lemma insertSorted_all {A : Type} (compare : A -> A -> Z) (P : A -> Prop) (x : A) sorted :
  Forall P (insertSorted compare x sorted) <-> P x /\ Forall P sorted.
Proof. now rewrite insertSorted_permutation, Forall_cons. Qed.

Section Order.
Context {World : Type} `{Environment World}.

(** Between bookmarks whose dates parse the comparison of [fetchRemote] says
    which one is not the older. *)
Lemma compared_dated (x y : Bookmark) :
  dated x -> dated y ->
  ((byUpdatedAtDescending x y <= 0)%Z -> notOlder x y)
  /\ ((0 < byUpdatedAtDescending x y)%Z -> notOlder y x).
Proof.
  intros [tx Hx] [ty Hy]. unfold byUpdatedAtDescending, notOlder.
  rewrite Hx, Hy. split; intros Hcompare; eexists _, _; repeat split; lia.
Qed.

Lemma notOlder_trans (a b c : Bookmark) : notOlder a b -> notOlder b c -> notOlder a c.
Proof.
  intros (ta & tb & Ha & Hb & Hab) (tb' & tc & Hb' & Hc & Hbc).
  exists ta, tc. repeat split; auto. rewrite Hb in Hb'. injection Hb' as <-. lia.
Qed.

Lemma insertSorted_sorted (x : Bookmark) (sorted : list Bookmark) :
  dated x -> Forall dated sorted ->
  StronglySorted notOlder sorted ->
  StronglySorted notOlder (insertSorted byUpdatedAtDescending x sorted).
Proof.
  intros Hx. induction sorted as [|y rest IH]; simpl; intros Hdated Hsorted.
  - repeat constructor.
  - apply Forall_cons in Hdated as [Hy Hdated].
    apply StronglySorted_inv in Hsorted as [Hrest Hbelow].
    destruct (compared_dated x y Hx Hy) as [Hbefore Hafter].
    destruct (byUpdatedAtDescending x y <=? 0)%Z eqn:Hcompare.
    + apply Z.leb_le in Hcompare. constructor; [now constructor|].
      constructor; [auto|]. apply List.Forall_forall. intros z Hz.
      apply (notOlder_trans x y z); [auto|].
      now apply (proj1 (List.Forall_forall _ _) Hbelow).
    + apply Z.leb_gt in Hcompare. constructor; [now apply IH|].
      apply insertSorted_all. split; auto.
Qed.

Lemma sort_sorted (items : list Bookmark) :
  Forall dated items -> StronglySorted notOlder (sort byUpdatedAtDescending items).
Proof.
  induction items as [|x items IH]; simpl; intros Hdated; [constructor|].
  apply Forall_cons in Hdated as [Hx Hdated].
  apply insertSorted_sorted; auto. now rewrite sort_permutation.
Qed.

Lemma sorted_newestFirst (items : list Bookmark) :
  StronglySorted notOlder items -> newestFirst items.
Proof.
  induction 1 as [|a rest Hrest IH Hbelow]; intros i j x y Hlt Hx Hy; [discriminate|].
  destruct j as [|j]; [lia|]. simpl in Hy. destruct i as [|i]; simpl in Hx.
  - injection Hx as <-. apply (proj1 (List.Forall_forall _ _) Hbelow).
    apply list_elem_of_In. now apply list_elem_of_lookup_2 in Hy.
  - apply (IH i j); auto. lia.
Qed.

Lemma parseBookmark_parsedFrom (raw : PartialBookmark) (m m' : Machine World) b :
  parseBookmark raw m = (Returned b, m') -> parsedFrom raw b.
Proof.
  unfold parseBookmark, createId. run.
  destruct (isoNow (world m)) as [now w1]. simpl.
  destruct (p_id raw) as [given|] eqn:Hid; simpl;
    [|destruct (randomUUID w1) as [made w2]; simpl];
    intros [= <- _]; unfold parsedFrom; simpl; rewrite ?Hid;
    repeat split; try congruence;
    intros stamp Hstamp; rewrite Hstamp; reflexivity.
Qed.

Lemma parseAll_parsedFrom (items : list PartialBookmark) :
  forall (m m' : Machine World) parsed,
    parseAll items m = (Returned parsed, m') -> Forall2 parsedFrom items parsed.
Proof.
  induction items as [|item items IH]; simpl; intros m m' parsed.
  - intros [= <- _]. constructor.
  - run. destruct (parseBookmark item m) as [[b|e] m1] eqn:Hb; [|discriminate].
    destruct (parseAll items m1) as [[rest|e] m2] eqn:Hrest; [|discriminate].
    intros [= <- _]. constructor; [now apply (parseBookmark_parsedFrom item m m1)|].
    now apply (IH m1 m2).
Qed.

(** What [fetchRemote] returns holds the bookmarks parsed from the records
    of the response, each once, and is ordered by [updatedAt] descending
    when all their dates parse. *)
Lemma fetchRemote_sorted (m m' : Machine World) (remote : list Bookmark) :
  fetchRemote m = (Returned remote, m') ->
  (exists data m1 parsed,
      apiRequest GET m = (Returned data, m1)
      /\ Forall2 parsedFrom (listedItems data) parsed
      /\ parsed ≡ₚ remote)
  /\ (Forall dated remote -> newestFirst remote).
Proof.
  unfold fetchRemote. run.
  destruct (apiRequest GET m) as [[data|e] m1]; [|discriminate].
  destruct (parseAll (listedItems data) m1) as [[list|e] m2] eqn:Hlist; [|discriminate].
  intros Hrun. injection Hrun as <- _. split.
  - exists data, m1, list. split; [reflexivity|].
    split; [now apply (parseAll_parsedFrom _ m1 m2)|]. symmetry. apply sort_permutation.
  - intros Hdated. apply sorted_newestFirst, sort_sorted.
    now rewrite sort_permutation in Hdated.
Qed.

(** C8, amended.  The list that [fetchRemote] returns holds the bookmarks
    parsed from the records of the response, each once, and when the
    [updatedAt] of each of them parses as a date it is ordered by
    [updatedAt] descending.  The replay does not sort: for a log whose
    Updates keep ids, the ids of the projection are, in this order, ids of
    the mirror in the mirror's order and then ids created by the log in log
    order. *)
Theorem replay_keeps_order :
  forall (m : Machine World) (log : list PendingOperation) (base : list Bookmark),
    (forall remote m',
        fetchRemote m = (Returned remote, m') ->
        (exists data m1 parsed,
            apiRequest GET m = (Returned data, m1)
            /\ Forall2 parsedFrom (listedItems data) parsed
            /\ parsed ≡ₚ remote)
        /\ (Forall dated remote -> newestFirst remote))
    /\ (Forall keepsId log ->
        map id (replay log base) `sublist_of` map id base ++ createdIds log).
Proof.
  intros m log base. split.
  - intros remote m'. apply fetchRemote_sorted.
  - revert base. induction log as [|op log IH] using rev_ind; intros base Hlog.
    + simpl. rewrite app_nil_r. reflexivity.
    + apply Forall_app in Hlog as [Hlog Hop]. apply Forall_cons in Hop as [Hop _].
      specialize (IH base Hlog). rewrite replay_snoc.
      unfold createdIds in *. rewrite omap_app, app_assoc.
      destruct (applyOperation_ids (replay log base) op Hop)
        as [(b & -> & _ & ->)|[->|(before & key & after & Hsplit & ->)]].
      * simpl. now apply sublist_app.
      * now apply sublist_inserts_r.
      * apply sublist_inserts_r. etransitivity; [|exact IH]. rewrite Hsplit.
        apply sublist_app; [reflexivity|]. now apply sublist_cons.
Qed.
End Order.

Section Sync.
Context {World : Type} `{Environment World}.

Lemma tryCatch_swallow {A : Type} (body : Action (Machine World) A) m :
  tryCatch (bind body (fun _ => ret tt)) (fun _ => ret tt) m
  = (Returned tt, (body m).2).
Proof. run. destruct (body m) as [[a|e] m']; reflexivity. Qed.

(** A failed call leaves the client as it was. *)
Lemma pushOperation_failure (queued : Queued) (m : Machine World) w :
  fetch (requestOf (operation queued)) (world m) = (Failure, w) ->
  pushOperation queued m
  = (Thrown RequestFailed,
     mkMachine (this m) w (requests m ++ [requestOf (operation queued)])).
Proof.
  intros Hfetch. unfold pushOperation, apiRequest.
  destruct (operation queued); simpl in Hfetch; run; rewrite Hfetch; reflexivity.
Qed.

(** A successful call removes the object from the queue, and only it. *)
Lemma pushOperation_success (queued : Queued) (m : Machine World) :
  (fetch (requestOf (operation queued)) (world m)).1 <> Failure ->
  exists m1,
    pushOperation queued m = (Returned tt, m1)
    /\ pending (this m1)
       = filter (fun other => sameObject queued other = false) (pending (this m))
    /\ requests m1 = requests m ++ [requestOf (operation queued)].
Proof.
  intros Hfetch. unfold pushOperation, apiRequest, upsertLocal, removePending,
    persist, parseBookmark, createId, setBookmarks.
  destruct (operation queued); simpl in Hfetch; run;
    destruct (fetch _ (world m)) as [[| |data] w]; simpl in *;
    try congruence; repeat case_match; simplify_eq/=; eauto.
Qed.

Lemma drain_failure (queued : Queued) (rest : list Queued) (m : Machine World) w :
  fetch (requestOf (operation queued)) (world m) = (Failure, w) ->
  drain (queued :: rest) m
  = (Returned false,
     mkMachine (this m) w (requests m ++ [requestOf (operation queued)])).
Proof.
  intros Hfetch. simpl. run. now rewrite (pushOperation_failure queued m w Hfetch).
Qed.

Lemma drain_success (queued : Queued) (rest : list Queued) (m : Machine World) :
  (fetch (requestOf (operation queued)) (world m)).1 <> Failure ->
  drain (queued :: rest) m = drain rest (pushOperation queued m).2.
Proof.
  intros Hfetch. simpl. run.
  destruct (pushOperation_success queued m Hfetch) as (m1 & -> & _). reflexivity.
Qed.

Lemma pushedAll_cons (queued : Queued) (rest : list Queued) (m m1 : Machine World) :
  pushedAll (queued :: rest) m = Some m1 ->
  (fetch (requestOf (operation queued)) (world m)).1 <> Failure
  /\ pushedAll rest (pushOperation queued m).2 = Some m1.
Proof.
  simpl. destruct (fetch _ (world m)) as [[| |data] w]; simpl;
    intros Hall; split; congruence.
Qed.

(** The loop leaves at the first failed call, in the state the successful
    calls before it have built. *)
Lemma drain_stops (done : list Queued) (failing : Queued) (rest : list Queued) :
  forall (m m1 : Machine World) w,
    pushedAll done m = Some m1 ->
    fetch (requestOf (operation failing)) (world m1) = (Failure, w) ->
    drain (done ++ failing :: rest) m
    = (Returned false,
       mkMachine (this m1) w (requests m1 ++ [requestOf (operation failing)])).
Proof.
  induction done as [|queued done IH]; intros m m1 w Hall Hfail.
  - simpl in Hall. injection Hall as <-. now apply drain_failure.
  - apply pushedAll_cons in Hall as [Hok Hall].
    rewrite <- app_comm_cons, drain_success by assumption. now apply IH.
Qed.

Lemma filter_other_addresses (queued : Queued) (others : list Queued) :
  address queued ∉ map address others ->
  filter (fun other => sameObject queued other = false) others = others.
Proof.
  induction others as [|other others IH]; simpl; intros Hnot; [reflexivity|].
  apply not_elem_of_cons in Hnot as [Hne Hnot].
  rewrite filter_cons_True.
  - now rewrite IH.
  - unfold sameObject. now apply Nat.eqb_neq.
Qed.

(** With one address per object, the successful calls remove exactly their
    operations, and the requests go out in the order of the queue. *)
Lemma pushedAll_queue (done : list Queued) :
  forall (m m1 : Machine World) (others : list Queued),
    pushedAll done m = Some m1 ->
    pending (this m) = done ++ others ->
    NoDup (map address (pending (this m))) ->
    pending (this m1) = others
    /\ requests m1 = requests m ++ map (fun queued => requestOf (operation queued)) done.
Proof.
  induction done as [|queued done IH]; intros m m1 others Hall Hqueue Hdistinct.
  - simpl in *. injection Hall as <-. now rewrite app_nil_r.
  - apply pushedAll_cons in Hall as [Hok Hall].
    destruct (pushOperation_success queued m Hok) as (m2 & Hrun & Hpending & Hrequests).
    rewrite Hrun in Hall. simpl in Hall.
    rewrite Hqueue in Hdistinct, Hpending. simpl in Hdistinct.
    apply NoDup_cons in Hdistinct as [Hfresh Hdistinct].
    simpl in Hpending. rewrite filter_cons_False in Hpending
      by (unfold sameObject; rewrite Nat.eqb_refl; congruence).
    rewrite filter_other_addresses in Hpending by assumption.
    destruct (IH m2 m1 others Hall Hpending) as [Hleft Hsent].
    + now rewrite Hpending.
    + split; [assumption|]. rewrite Hsent, Hrequests. simpl. now rewrite <- app_assoc.
Qed.
End Sync.

Section SyncClaims.
Context {World : Type} `{Environment World}.

Lemma sync_leaves_loop (m m' : Machine World) :
  pending (this m) <> [] -> onLine (world m) <> Some false ->
  drain (pending (this m)) m = (Returned false, m') ->
  sync m = (Returned false, m').
Proof.
  intros Hqueue Honline Hdrain. unfold sync. run.
  destruct (pending (this m)) as [|queued queue] eqn:E; [congruence|].
  destruct (onLine (world m)) as [[|]|]; try congruence; now rewrite Hdrain.
Qed.

(** C10.  With an empty queue [sync] returns [true] at once: no request is
    sent, the clock is not read, and the collection, the queue, the storage
    (with the time of the last sync) and the listeners are left as they
    were.  This holds in every environment, the offline ones included. *)
Theorem sync_nothing_pending :
  forall m : Machine World,
    pending (this m) = [] -> sync m = (Returned true, m).
Proof.
  intros m Hempty. unfold sync. run. rewrite Hempty. reflexivity.
Qed.

(** C1, amended.  When the queue is not empty and the environment reports
    itself offline, [sync] returns [false] and does nothing: no request is
    sent, and the collection, the queue and the storage (with the time of
    the last sync) are left as they were. *)
Theorem sync_offline :
  forall m : Machine World,
    pending (this m) <> [] -> onLine (world m) = Some false ->
    sync m = (Returned false, m).
Proof.
  intros m Hqueue Hoffline. unfold sync. run.
  destruct (pending (this m)); [congruence|]. rewrite Hoffline. reflexivity.
Qed.

(** C2.  Online, with a queue [done ++ failing :: rest] of distinct objects:
    when the calls for [done], issued one after the other, succeed and the
    call for [failing] then fails, [sync] returns [false]; the queue it
    leaves is [failing :: rest] in the same order; the client is the one the
    successful calls have built, nothing of it is undone; and the requests
    sent are those of [done] and of [failing], in the order of the queue,
    and none for [rest]. *)
Theorem sync_stops_at_first_failure :
  forall (m m1 : Machine World) (done : list Queued) (failing : Queued)
         (rest : list Queued) (w : World),
    pending (this m) = done ++ failing :: rest ->
    NoDup (map address (pending (this m))) ->
    onLine (world m) <> Some false ->
    pushedAll done m = Some m1 ->
    fetch (requestOf (operation failing)) (world m1) = (Failure, w) ->
    exists m',
      sync m = (Returned false, m')
      /\ pending (this m') = failing :: rest
      /\ this m' = this m1
      /\ requests m'
         = requests m
           ++ map (fun queued => requestOf (operation queued)) (done ++ [failing]).
Proof.
  intros m m1 done failing rest w Hqueue Hdistinct Honline Hdone Hfail.
  destruct (pushedAll_queue done m m1 (failing :: rest) Hdone Hqueue Hdistinct)
    as [Hleft Hsent].
  eexists. split; [|split; [|split]].
  - apply sync_leaves_loop; auto.
    + rewrite Hqueue. destruct done; discriminate.
    + rewrite Hqueue. apply drain_stops with (m1 := m1); [exact Hdone | exact Hfail].
  - exact Hleft.
  - reflexivity.
  - simpl. rewrite Hsent, map_app, app_assoc. reflexivity.
Qed.
End SyncClaims.

(** ** Mutations *)

Lemma find_id_absent (key : string) (arr : list Bookmark) :
  key ∉ map id arr -> find (fun item => String.eqb (id item) key) arr = None.
Proof.
  induction arr as [|b arr IH]; simpl; intros Hnot; [reflexivity|].
  apply not_elem_of_cons in Hnot as [Hne Hnot].
  assert (String.eqb (id b) key = false) as -> by (apply eqb_string_false; congruence).
  auto.
Qed.

Lemma filter_id_absent (key : string) (arr : list Bookmark) :
  key ∉ map id arr ->
  filter (fun bookmark => String.eqb (id bookmark) key = false) arr = arr.
Proof.
  induction arr as [|b arr IH]; simpl; intros Hnot; [reflexivity|].
  apply not_elem_of_cons in Hnot as [Hne Hnot].
  rewrite filter_cons_True by (apply eqb_string_false; congruence).
  now rewrite IH.
Qed.

Lemma find_url_present (link : string) (arr : list Bookmark) :
  link ∈ map url arr ->
  exists duplicate, find (fun bookmark => String.eqb (url bookmark) link) arr = Some duplicate.
Proof.
  induction arr as [|b arr IH]; simpl; intros Hin; [inversion Hin|].
  destruct (String.eqb (url b) link) eqn:E; [eauto|].
  apply eqb_string_false in E. apply elem_of_cons in Hin as [Heq|Hin]; [congruence|auto].
Qed.


Lemma truthy_false (s : string) : truthy s = false <-> s = "".
Proof. destruct s; simpl; split; congruence. Qed.

Section MutationClaims.
Context {World : Type} `{Environment World}.

(** C5, amended.  For an id that no bookmark of the collection has,
    [updateBookmark] and [trackVisit] throw 'Bookmark not found' and leave
    the client and the environment as they were.  [deleteBookmark] has no
    such test: it does not throw 'Bookmark not found', it leaves the
    collection as it was, it sends the DELETE request, and when that request
    fails its Delete operation is at the end of the queue. *)
Theorem unknown_id :
  forall (m : Machine World) (key : string),
    key ∉ map id (bookmarks (this m)) ->
    (forall updates, updateBookmark key updates m = (Thrown BookmarkNotFound, m))
    /\ trackVisit key m = (Thrown BookmarkNotFound, m)
    /\ exists outcome m',
         deleteBookmark key m = (outcome, m')
         /\ outcome <> Thrown BookmarkNotFound
         /\ bookmarks (this m') = bookmarks (this m)
         /\ requests m' = requests m ++ [DELETE key]
         /\ ((fetch (DELETE key) (world m)).1 = Failure ->
             pending (this m')
             = pending (this m) ++ [mkQueued (fresh (this m)) (OpDelete key)]).
Proof.
  intros m key Hnot. split; [|split].
  - intros updates. unfold updateBookmark. run.
    apply findIndex_absent in Hnot. now rewrite Hnot.
  - unfold trackVisit. run. now rewrite (find_id_absent key _ Hnot).
  - unfold deleteBookmark, recordPending, notify, setBookmarks, apiRequest,
      removePending, persist, rethrowWhenOnline. run.
    rewrite (filter_id_absent key _ Hnot).
    destruct (fetch (DELETE key) (world m)) as [[| |data] w]; simpl;
      try destruct (onLine w) as [[|]|]; simpl;
      eexists _, _; (split; [reflexivity|]); simpl;
      repeat split; congruence.
Qed.

(** C6, amended.  [createBookmark] does not validate the draft.  For every
    draft, one with an empty title or url included, its synchronous part
    builds a bookmark with the trimmed title and url, puts it at the end of
    the collection and its Create operation at the end of the queue, and
    stores both in their JSON form; then the bookmark is posted.  The only error
    [createBookmark] raises is the one of the failed request, while the
    environment is online, and the bookmark and its operation are then
    still where the synchronous part has put them. *)
Theorem create_unvalidated :
  forall (m : Machine World) (draft : BookmarkDraft),
    exists b m1,
      createLocally draft m = (Returned b, m1)
      /\ title b = trim (d_title draft)
      /\ url b = trim (d_url draft)
      /\ bookmarks (this m1) = bookmarks (this m) ++ [b]
      /\ pending (this m1)
         = pending (this m) ++ [mkQueued (fresh (this m)) (OpCreate b)]
      /\ BOOKMARK_STORAGE_KEY (localStorage (this m1)) = bookmarks (this m1)
      /\ PENDING_STORAGE_KEY (localStorage (this m1))
         = map throughJSON (map operation (pending (this m1)))
      /\ requests m1 = requests m
      /\ requests (createBookmark draft m).2 = requests m ++ [POST b]
      /\ (forall e, (createBookmark draft m).1 = Thrown e ->
            e = RequestFailed
            /\ onLine (world (createBookmark draft m).2) = Some true
            /\ this (createBookmark draft m).2 = this m1).
Proof.
  intros m draft.
  unfold createBookmark, confirmCreate, createLocally, parseBookmark, createId,
    recordPending, notify, setBookmarks, apiRequest, upsertLocal, removePending,
    persist, rethrowWhenOnline. run.
  destruct (isoNow (world m)) as [now w1]. simpl.
  destruct (randomUUID w1) as [uuid w2]. simpl.
  destruct (isoNow w2) as [now' w3]. simpl.
  eexists _, _. split; [reflexivity|]. simpl.
  do 7 (split; [reflexivity|]).
  destruct (fetch _ w3) as [[| |data] w4]; simpl.
  - destruct (onLine w4) as [[|]|] eqn:Hstatus; simpl;
      (split; [reflexivity|]); intros e He; simplify_eq/=; auto.
  - split; [reflexivity|]. intros e He. discriminate.
  - destruct (isoNow w4) as [now'' w5]. simpl.
    destruct (p_id (savedRaw data)) as [given|]; simpl;
      [|destruct (randomUUID w5) as [made w6]; simpl];
      match goal with |- context [findIndex ?k ?l] => destruct (findIndex k l) end;
      simpl; (split; [reflexivity|]); intros e He; discriminate.
Qed.



End MutationClaims.

(** ** Duplicate detection *)

Lemma mapGet_mapSet_same {V : Type} (key : string) (value : V) entries :
  mapGet key (mapSet key value entries) = Some value.
Proof.
  induction entries as [|[k v] entries IH]; simpl.
  - now rewrite String.eqb_refl.
  - destruct (String.eqb k key) eqn:E; simpl; now rewrite E.
Qed.

Lemma mapGet_mapSet_other {V : Type} (key other : string) (value : V) entries :
  key <> other -> mapGet other (mapSet key value entries) = mapGet other entries.
Proof.
  intros Hne. induction entries as [|[k v] entries IH]; simpl.
  - apply eqb_string_false in Hne. now rewrite Hne.
  - destruct (String.eqb k key) eqn:E; simpl.
    + apply eqb_string_true in E. subst k.
      apply eqb_string_false in Hne. now rewrite Hne.
    + now rewrite IH.
Qed.

Lemma mapGet_missing {V : Type} (key : string) (entries : list (string * V)) :
  mapGet key entries = None <-> key ∉ map fst entries.
Proof.
  induction entries as [|[k v] entries IH]; simpl.
  - split; [intros _ Hin; inversion Hin | reflexivity].
  - rewrite not_elem_of_cons. destruct (String.eqb k key) eqn:E.
    + apply eqb_string_true in E. split; [discriminate | intros [Hne _]; congruence].
    + apply eqb_string_false in E. rewrite IH. split; [split; auto; congruence | tauto].
Qed.

Lemma mapSet_keys {V : Type} (key : string) (value : V) entries :
  map fst (mapSet key value entries)
  = match mapGet key entries with
    | Some _ => map fst entries
    | None => map fst entries ++ [key]
    end.
Proof.
  induction entries as [|[k v] entries IH]; simpl; [reflexivity|].
  destruct (String.eqb k key) eqn:E; simpl; [reflexivity|].
  rewrite IH. now destruct (mapGet key entries).
Qed.

Lemma mapSet_distinct_keys {V : Type} (key : string) (value : V) entries :
  NoDup (map fst entries) -> NoDup (map fst (mapSet key value entries)).
Proof.
  intros Hdistinct. rewrite mapSet_keys.
  destruct (mapGet key entries) eqn:Hget; [assumption|].
  apply mapGet_missing in Hget. apply NoDup_app. repeat split; auto.
  - intros x Hx Hkey. apply list_elem_of_singleton in Hkey as ->. contradiction.
  - apply NoDup_singleton.
Qed.

Lemma mapGet_entry {V : Type} (key : string) (value : V) entries :
  NoDup (map fst entries) ->
  (key, value) ∈ entries <-> mapGet key entries = Some value.
Proof.
  induction entries as [|[k v] entries IH]; simpl; intros Hdistinct.
  - split; [intros Hin; inversion Hin | discriminate].
  - apply NoDup_cons in Hdistinct as [Hfresh Hdistinct].
    rewrite elem_of_cons, (IH Hdistinct). destruct (String.eqb k key) eqn:E.
    + apply eqb_string_true in E. subst k. split.
      * intros [Heq|Hget]; [congruence|].
        assert (mapGet key entries <> None) as Hsome by congruence.
        rewrite mapGet_missing in Hsome. destruct (decide (key ∈ map fst entries)); tauto.
      * intros Heq. left. congruence.
    + apply eqb_string_false in E. split; [intros [Heq|Hget]; congruence | auto].
Qed.

Lemma sharingUrl_snoc (key : string) (items : list Bookmark) (b : Bookmark) :
  sharingUrl key (items ++ [b])
  = sharingUrl key items
    ++ (if decide (url b <> "" /\ toLowerCase (url b) = key) then [b] else []).
Proof. unfold sharingUrl. rewrite filter_app. f_equal. Qed.

Lemma groupByUrl_snoc (items : list Bookmark) (b : Bookmark) :
  groupByUrl (items ++ [b])
  = if truthy (url b) then
      mapSet (toLowerCase (url b))
        (default [] (mapGet (toLowerCase (url b)) (groupByUrl items)) ++ [b])
        (groupByUrl items)
    else groupByUrl items.
Proof. unfold groupByUrl. now rewrite fold_left_app. Qed.

(** The first loop keeps one entry per key in use, with the bookmarks of
    that key in the order of the collection. *)
Lemma groupByUrl_groups (items : list Bookmark) :
  NoDup (map fst (groupByUrl items))
  /\ forall key,
       mapGet key (groupByUrl items)
       = match sharingUrl key items with [] => None | group => Some group end.
Proof.
  induction items as [|b items [IHkeys IHget]] using rev_ind.
  - split; [constructor | reflexivity].
  - rewrite groupByUrl_snoc. destruct (truthy (url b)) eqn:Htruthy.
    + assert (url b <> "") as Hurl by (rewrite <- truthy_false; congruence).
      split; [now apply mapSet_distinct_keys|]. intros key.
      rewrite sharingUrl_snoc. destruct (decide (toLowerCase (url b) = key)) as [<-|Hne].
      * rewrite mapGet_mapSet_same, IHget, decide_True by tauto.
        destruct (sharingUrl (toLowerCase (url b)) items); reflexivity.
      * rewrite mapGet_mapSet_other, IHget, decide_False, app_nil_r by tauto.
        reflexivity.
    + apply truthy_false in Htruthy. split; [assumption|]. intros key.
      rewrite sharingUrl_snoc, IHget, decide_False, app_nil_r by tauto. reflexivity.
Qed.

(** What [detectDuplicates] computes: it groups the bookmarks of the
    collection that have a url by that url in lower case, taken as it is
    stored, and reports exactly the groups of two bookmarks or more, each
    under its key and once. *)
Theorem detectDuplicates_groups :
  forall (c : BookmarkClient),
    NoDup (map fst (detectDuplicates c))
    /\ (forall key group,
          (key, group) ∈ detectDuplicates c
          <-> group = sharingUrl key (bookmarks c) /\ (2 <= length group)%nat)
    /\ toLowerCase "https://Example.com/" = "https://example.com/"
    /\ toLowerCase "example.com" = "example.com".
Proof.
  intros c. destruct (groupByUrl_groups (bookmarks c)) as [Hkeys Hget].
  unfold detectDuplicates. split; [|split; [|split; reflexivity]].
  - change (map fst ?l) with (fst <$> l) in *.
    apply NoDup_fmap_fst.
    + intros key g1 g2 H1%list_elem_of_filter H2%list_elem_of_filter.
      destruct H1 as [_ H1], H2 as [_ H2].
      apply mapGet_entry in H1, H2; try assumption. congruence.
    + apply NoDup_filter. eapply NoDup_fmap_1. exact Hkeys.
  - intros key group. rewrite list_elem_of_filter, mapGet_entry, Hget by assumption.
    simpl. rewrite Nat.ltb_ge.
    destruct (sharingUrl key (bookmarks c)) as [|b rest].
    + split; [intros [_ Hno]; discriminate | intros [-> Hlen]; simpl in Hlen; lia].
    + split; [intros [Hlen Heq]; split; congruence | intros [-> Hlen]; auto].
Qed.

(** ** The objects of the queue

    The removal by [===] in [sync] is exact on a queue of distinct objects.
    Every client has one: the constructor makes one, and every method keeps
    it. *)

Lemma imap_addresses (log : list PendingOperation) (start : nat) :
  map address (imap (fun index => mkQueued (start + index)) log)
  = seq start (length log).
Proof.
  revert start. induction log as [|op log IH]; intros start; simpl; [reflexivity|].
  rewrite Nat.add_0_r. f_equal. rewrite <- IH. f_equal.
  apply imap_ext. intros index x _. simpl. f_equal. lia.
Qed.

Lemma wellAllocated_construct (stored : Storage) : wellAllocated (construct stored).
Proof.
  unfold wellAllocated, construct. simpl.
  assert (Haddresses : map address (imap mkQueued (PENDING_STORAGE_KEY stored))
                       = seq 0 (length (PENDING_STORAGE_KEY stored)))
    by apply (imap_addresses _ 0).
  split.
  - rewrite Haddresses. apply NoDup_ListNoDup, List.seq_NoDup.
  - apply Forall_forall. intros queued Hin.
    assert (address queued ∈ map address (imap mkQueued (PENDING_STORAGE_KEY stored)))
      as Haddress by (apply list_elem_of_In, in_map, list_elem_of_In, Hin).
    rewrite Haddresses in Haddress.
    apply list_elem_of_In, List.in_seq in Haddress. lia.
Qed.

Lemma wellAllocated_push (c : BookmarkClient) (op : PendingOperation) items stored shown :
  wellAllocated c ->
  wellAllocated
    (mkClient items (pending c ++ [mkQueued (fresh c) op]) (S (fresh c)) stored shown).
Proof.
  intros [Hdistinct Hbelow]. unfold wellAllocated. simpl. split.
  - rewrite map_app. apply NoDup_app. repeat split; auto.
    + intros x Hx Hfresh. apply list_elem_of_singleton in Hfresh as ->.
      apply list_elem_of_In, in_map_iff in Hx as (queued & Heq & Hin).
      rewrite Forall_forall in Hbelow.
      apply list_elem_of_In, Hbelow in Hin. simpl in Heq. lia.
    + apply NoDup_singleton.
  - apply Forall_app. split.
    + eapply Forall_impl; [exact Hbelow|]. simpl. intros queued Hlt. lia.
    + apply Forall_singleton. simpl. lia.
Qed.

Lemma wellAllocated_filter (c : BookmarkClient) (keep : Queued -> bool) items stored shown :
  wellAllocated c ->
  wellAllocated
    (mkClient items (filter (fun queued => keep queued = false) (pending c))
       (fresh c) stored shown).
Proof.
  intros [Hdistinct Hbelow]. unfold wellAllocated. simpl. split.
  - change (map address ?l) with (address <$> l) in *.
    eapply sublist_NoDup; [exact Hdistinct|].
    apply fmap_sublist, sublist_filter.
  - apply Forall_forall. intros queued Hin%list_elem_of_filter.
    rewrite Forall_forall in Hbelow. now apply Hbelow.
Qed.

Section Allocation.
Context {World : Type} `{Environment World}.

Lemma keeps_ret {A : Type} (a : A) : keepsAllocation (World := World) (ret a).
Proof. intros m Hm. exact Hm. Qed.

Lemma keeps_throw {A : Type} (e : Error) :
  keepsAllocation (World := World) (throw (A := A) e).
Proof. intros m Hm. exact Hm. Qed.

Lemma keeps_bind {A B : Type} (first : Action (Machine World) A)
      (next : A -> Action (Machine World) B) :
  keepsAllocation (World := World) first -> (forall a, keepsAllocation (World := World) (next a)) ->
  keepsAllocation (World := World) (bind first next).
Proof.
  intros Hfirst Hnext m Hm. specialize (Hfirst m Hm). unfold bind.
  destruct (first m) as [[a|e] m1]; simpl in *; [now apply Hnext | assumption].
Qed.

Lemma keeps_tryCatch {A : Type} (body : Action (Machine World) A)
      (handler : Error -> Action (Machine World) A) :
  keepsAllocation (World := World) body -> (forall e, keepsAllocation (World := World) (handler e)) ->
  keepsAllocation (World := World) (tryCatch body handler).
Proof.
  intros Hbody Hhandler m Hm. specialize (Hbody m Hm). unfold tryCatch.
  destruct (body m) as [[a|e] m1]; simpl in *; [assumption | now apply Hhandler].
Qed.

Lemma keeps_getThis : keepsAllocation (World := World) getThis.
Proof. intros m Hm. exact Hm. Qed.

Lemma keeps_navigatorOnLine : keepsAllocation (World := World) navigatorOnLine.
Proof. intros m Hm. exact Hm. Qed.

Lemma keeps_ask {A : Type} (call : World -> A * World) :
  keepsAllocation (World := World) (ask call).
Proof. intros m Hm. unfold ask. now destruct (call (world m)). Qed.

Lemma keeps_send (request : Request) : keepsAllocation (World := World) (send request).
Proof. intros m Hm. unfold send. now destruct (fetch request (world m)). Qed.

Lemma keeps_persist : keepsAllocation (World := World) persist.
Proof. intros m Hm. exact Hm. Qed.

Lemma keeps_notify : keepsAllocation (World := World) notify.
Proof. intros m Hm. exact Hm. Qed.

Lemma keeps_stampLastSync : keepsAllocation (World := World) stampLastSync.
Proof. intros m Hm. unfold stampLastSync. run. now destruct (isoNow (world m)). Qed.

Lemma keeps_setBookmarks (items : list Bookmark) :
  keepsAllocation (World := World) (setBookmarks items).
Proof. intros m Hm. exact Hm. Qed.

Lemma keeps_recordPending (op : PendingOperation) :
  keepsAllocation (World := World) (recordPending op).
Proof. intros m Hm. unfold recordPending, persist. run. now apply wellAllocated_push. Qed.

Lemma keeps_removePending (predicate : Queued -> bool) :
  keepsAllocation (World := World) (removePending predicate).
Proof.
  intros m Hm. unfold removePending, persist. run.
  now apply (wellAllocated_filter (this m) predicate).
Qed.

Ltac keeping_by known :=
  repeat first
    [ known
    | apply keeps_ret | apply keeps_throw | apply keeps_getThis
    | apply keeps_navigatorOnLine | apply keeps_ask | apply keeps_send
    | apply keeps_persist | apply keeps_notify | apply keeps_stampLastSync
    | apply keeps_setBookmarks | apply keeps_recordPending
    | apply keeps_removePending
    | assumption
    | apply keeps_bind; [|intros ?]
    | apply keeps_tryCatch; [|intros ?]
    | match goal with
      | |- keepsAllocation (match ?x with _ => _ end) => destruct x
      end ].

Ltac keeping := keeping_by fail.

Lemma keeps_parseBookmark (raw : PartialBookmark) :
  keepsAllocation (World := World) (parseBookmark raw).
Proof. unfold parseBookmark, createId. keeping. Qed.

Lemma keeps_apiRequest (request : Request) :
  keepsAllocation (World := World) (apiRequest request).
Proof. unfold apiRequest. keeping. Qed.

Lemma keeps_upsertLocal (bookmark : Bookmark) :
  keepsAllocation (World := World) (upsertLocal bookmark).
Proof. unfold upsertLocal. keeping. Qed.

Lemma keeps_rethrowWhenOnline (e : Error) :
  keepsAllocation (World := World) (rethrowWhenOnline e).
Proof. unfold rethrowWhenOnline. keeping. Qed.

Lemma keeps_parseAll (items : list PartialBookmark) :
  keepsAllocation (World := World) (parseAll items).
Proof.
  induction items as [|item items IH]; simpl;
    keeping_by ltac:(apply keeps_parseBookmark).
Qed.

Lemma keeps_fetchRemote : keepsAllocation (World := World) fetchRemote.
Proof.
  unfold fetchRemote. keeping_by ltac:(apply keeps_parseAll).
Qed.

Lemma keeps_createBookmark (draft : BookmarkDraft) :
  keepsAllocation (World := World) (createBookmark draft).
Proof.
  unfold createBookmark, createLocally, confirmCreate.
  keeping.
Qed.

Lemma keeps_updateBookmark key updates :
  keepsAllocation (World := World) (updateBookmark key updates).
Proof.
  unfold updateBookmark.
  keeping.
Qed.

Lemma keeps_deleteBookmark key : keepsAllocation (World := World) (deleteBookmark key).
Proof.
  unfold deleteBookmark.
  keeping.
Qed.

Lemma keeps_trackVisit key : keepsAllocation (World := World) (trackVisit key).
Proof. unfold trackVisit. keeping. Qed.

Lemma keeps_importFrom (entries : list BookmarkDraft) :
  forall count, keepsAllocation (World := World) (importFrom entries count).
Proof.
  induction entries as [|entry rest IH]; intros count; simpl; [apply keeps_ret|].
  destruct (truthy (trim (d_url entry))); [|apply IH].
  keeping_by ltac:(first [apply IH | apply keeps_createBookmark]).
Qed.

Lemma keeps_pushOperation (queued : Queued) :
  keepsAllocation (World := World) (pushOperation queued).
Proof.
  unfold pushOperation.
  keeping.
Qed.

Lemma keeps_drain (queue : list Queued) : keepsAllocation (World := World) (drain queue).
Proof.
  induction queue as [|queued rest IH]; simpl;
    keeping_by ltac:(apply keeps_pushOperation).
Qed.

(** Every public method of the client keeps the queue well allocated. *)
Lemma wellAllocated_methods :
  (forall draft, keepsAllocation (World := World) (createBookmark draft))
  /\ (forall key updates, keepsAllocation (World := World) (updateBookmark key updates))
  /\ (forall key, keepsAllocation (World := World) (deleteBookmark key))
  /\ (forall key, keepsAllocation (World := World) (trackVisit key))
  /\ (forall entries, keepsAllocation (World := World) (importBookmarks entries))
  /\ keepsAllocation (World := World) sync
  /\ keepsAllocation (World := World) load.
Proof.
  split; [exact keeps_createBookmark|]. split; [exact keeps_updateBookmark|].
  split; [exact keeps_deleteBookmark|]. split; [exact keeps_trackVisit|].
  split; [intros entries; apply keeps_importFrom|]. split.
  - unfold sync.
    keeping_by ltac:(first [apply keeps_drain | apply keeps_fetchRemote]).
  - unfold load, applyPendingLocally.
    keeping_by ltac:(apply keeps_fetchRemote).
Qed.
End Allocation.

(** ** The statements at sample inputs *)

(** An empty queue, offline: [true], and nothing has moved. *)
Lemma sync_nothing_pending_offline :
  pending (this idle) = []
  /\ onLine (world idle) = Some false
  /\ sync idle = (Returned true, idle).
Proof.
  split; [reflexivity|]. split; [reflexivity|].
  apply (sync_nothing_pending idle). reflexivity.
Defined.

(** The claim C1 as it is written fails on the empty queue: offline, [sync]
    answers [true]. *)
Lemma sync_offline_empty_queue_true :
  onLine (world idle) = Some false
  /\ (sync idle).1 = Returned true
  /\ sync idle <> (Returned false, idle).
Proof. split; [reflexivity|]. split; [reflexivity|]. discriminate. Qed.

Lemma sync_offline_waiting :
  pending (this waitingOffline) <> []
  /\ onLine (world waitingOffline) = Some false
  /\ sync waitingOffline = (Returned false, waitingOffline).
Proof.
  split; [discriminate|]. split; [reflexivity|].
  apply (sync_offline waitingOffline); [discriminate | reflexivity].
Defined.

(** The third of five operations fails: the first two have left the queue,
    the last three wait in their order, the answer is [false], and three
    requests went out. *)
Lemma sync_third_of_five_fails :
  exists m',
    sync thirdFails = (Returned false, m')
    /\ pending (this m') = drop 2 fiveQueued
    /\ this m' = mkClient (bookmarks (this thirdFails)) (drop 2 fiveQueued) 5
                   (mkStorage (bookmarks (this thirdFails))
                      (map operation (drop 2 fiveQueued)) None) []
    /\ requests m'
       = map (fun queued => requestOf (operation queued)) (take 3 fiveQueued).
Proof.
  destruct (sync_stops_at_first_failure thirdFails
              (mkMachine
                 (mkClient (bookmarks (this thirdFails)) (drop 2 fiveQueued) 5
                    (mkStorage (bookmarks (this thirdFails))
                       (map operation (drop 2 fiveQueued)) None) [])
                 (onlineWorld [Failure; NoContent; NoContent])
                 (map (fun queued => requestOf (operation queued)) (take 2 fiveQueued)))
              (take 2 fiveQueued) (mkQueued 2 (OpDelete "b")) (drop 3 fiveQueued)
              (onlineWorld [NoContent; NoContent]))
    as (m' & Hsync & Hqueue & Hclient & Hsent).
  - reflexivity.
  - decided.
  - discriminate.
  - reflexivity.
  - reflexivity.
  - exists m'. repeat split; assumption.
Defined.

(** The replay on two bookmarks. *)
Lemma replay_rule_on_two_bookmarks :
  applyOperation twoBookmarks (OpCreate olderBookmark) = twoBookmarks
  /\ applyOperation twoBookmarks (OpUpdate "c" (renamed "New")) = twoBookmarks
  /\ applyOperation twoBookmarks (OpUpdate "b" (renamed "New"))
     = [ sampleBookmark "a" "https://a.example" "2024-01-02T00:00:00.000Z";
         {| id := "b"; title := "New"; url := "https://b.example"; description := "";
            notes := ""; tags := []; folder := "";
            createdAt := "2024-01-01T00:00:00.000Z";
            updatedAt := "2024-01-01T00:00:00.000Z";
            visitCount := 0; lastVisitedAt := None |} ]
  /\ applyOperation twoBookmarks (OpDelete "c") = twoBookmarks
  /\ applyOperation twoBookmarks (OpDelete "a")
     = [ sampleBookmark "b" "https://b.example" "2024-01-01T00:00:00.000Z" ].
Proof.
  destruct (replay_rule Scripted scripted idle twoBookmarks)
    as (_ & _ & _ & Hcreate & Hupdate & Hdelete).
  split; [|split; [|split; [|split]]].
  - apply (Hcreate twoBookmarks olderBookmark). decided.
  - apply (Hupdate twoBookmarks "c" (renamed "New")). decided.
  - destruct (proj1 (proj2 (Hupdate twoBookmarks "b" (renamed "New")))
                [sampleBookmark "a" "https://a.example" "2024-01-02T00:00:00.000Z"]
                (sampleBookmark "b" "https://b.example" "2024-01-01T00:00:00.000Z") [])
      as (merged & Hresult & Hi & Ht & Hl & Hd & Hn & Hg & Hf & Hc & Hu & Hv & Hs).
    + reflexivity.
    + reflexivity.
    + decided.
    + rewrite Hresult. destruct merged. simpl in *.
      rewrite Hi, Ht, Hl, Hd, Hn, Hg, Hf, Hc, Hu, Hv, Hs. reflexivity.
  - apply (Hdelete twoBookmarks "c"). decided.
  - apply (proj2 (Hdelete twoBookmarks "a")
             [] (sampleBookmark "a" "https://a.example" "2024-01-02T00:00:00.000Z")
             [sampleBookmark "b" "https://b.example" "2024-01-01T00:00:00.000Z"]).
    + reflexivity.
    + reflexivity.
    + decided.
Defined.

(** The claim C4 as it is written fails: an Update whose fields carry the id
    of another bookmark gives that id to two entries. *)
Lemma replay_duplicates_id :
  NoDup (map id twoBookmarks)
  /\ map id (replay [takesIdOfOther] twoBookmarks) = ["b"; "b"]
  /\ ~ NoDup (map id (replay [takesIdOfOther] twoBookmarks)).
Proof.
  split; [decided|].
  split; [reflexivity|].
  intros Hdistinct. apply NoDup_cons in Hdistinct as [Hfresh _].
  apply Hfresh. decided.
Qed.

Lemma replay_distinct_ids_sample :
  NoDup (map id twoBookmarks)
  /\ Forall keepsId [OpCreate newerBookmark; OpUpdate "a" (renamed "New"); OpDelete "b"]
  /\ NoDup (map id (replay [OpCreate newerBookmark; OpUpdate "a" (renamed "New");
                            OpDelete "b"] twoBookmarks)).
Proof.
  assert (Hmirror : NoDup (map id twoBookmarks))
    by (decided).
  assert (Hlog : Forall keepsId
            [OpCreate newerBookmark; OpUpdate "a" (renamed "New"); OpDelete "b"])
    by (repeat constructor; simpl; auto).
  split; [exact Hmirror|]. split; [exact Hlog|].
  apply (replay_distinct_ids _ twoBookmarks Hmirror Hlog).
Defined.

(** The claim C8 as it is written fails: a created bookmark goes to the end,
    behind an older one. *)
Lemma replay_appends_newer :
  newestFirst (H := scripted) [olderBookmark]
  /\ replay [OpCreate newerBookmark] [olderBookmark] = [olderBookmark; newerBookmark]
  /\ ~ newestFirst (H := scripted) (replay [OpCreate newerBookmark] [olderBookmark]).
Proof.
  split; [|split].
  - intros i j a b Hlt Ha Hb. destruct j as [|j]; [lia|].
    destruct i; discriminate.
  - reflexivity.
  - intros Hsorted.
    destruct (Hsorted 0%nat 1%nat olderBookmark newerBookmark
                (Nat.lt_0_succ 0) eq_refl eq_refl) as (ta & tb & Ha & Hb & Hle).
    vm_compute in Ha, Hb. injection Ha as <-. injection Hb as <-. lia.
Qed.

Lemma replay_keeps_order_sample :
  (exists remote m',
     fetchRemote listing = (Returned remote, m')
     /\ Forall (dated (H := scripted)) remote
     /\ map id remote = ["b"; "a"] /\ newestFirst (H := scripted) remote)
  /\ Forall keepsId [OpDelete "a"; OpCreate olderBookmark; OpCreate newerBookmark]
  /\ map id (replay [OpDelete "a"; OpCreate olderBookmark; OpCreate newerBookmark]
               twoBookmarks)
     `sublist_of` ["a"; "b"] ++ ["a"; "b"].
Proof.
  assert (Hlog : Forall keepsId
            [OpDelete "a"; OpCreate olderBookmark; OpCreate newerBookmark])
    by (repeat constructor).
  destruct (replay_keeps_order listing
              [OpDelete "a"; OpCreate olderBookmark; OpCreate newerBookmark]
              twoBookmarks) as [Hremote Horder].
  split; [|split; [exact Hlog | exact (Horder Hlog)]].
  destruct (fetchRemote listing) as [[remote|e] m'] eqn:Hrun.
  - pose proof (proj2 (Hremote remote m' eq_refl)) as Hsorted.
    vm_compute in Hrun. injection Hrun as <- <-.
    assert (Hdated : Forall (dated (H := scripted)) [newerBookmark; olderBookmark])
      by (repeat constructor; eexists; reflexivity).
    eexists _, _. split; [reflexivity|]. split; [exact Hdated|].
    split; [reflexivity|]. exact (Hsorted Hdated).
  - vm_compute in Hrun. discriminate.
Defined.

(** An unknown id on the empty client. *)
Lemma unknown_id_on_empty_client :
  ("missing" ∉ map id (bookmarks (this idle)))
  /\ (forall updates, updateBookmark "missing" updates idle = (Thrown BookmarkNotFound, idle))
  /\ trackVisit "missing" idle = (Thrown BookmarkNotFound, idle)
  /\ exists outcome m',
       deleteBookmark "missing" idle = (outcome, m')
       /\ outcome <> Thrown BookmarkNotFound
       /\ bookmarks (this m') = bookmarks (this idle)
       /\ requests m' = requests idle ++ [DELETE "missing"]
       /\ ((fetch (DELETE "missing") (world idle)).1 = Failure ->
           pending (this m')
           = pending (this idle) ++ [mkQueued (fresh (this idle)) (OpDelete "missing")]).
Proof.
  split; [decided|]. apply (unknown_id idle "missing"). decided.
Defined.

(** The claim C5 as it is written fails for [deleteBookmark]: the unknown id
    is not rejected, and a Delete operation is queued for it. *)
Lemma delete_unknown_id_is_queued :
  ("missing" ∉ map id (bookmarks (this idle)))
  /\ (deleteBookmark "missing" idle).1 = Returned []
  /\ pending (this (deleteBookmark "missing" idle).2) = [mkQueued 0 (OpDelete "missing")]
  /\ PENDING_STORAGE_KEY (localStorage (this (deleteBookmark "missing" idle).2))
     = [OpDelete "missing"]
  /\ requests (deleteBookmark "missing" idle).2 = [DELETE "missing"].
Proof. split; [decided|]. repeat split. Qed.

(** The claim C6 as it is written fails: a draft without title and url, or
    of white space only, is added to the collection and queued. *)
Lemma create_accepts_blank_draft :
  trim (d_title blankDraft) = "" /\ trim (d_url blankDraft) = ""
  /\ trim (d_title spacesDraft) = "" /\ trim (d_url spacesDraft) = ""
  /\ (exists b,
        title b = "" /\ url b = ""
        /\ (createBookmark blankDraft idle).1 = Returned [b]
        /\ bookmarks (this (createBookmark blankDraft idle).2) = [b]
        /\ pending (this (createBookmark blankDraft idle).2) = [mkQueued 0 (OpCreate b)])
  /\ (exists b,
        title b = "" /\ url b = ""
        /\ (createBookmark spacesDraft idle).1 = Returned [b]
        /\ bookmarks (this (createBookmark spacesDraft idle).2) = [b]
        /\ pending (this (createBookmark spacesDraft idle).2) = [mkQueued 0 (OpCreate b)]).
Proof.
  repeat (split; [reflexivity|]).
  split; eexists; repeat split; reflexivity.
Qed.

(** Online, the service rejects the blank draft: the error is the one of the
    request, and the bookmark is in the collection and in the queue. *)
Lemma create_blank_draft_rejected_online :
  exists b m',
    createBookmark blankDraft rejecting = (Thrown RequestFailed, m')
    /\ title b = "" /\ url b = ""
    /\ requests m' = [POST b]
    /\ onLine (world m') = Some true
    /\ bookmarks (this m') = [b]
    /\ pending (this m') = [mkQueued 0 (OpCreate b)].
Proof.
  destruct (create_unvalidated rejecting blankDraft)
    as (b & m1 & Hlocal & Htitle & Hurl & Hitems & Hqueue & _ & _ & _ & Hsent & Hthrown).
  destruct (Hthrown RequestFailed eq_refl) as (_ & Hstatus & Hclient).
  exists b, (createBookmark blankDraft rejecting).2.
  split; [reflexivity|]. rewrite Hclient.
  repeat split; assumption.
Defined.

(** On the specification's own example the two urls get different keys in
    the client and no group is reported. *)
Lemma detectDuplicates_misses_bare_host :
  url mixedCase = "https://Example.com/" /\ url bareHost = "example.com"
  /\ toLowerCase (url mixedCase) <> toLowerCase (url bareHost)
  /\ detectDuplicates (clientWith [mixedCase; bareHost] []) = [].
Proof. repeat split. discriminate. Qed.

(** C7.  The client's duplicate detection does not normalise urls as the
    claim says and as [normalizeUrlValue] of the service does.  With a
    [new URL] that reads both addresses as https://example.com/, which is
    what the browser's does, [normalizeUrlValue] gives the urls
    "https://Example.com/" and "example.com" the one key
    "https://example.com/"; [detectDuplicates] keys them by their lower
    case alone and reports no group for two bookmarks that have them. *)
Theorem detectDuplicates_unnormalized :
  forall newURL : string -> option ParsedUrl,
    newURL "https://Example.com/" = Some (mkUrl "https:" "example.com" "/" "") ->
    newURL "https://example.com" = Some (mkUrl "https:" "example.com" "/" "") ->
    normalizeUrlValue newURL (url mixedCase) = "https://example.com/"
    /\ normalizeUrlValue newURL (url bareHost) = "https://example.com/"
    /\ toLowerCase (url mixedCase) = "https://example.com/"
    /\ toLowerCase (url bareHost) = "example.com"
    /\ detectDuplicates (clientWith [mixedCase; bareHost] []) = [].
Proof.
  intros newURL Hfirst Hsecond. split; [|split; [|repeat split]].
  - unfold normalizeUrlValue. cbv. rewrite Hfirst. reflexivity.
  - unfold normalizeUrlValue. cbv. rewrite Hsecond. reflexivity.
Qed.

Lemma detectDuplicates_unnormalized_plain :
  plainURL "https://Example.com/" = Some (mkUrl "https:" "example.com" "/" "")
  /\ plainURL "https://example.com" = Some (mkUrl "https:" "example.com" "/" "")
  /\ normalizeUrlValue plainURL "https://Example.com/"
     = normalizeUrlValue plainURL "example.com"
  /\ detectDuplicates (clientWith [mixedCase; bareHost] []) = [].
Proof.
  destruct (detectDuplicates_unnormalized plainURL eq_refl eq_refl)
    as (Hfirst & Hsecond & _ & _ & Hnone).
  split; [reflexivity|]. split; [reflexivity|]. split; [|exact Hnone].
  change (normalizeUrlValue plainURL (url mixedCase)
          = normalizeUrlValue plainURL (url bareHost)).
  now rewrite Hfirst, Hsecond.
Defined.

(** Urls that differ in case only are one group. *)
Lemma detectDuplicates_case_only :
  ("https://example.com/", [mixedCase; lowerCase]) ∈ detectDuplicates threeUrls
  /\ detectDuplicates threeUrls = [("https://example.com/", [mixedCase; lowerCase])].
Proof.
  split; [|reflexivity].
  apply (proj2 (proj1 (proj2 (detectDuplicates_groups threeUrls))
                  "https://example.com/" [mixedCase; lowerCase])).
  split; [reflexivity | simpl; lia].
Defined.



(** * Further properties *)

(** ** Methods that only read the client *)

Section Readers.
Context {World : Type} `{Environment World}.

Lemma leaves_ret {A : Type} (a : A) : leavesClient (World := World) (ret a).
Proof. intros m. reflexivity. Qed.

Lemma leaves_throw {A : Type} (e : Error) :
  leavesClient (World := World) (throw (A := A) e).
Proof. intros m. reflexivity. Qed.

Lemma leaves_bind {A B : Type} (first : Action (Machine World) A)
      (next : A -> Action (Machine World) B) :
  leavesClient first -> (forall a, leavesClient (next a)) ->
  leavesClient (bind first next).
Proof.
  intros Hfirst Hnext m. specialize (Hfirst m). unfold bind.
  destruct (first m) as [[a|e] m1]; simpl in *; [|assumption].
  now rewrite Hnext.
Qed.

Lemma leaves_ask {A : Type} (call : World -> A * World) : leavesClient (ask call).
Proof. intros m. unfold ask. now destruct (call (world m)). Qed.

Lemma leaves_send (request : Request) : leavesClient (send request).
Proof. intros m. unfold send. now destruct (fetch request (world m)). Qed.

Lemma leaves_apiRequest (request : Request) : leavesClient (apiRequest request).
Proof.
  unfold apiRequest. apply leaves_bind; [apply leaves_send|].
  intros [| |data]; [apply leaves_throw | apply leaves_ret | apply leaves_ret].
Qed.

Lemma leaves_parseBookmark (raw : PartialBookmark) : leavesClient (parseBookmark raw).
Proof.
  unfold parseBookmark, createId. apply leaves_bind; [apply leaves_ask|].
  intros now. apply leaves_bind.
  - destruct (p_id raw); [apply leaves_ret | apply leaves_ask].
  - intros ident. apply leaves_ret.
Qed.

Lemma leaves_parseAll (items : list PartialBookmark) : leavesClient (parseAll items).
Proof.
  induction items as [|item items IH]; simpl; [apply leaves_ret|].
  apply leaves_bind; [apply leaves_parseBookmark|]. intros parsed.
  apply leaves_bind; [exact IH|]. intros others. apply leaves_ret.
Qed.

Lemma leaves_fetchRemote : leavesClient (World := World) fetchRemote.
Proof.
  unfold fetchRemote. apply leaves_bind; [apply leaves_apiRequest|]. intros data.
  apply leaves_bind; [apply leaves_parseAll|]. intros list. apply leaves_ret.
Qed.

(** [parseBookmark] always returns. *)
Lemma parseBookmark_returns (raw : PartialBookmark) (m : Machine World) :
  exists b m', parseBookmark raw m = (Returned b, m').
Proof.
  unfold parseBookmark, createId. run.
  destruct (isoNow (world m)) as [now w1]. simpl.
  destruct (p_id raw); simpl; [eauto|].
  destruct (randomUUID w1). simpl. eauto.
Qed.
End Readers.

(** ** Reading the remote list *)

Section Refresh.
Context {World : Type} `{Environment World}.

Lemma parseBookmark_quiet (raw : PartialBookmark) (m : Machine World) :
  exists b m',
    parseBookmark raw m = (Returned b, m')
    /\ this m' = this m /\ requests m' = requests m.
Proof.
  unfold parseBookmark, createId. run.
  destruct (isoNow (world m)) as [now w1]. simpl.
  destruct (p_id raw); simpl; [eauto 6|].
  destruct (randomUUID w1). simpl. eauto 6.
Qed.

Lemma parseAll_quiet (items : list PartialBookmark) (m : Machine World) :
  exists list m',
    parseAll items m = (Returned list, m')
    /\ this m' = this m /\ requests m' = requests m
    /\ length list = length items.
Proof.
  revert m. induction items as [|item items IH]; intros m; simpl.
  - exists [], m. auto.
  - destruct (parseBookmark_quiet item m) as (b & m1 & Hb & Hthis & Hsent).
    destruct (IH m1) as (list & m2 & Hlist & Hthis' & Hsent' & Hlen).
    exists (b :: list), m2. run. rewrite Hb, Hlist. simpl.
    repeat split; congruence.
Qed.

(** [fetchRemote] sends one GET, writes nothing to the client, and either
    throws because the request failed or returns a list, newest first when
    its dates parse. *)
Lemma fetchRemote_outcome (m : Machine World) :
  this (fetchRemote m).2 = this m
  /\ requests (fetchRemote m).2 = requests m ++ [GET]
  /\ ((fetch GET (world m)).1 = Failure -> (fetchRemote m).1 = Thrown RequestFailed)
  /\ ((fetch GET (world m)).1 <> Failure ->
      exists remote,
        (fetchRemote m).1 = Returned remote
        /\ (Forall dated remote -> newestFirst remote)).
Proof.
  unfold fetchRemote, apiRequest. run.
  destruct (fetch GET (world m)) as [[| |data] w]; simpl.
  - repeat split; congruence.
  - repeat split; try congruence. intros _. eexists. split; [reflexivity|].
    intros _ i j a b Hlt Ha. discriminate.
  - destruct (parseAll_quiet (listedItems (Some data))
                (mkMachine (this m) w (requests m ++ [GET])))
      as (list & m' & Hlist & Hthis & Hsent & _).
    simpl in Hlist, Hthis, Hsent. rewrite Hlist. simpl.
    repeat split; try congruence.
    intros _. eexists. split; [reflexivity|].
    intros Hdated. apply sorted_newestFirst, sort_sorted.
    now rewrite sort_permutation in Hdated.
Qed.

(** The end of [sync]: the refresh after the queue has been drained. *)
Lemma refresh_failed (m m2 : Machine World) (e : Error) :
  fetchRemote m = (Thrown e, m2) ->
  tryCatch
    (bind fetchRemote (fun remote =>
       bind (setBookmarks remote) (fun _ =>
         bind persist (fun _ => bind stampLastSync (fun _ => notify)))))
    (fun _ => ret tt) m
  = (Returned tt, m2).
Proof. intros Hfetch. run. now rewrite Hfetch. Qed.

Lemma refresh_done (m m2 : Machine World) (remote : list Bookmark) :
  fetchRemote m = (Returned remote, m2) ->
  tryCatch
    (bind fetchRemote (fun remote =>
       bind (setBookmarks remote) (fun _ =>
         bind persist (fun _ => bind stampLastSync (fun _ => notify)))))
    (fun _ => ret tt) m
  = (Returned tt,
     mkMachine
       (mkClient remote (pending (this m2)) (fresh (this m2))
          (mkStorage remote (map throughJSON (map operation (pending (this m2))))
             (Some (isoNow (world m2)).1))
          (notified (this m2) ++ [remote]))
       (isoNow (world m2)).2 (requests m2)).
Proof.
  intros Hfetch. unfold setBookmarks, persist, stampLastSync, notify. run.
  rewrite Hfetch. simpl. destruct (isoNow (world m2)) as [now w]. reflexivity.
Qed.
End Refresh.

(** ** A whole run of [sync] *)

Section WholeSync.
Context {World : Type} `{Environment World}.

Lemma drain_all (queue : list Queued) :
  forall m m1 : Machine World,
    pushedAll queue m = Some m1 -> drain queue m = (Returned true, m1).
Proof.
  induction queue as [|queued rest IH]; intros m m1 Hall.
  - simpl in *. now injection Hall as <-.
  - apply pushedAll_cons in Hall as [Hok Hall].
    rewrite drain_success by assumption. now apply IH.
Qed.

Lemma pushedAll_step (queued : Queued) (rest : list Queued) (m : Machine World) :
  (fetch (requestOf (operation queued)) (world m)).1 <> Failure ->
  pushedAll (queued :: rest) m = pushedAll rest (pushOperation queued m).2.
Proof.
  simpl. destruct (fetch _ (world m)) as [[| |data] w]; simpl; congruence.
Qed.

(** The loop either gets every call through, or stops at a first call that
    fails. *)
Lemma drain_outcome (queue : list Queued) :
  forall m : Machine World,
    (exists m1, pushedAll queue m = Some m1 /\ drain queue m = (Returned true, m1))
    \/ (exists done failing rest m1 w,
          queue = done ++ failing :: rest
          /\ pushedAll done m = Some m1
          /\ fetch (requestOf (operation failing)) (world m1) = (Failure, w)
          /\ drain queue m
             = (Returned false,
                mkMachine (this m1) w
                  (requests m1 ++ [requestOf (operation failing)]))).
Proof.
  induction queue as [|queued rest IH]; intros m.
  - left. exists m. split; reflexivity.
  - destruct (fetch (requestOf (operation queued)) (world m)) as [response w] eqn:Hfetch.
    assert (response = Failure \/ response <> Failure) as [->|Hok]
      by (destruct response; auto; right; discriminate).
    + right. exists [], queued, rest, m, w. repeat split; auto.
      now apply drain_failure.
    + assert ((fetch (requestOf (operation queued)) (world m)).1 <> Failure) as Hok'
        by now rewrite Hfetch.
      rewrite drain_success by assumption.
      destruct (IH (pushOperation queued m).2)
        as [(m1 & Hall & Hrun)|(done & failing & tail & m1 & w' & -> & Hall & Hfail & Hrun)].
      * left. exists m1. split; [now rewrite pushedAll_step | assumption].
      * right. exists (queued :: done), failing, tail, m1, w'.
        repeat split; auto. now rewrite pushedAll_step.
Qed.

Lemma sync_after_drain (m m1 : Machine World) :
  pending (this m) <> [] -> onLine (world m) <> Some false ->
  drain (pending (this m)) m = (Returned true, m1) ->
  sync m
  = bind
      (tryCatch
         (bind fetchRemote (fun remote =>
            bind (setBookmarks remote) (fun _ =>
              bind persist (fun _ => bind stampLastSync (fun _ => notify)))))
         (fun _ => ret tt))
      (fun _ => ret true) m1.
Proof.
  intros Hqueue Honline Hdrain. unfold sync. unfold bind at 1. unfold getThis.
  destruct (pending (this m)) as [|queued queue] eqn:E; [congruence|].
  unfold bind at 1. unfold navigatorOnLine.
  destruct (onLine (world m)) as [[|]|]; try congruence;
    unfold bind at 1; now rewrite Hdrain.
Qed.

(** X1.  [sync] never throws, and it answers [true] exactly when it leaves the
    queue empty. *)
Theorem sync_answer :
  forall m : Machine World,
    NoDup (map address (pending (this m))) ->
    exists answer m',
      sync m = (Returned answer, m')
      /\ (answer = true <-> pending (this m') = []).
Proof.
  intros m Hdistinct.
  assert (pending (this m) = [] \/ pending (this m) <> []) as [Hqueue|Hnonempty]
    by (destruct (pending (this m)); [left | right]; congruence).
  { exists true, m. split; [|now rewrite Hqueue].
    unfold sync. run. now rewrite Hqueue. }
  destruct (decide (onLine (world m) = Some false)) as [Hoffline|Honline].
  { exists false, m. split.
    - unfold sync. run.
      destruct (pending (this m)); [congruence|]. now rewrite Hoffline.
    - split; [discriminate | congruence]. }
  destruct (drain_outcome (pending (this m)) m)
    as [(m1 & Hall & Hrun)|(done & failing & rest & m1 & w & Hsplit & Hall & Hfail & Hrun)].
  - destruct (pushedAll_queue (pending (this m)) m m1 [] Hall) as [Hleft _];
      [now rewrite app_nil_r | assumption |].
    rewrite (sync_after_drain m m1 Hnonempty Honline Hrun).
    destruct (fetchRemote m1) as [[remote|e] m2] eqn:Hfetch.
    + unfold bind at 1. rewrite (refresh_done m1 m2 remote Hfetch).
      eexists true, _. split; [reflexivity|]. simpl.
      pose proof (proj1 (fetchRemote_outcome m1)) as Hthis.
      rewrite Hfetch in Hthis. simpl in Hthis. rewrite Hthis, Hleft. tauto.
    + unfold bind at 1. rewrite (refresh_failed m1 m2 e Hfetch).
      eexists true, _. split; [reflexivity|]. simpl.
      pose proof (proj1 (fetchRemote_outcome m1)) as Hthis.
      rewrite Hfetch in Hthis. simpl in Hthis. rewrite Hthis, Hleft. tauto.
  - destruct (pushedAll_queue done m m1 (failing :: rest) Hall Hsplit Hdistinct)
      as [Hleft _].
    eexists false, _. split.
    + apply sync_leaves_loop; [assumption | assumption | exact Hrun].
    + simpl. rewrite Hleft. split; discriminate.
Qed.

(** X2.  When every call of the queue gets through, the requests go out in the
    order of the queue, followed by one GET, and the answer is [true]
    whatever the GET does.  When the GET fails, the client stays as the
    drained queue has left it and no time of last sync is written.  When it
    succeeds, the collection in memory and in storage holds the bookmarks
    parsed from the records of the response, each once, ordered by
    [updatedAt] descending when all their dates parse; the queue is empty,
    the time of last sync is the clock's and the listeners get the list. *)
Theorem sync_full_drain :
  forall m m1 : Machine World,
    pending (this m) <> [] ->
    NoDup (map address (pending (this m))) ->
    onLine (world m) <> Some false ->
    pushedAll (pending (this m)) m = Some m1 ->
    exists m',
      sync m = (Returned true, m')
      /\ pending (this m') = []
      /\ requests m'
         = requests m
           ++ map (fun queued => requestOf (operation queued)) (pending (this m))
           ++ [GET]
      /\ ((fetch GET (world m1)).1 = Failure -> this m' = this m1)
      /\ ((fetch GET (world m1)).1 <> Failure ->
          exists remote,
            (fetchRemote m1).1 = Returned remote
            /\ (exists data m2 parsed,
                  apiRequest GET m1 = (Returned data, m2)
                  /\ Forall2 parsedFrom (listedItems data) parsed
                  /\ parsed ≡ₚ remote)
            /\ (Forall dated remote -> newestFirst remote)
            /\ this m'
               = mkClient remote [] (fresh (this m1))
                   (mkStorage remote [] (Some (isoNow (world (fetchRemote m1).2)).1))
                   (notified (this m1) ++ [remote])).
Proof.
  intros m m1 Hnonempty Hdistinct Honline Hall.
  destruct (pushedAll_queue (pending (this m)) m m1 [] Hall) as [Hleft Hsent];
    [now rewrite app_nil_r | assumption |].
  rewrite (sync_after_drain m m1 Hnonempty Honline (drain_all _ m m1 Hall)).
  destruct (fetchRemote_outcome m1) as (Hthis & Hget & Hfailure & Hsuccess).
  destruct (fetchRemote m1) as [[remote|e] m2] eqn:Hfetch; simpl in *.
  - unfold bind at 1. rewrite (refresh_done m1 m2 remote Hfetch).
    eexists. split; [reflexivity|]. simpl. rewrite Hthis, Hleft, Hget, Hsent.
    split; [reflexivity|]. split; [now rewrite <- app_assoc|]. split.
    + intros Hfail. specialize (Hfailure Hfail). discriminate.
    + intros Hok. destruct (fetchRemote_sorted m1 m2 remote Hfetch) as [Hparsed Hsorted].
      exists remote. repeat split; auto.
  - unfold bind at 1. rewrite (refresh_failed m1 m2 e Hfetch).
    eexists. split; [reflexivity|]. simpl. rewrite Hthis, Hleft, Hget, Hsent.
    split; [reflexivity|]. split; [now rewrite <- app_assoc|]. split.
    + reflexivity.
    + intros Hok. destruct (Hsuccess Hok) as (remote' & Heq & _). discriminate.
Qed.

(** X3.  [load] never throws.  When the GET fails it writes nothing and returns
    the collection it has; when the GET gets through, the collection is the
    replay of the queue over the list received, it is stored and shown, the
    queue stays and is stored in its JSON form, and the time of last sync
    is written. *)
Theorem load_outcome :
  forall m : Machine World,
    ((fetch GET (world m)).1 = Failure ->
     exists m',
       load m = (Returned (bookmarks (this m)), m')
       /\ this m' = this m)
    /\ ((fetch GET (world m)).1 <> Failure ->
        exists remote m',
          (fetchRemote m).1 = Returned remote
          /\ load m
             = (Returned (replay (map operation (pending (this m))) remote), m')
          /\ bookmarks (this m') = replay (map operation (pending (this m))) remote
          /\ pending (this m') = pending (this m)
          /\ BOOKMARK_STORAGE_KEY (localStorage (this m')) = bookmarks (this m')
          /\ PENDING_STORAGE_KEY (localStorage (this m'))
             = map throughJSON (map operation (pending (this m)))
          /\ LAST_SYNC_KEY (localStorage (this m'))
             = Some (isoNow (world (fetchRemote m).2)).1
          /\ notified (this m') = notified (this m) ++ [bookmarks (this m')]).
Proof.
  intros m. destruct (fetchRemote_outcome m) as (Hthis & _ & Hfailure & Hsuccess).
  unfold load, applyPendingLocally, setBookmarks, persist, stampLastSync, notify.
  run. split.
  - intros Hfail. specialize (Hfailure Hfail).
    destruct (fetchRemote m) as [[remote|e] m2]; simpl in *; [discriminate|].
    eexists. split; [now rewrite Hthis | assumption].
  - intros Hok. destruct (Hsuccess Hok) as (remote & Heq & _).
    destruct (fetchRemote m) as [[remote'|e] m2]; simpl in *; [|discriminate].
    injection Heq as ->. destruct (isoNow (world m2)) as [now w]. simpl.
    rewrite Hthis. eexists remote, _. repeat split.
Qed.
End WholeSync.

(** ** The copy in [localStorage] *)

Ltac settled :=
  repeat case_match; simplify_eq/=; unfold inSync in *; simpl in *;
  try tauto; auto.

Section Storage.
Context {World : Type} `{Environment World}.

Lemma inSync_createBookmark (draft : BookmarkDraft) (m : Machine World) :
  inSync (this (createBookmark draft m).2).
Proof.
  unfold createBookmark, confirmCreate, createLocally, parseBookmark, createId,
    recordPending, notify, setBookmarks, apiRequest, upsertLocal, removePending,
    persist, rethrowWhenOnline. run.
  destruct (isoNow (world m)) as [now w1]. simpl.
  destruct (randomUUID w1) as [uuid w2]. simpl.
  destruct (isoNow w2) as [now' w3]. simpl.
  destruct (fetch _ w3) as [[| |data] w4]; simpl; settled.
Qed.

Lemma inSync_updateBookmark key updates (m : Machine World) :
  inSync (this m) -> inSync (this (updateBookmark key updates m).2).
Proof.
  intros Hm.
  unfold updateBookmark, parseBookmark, createId, recordPending, notify,
    setBookmarks, apiRequest, upsertLocal, removePending, persist,
    rethrowWhenOnline. run.
  destruct (findIndex key (bookmarks (this m))) as [idx|]; simpl; [|assumption].
  destruct (bookmarks (this m) !! idx) as [old|]; simpl; [|assumption].
  destruct (isoNow (world m)) as [now w1]. simpl.
  destruct (fetch _ w1) as [[| |data] w2]; simpl; settled.
Qed.

Lemma inSync_deleteBookmark key (m : Machine World) :
  inSync (this (deleteBookmark key m).2).
Proof.
  unfold deleteBookmark, recordPending, notify, setBookmarks, apiRequest,
    removePending, persist, rethrowWhenOnline. run.
  destruct (fetch _ (world m)) as [[| |data] w1]; simpl; settled.
Qed.

Lemma inSync_trackVisit key (m : Machine World) :
  inSync (this m) -> inSync (this (trackVisit key m).2).
Proof.
  intros Hm. unfold trackVisit. run.
  destruct (find _ (bookmarks (this m))) as [bookmark|]; simpl; [|assumption].
  destruct (isoNow (world m)) as [now w1] eqn:Hnow. simpl.
  now apply inSync_updateBookmark.
Qed.

Lemma inSync_importFrom (entries : list BookmarkDraft) :
  forall count (m : Machine World),
    inSync (this m) -> inSync (this (importFrom entries count m).2).
Proof.
  induction entries as [|entry rest IH]; intros count m Hm; simpl; [assumption|].
  destruct (truthy (trim (d_url entry))); [|now apply IH].
  unfold bind at 1. unfold getThis.
  destruct (find _ (bookmarks (this m))); [now apply IH|].
  unfold bind at 1. rewrite tryCatch_swallow. apply IH, inSync_createBookmark.
Qed.

Lemma inSync_pushOperation (queued : Queued) (m : Machine World) :
  inSync (this m) -> inSync (this (pushOperation queued m).2).
Proof.
  intros Hm.
  unfold pushOperation, apiRequest, upsertLocal, removePending, persist,
    parseBookmark, createId, setBookmarks.
  destruct (operation queued); run;
    destruct (fetch _ (world m)) as [[| |data] w]; simpl; settled.
Qed.

Lemma inSync_drain (queue : list Queued) :
  forall m : Machine World, inSync (this m) -> inSync (this (drain queue m).2).
Proof.
  induction queue as [|queued rest IH]; intros m Hm; simpl; [assumption|].
  pose proof (inSync_pushOperation queued m Hm) as Hstep. run.
  destruct (pushOperation queued m) as [[[]|e] m1]; simpl in *; auto.
Qed.

(** X4.  Whatever a public method does and however it ends, it leaves in
    [localStorage] the JSON form of the collection and of the queue it
    leaves in memory: an Update of the queue is stored without a
    [lastVisitedAt] that is [undefined]. *)
Theorem storage_mirrors_memory :
  forall m : Machine World,
    inSync (this m) ->
    (forall draft, inSync (this (createBookmark draft m).2))
    /\ (forall key updates, inSync (this (updateBookmark key updates m).2))
    /\ (forall key, inSync (this (deleteBookmark key m).2))
    /\ (forall key, inSync (this (trackVisit key m).2))
    /\ (forall entries, inSync (this (importBookmarks entries m).2))
    /\ inSync (this (sync m).2)
    /\ inSync (this (load m).2).
Proof.
  intros m Hm.
  split; [intros; apply inSync_createBookmark|].
  split; [intros; now apply inSync_updateBookmark|].
  split; [intros; apply inSync_deleteBookmark|].
  split; [intros; now apply inSync_trackVisit|].
  split; [intros; now apply inSync_importFrom|]. split.
  - unfold sync. unfold bind at 1. unfold getThis.
    destruct (pending (this m)) as [|queued queue] eqn:Hqueue; [assumption|].
    unfold bind at 1. unfold navigatorOnLine.
    pose proof (inSync_drain (queued :: queue) m Hm) as Hdrained.
    assert (Hrest : forall m1, inSync (this m1) ->
              inSync (this (bind
                (tryCatch
                   (bind fetchRemote (fun remote =>
                      bind (setBookmarks remote) (fun _ =>
                        bind persist (fun _ => bind stampLastSync (fun _ => notify)))))
                   (fun _ => ret tt))
                (fun _ => ret true) m1).2)).
    { intros m1 Hm1. pose proof (proj1 (fetchRemote_outcome m1)) as Hthis.
      unfold bind at 1.
      destruct (fetchRemote m1) as [[remote|e] m2] eqn:Hfetch; simpl in Hthis.
      - rewrite (refresh_done m1 m2 remote Hfetch). simpl. split; reflexivity.
      - rewrite (refresh_failed m1 m2 e Hfetch). simpl. now rewrite Hthis. }
    destruct (onLine (world m)) as [[|]|]; try exact Hm;
      unfold bind at 1;
      destruct (drain (queued :: queue) m) as [[[]|e] m1]; simpl in Hdrained;
        first [exact Hdrained | apply Hrest; exact Hdrained].
  - pose proof (proj1 (fetchRemote_outcome m)) as Hthis.
    unfold load, applyPendingLocally, setBookmarks, persist, stampLastSync, notify.
    run. destruct (fetchRemote m) as [[remote|e] m2]; simpl in *.
    + destruct (isoNow (world m2)). simpl. split; reflexivity.
    + now rewrite Hthis.
Qed.
End Storage.


(** ** The queue after construction and after every method *)

Lemma imap_operations (log : list PendingOperation) (start : nat) :
  map operation (imap (fun index => mkQueued (start + index)) log) = log.
Proof.
  revert start. induction log as [|op log IH]; intros start; simpl; [reflexivity|].
  f_equal. rewrite <- (IH (S start)) at 2. f_equal.
  apply imap_ext. intros index x _. simpl. f_equal. lia.
Qed.

(** X5.  The constructor reads the stored queue back in its order, as distinct
    objects; and no public method, however it ends, leaves the same object
    twice in the queue. *)
Theorem queue_objects_distinct :
  forall (World : Type) (E : Environment World),
    (forall stored,
        wellAllocated (construct stored)
        /\ map operation (pending (construct stored)) = PENDING_STORAGE_KEY stored)
    /\ forall m : Machine World,
         wellAllocated (this m) ->
         (forall draft, NoDup (map address (pending (this (createBookmark draft m).2))))
         /\ (forall key updates,
               NoDup (map address (pending (this (updateBookmark key updates m).2))))
         /\ (forall key, NoDup (map address (pending (this (deleteBookmark key m).2))))
         /\ (forall key, NoDup (map address (pending (this (trackVisit key m).2))))
         /\ (forall entries,
               NoDup (map address (pending (this (importBookmarks entries m).2))))
         /\ NoDup (map address (pending (this (sync m).2)))
         /\ NoDup (map address (pending (this (load m).2))).
Proof.
  intros World E. split.
  - intros stored. split; [apply wellAllocated_construct|].
    unfold construct. simpl. apply (imap_operations _ 0).
  - intros m Hm.
    destruct (wellAllocated_methods (World := World))
      as (Hcreate & Hupdate & Hdelete & Hvisit & Himport & Hsync & Hload).
    split; [intros draft; apply (Hcreate draft m Hm)|].
    split; [intros key updates; apply (Hupdate key updates m Hm)|].
    split; [intros key; apply (Hdelete key m Hm)|].
    split; [intros key; apply (Hvisit key m Hm)|].
    split; [intros entries; apply (Himport entries m Hm)|].
    split; [apply (Hsync m Hm) | apply (Hload m Hm)].
Qed.

(** ** Tags *)

Lemma trimStart_twice (s : string) : trimStart (trimStart s) = trimStart s.
Proof.
  induction s as [|c rest IH]; simpl; [reflexivity|].
  destruct (isWhiteSpace c) eqn:Hc; [assumption|]. simpl. now rewrite Hc.
Qed.

Lemma trimEnd_twice (s : string) : trimEnd (trimEnd s) = trimEnd s.
Proof.
  induction s as [|c rest IH]; simpl; [reflexivity|].
  destruct (trimEnd rest) as [|d kept] eqn:Hrest.
  - destruct (isWhiteSpace c) eqn:Hc; simpl; [reflexivity|]. now rewrite Hc.
  - simpl in *. now rewrite IH.
Qed.

Lemma trimStart_trimEnd (s : string) :
  trimStart s = s -> trimStart (trimEnd s) = trimEnd s.
Proof.
  destruct s as [|c rest]; simpl; [reflexivity|].
  destruct (isWhiteSpace c) eqn:Hc.
  - intros Hfix. exfalso.
    assert (Hlen : forall t, String.length (trimStart t) <= String.length t).
    { induction t as [|d t IHt]; simpl; [lia|]. destruct (isWhiteSpace d); simpl; lia. }
    specialize (Hlen rest). rewrite Hfix in Hlen. simpl in Hlen. lia.
  - intros _. destruct (trimEnd rest); simpl; now rewrite Hc.
Qed.

(** Trimming a trimmed string changes nothing. *)
Lemma trim_twice (s : string) : trim (trim s) = trim s.
Proof.
  unfold trim. rewrite (trimStart_trimEnd (trimStart s)) by apply trimStart_twice.
  apply trimEnd_twice.
Qed.

Lemma indexOf_app_in (x : string) (prefix rest : list string) :
  x ∈ prefix ->
  exists i, indexOf x (prefix ++ rest) = Some i /\ i < length prefix.
Proof.
  induction prefix as [|y prefix IH]; simpl; intros Hin; [inversion Hin|].
  destruct (String.eqb y x) eqn:E; [exists 0; split; [reflexivity|lia]|].
  apply eqb_string_false in E.
  apply elem_of_cons in Hin as [->|Hin]; [congruence|].
  destruct (IH Hin) as (i & -> & Hlt). exists (S i). split; [reflexivity|lia].
Qed.

Lemma indexOf_app_out (x : string) (prefix rest : list string) :
  x ∉ prefix -> indexOf x (prefix ++ x :: rest) = Some (length prefix).
Proof.
  induction prefix as [|y prefix IH]; simpl; intros Hout.
  - now rewrite String.eqb_refl.
  - apply not_elem_of_cons in Hout as [Hne Hout].
    assert (String.eqb y x = false) as -> by (apply eqb_string_false; congruence).
    now rewrite IH.
Qed.

Lemma occurrencesFrom_cons (prefix rest : list string) (tag : string) :
  occurrencesFrom (prefix ++ tag :: rest) (length prefix) (tag :: rest)
  = (if decide (tag ∈ prefix) then [] else [tag])
    ++ occurrencesFrom ((prefix ++ [tag]) ++ rest) (length (prefix ++ [tag])) rest.
Proof.
  unfold occurrencesFrom. rewrite imap_cons. cbn [omap list_omap].
  rewrite Nat.add_0_r, <- app_assoc. cbn [app].
  assert (imap ((fun idx t => ((length prefix + idx)%nat, t)) ∘ S) rest
          = imap (fun idx t => ((length (prefix ++ [tag]) + idx)%nat, t)) rest) as ->.
  { apply imap_ext. intros idx t _. simpl. rewrite length_app. simpl. f_equal. lia. }
  destruct (decide (tag ∈ prefix)) as [Hin|Hout].
  - destruct (indexOf_app_in tag prefix (tag :: rest) Hin) as (i & -> & Hlt).
    assert (Nat.eqb i (length prefix) = false) as -> by (apply Nat.eqb_neq; lia).
    reflexivity.
  - rewrite (indexOf_app_out tag prefix rest Hout), Nat.eqb_refl. reflexivity.
Qed.

Lemma occurrencesFrom_facts (rest : list string) :
  forall prefix,
    NoDup (occurrencesFrom (prefix ++ rest) (length prefix) rest)
    /\ (forall x, x ∈ occurrencesFrom (prefix ++ rest) (length prefix) rest
                  <-> x ∈ rest /\ x ∉ prefix)
    /\ (NoDup (prefix ++ rest) ->
        occurrencesFrom (prefix ++ rest) (length prefix) rest = rest).
Proof.
  induction rest as [|tag rest IH]; intros prefix.
  - split; [constructor|]. split; [|reflexivity].
    intros x. split; [intros Hin; inversion Hin | intros [Hin _]; inversion Hin].
  - rewrite occurrencesFrom_cons.
    destruct (IH (prefix ++ [tag])) as (Hdistinct & Hmember & Hsame).
    split; [|split].
    + destruct (decide (tag ∈ prefix)); simpl; [assumption|].
      apply NoDup_cons. split; [|assumption].
      rewrite Hmember. intros [_ Hout]. apply Hout, elem_of_app. right.
      apply list_elem_of_singleton. reflexivity.
    + intros x. rewrite elem_of_app, Hmember, elem_of_cons, not_elem_of_app.
      rewrite list_elem_of_singleton.
      destruct (decide (tag ∈ prefix)) as [Hin|Hout].
      * split.
        -- intros [Hempty|(Hrest & Hpre & Hne)]; [inversion Hempty | tauto].
        -- intros [[->|Hrest] Hpre]; [contradiction|].
           right. repeat split; auto. intros ->. contradiction.
      * rewrite list_elem_of_singleton. split.
        -- intros [->|(Hrest & Hpre & Hne)]; tauto.
        -- intros [[->|Hrest] Hpre]; [now left|].
           destruct (decide (x = tag)) as [->|Hne]; [now left | right; tauto].
    + intros Hall. rewrite <- app_assoc in Hsame. cbn [app] in Hsame.
      rewrite <- app_assoc. cbn [app]. rewrite (Hsame Hall).
      apply NoDup_app in Hall as (_ & Hcross & _).
      rewrite decide_False; [reflexivity|].
      intros Hin. apply (Hcross tag Hin). now left.
Qed.

Lemma firstOccurrences_facts (arr : list string) :
  NoDup (firstOccurrences arr)
  /\ (forall x, x ∈ firstOccurrences arr <-> x ∈ arr)
  /\ (NoDup arr -> firstOccurrences arr = arr).
Proof.
  destruct (occurrencesFrom_facts arr []) as (Hdistinct & Hmember & Hsame).
  change (occurrencesFrom ([] ++ arr) (length (@nil string)) arr)
    with (firstOccurrences arr) in *.
  split; [assumption|]. split; [|assumption].
  intros x. rewrite Hmember. split; [tauto|]. intros Hin. split; [assumption|].
  intros Hnil. inversion Hnil.
Qed.

Lemma map_fixed {A : Type} (f : A -> A) (l : list A) :
  Forall (fun x => f x = x) l -> map f l = l.
Proof. induction 1 as [|x l Hx _ IH]; simpl; congruence. Qed.

Lemma filter_all {A : Type} (P : A -> Prop) `{forall x, Decision (P x)} (l : list A) :
  Forall P l -> filter P l = l.
Proof.
  induction 1 as [|x l Hx _ IH]; [reflexivity|].
  rewrite filter_cons_True by assumption. now rewrite IH.
Qed.

Lemma insertSorted_ordered {A : Type} (compare : A -> A -> Z) (x : A) sorted :
  (forall a b, (0 < compare a b)%Z -> (compare b a <= 0)%Z) ->
  Sorted (fun a b => (compare a b <= 0)%Z) sorted ->
  Sorted (fun a b => (compare a b <= 0)%Z) (insertSorted compare x sorted).
Proof.
  intros Hturn. induction sorted as [|y rest IH]; simpl; intros Hsorted.
  - repeat constructor.
  - destruct (compare x y <=? 0)%Z eqn:Hcompare.
    + constructor; [assumption|]. constructor. lia.
    + inversion Hsorted as [|? ? Hrest Hhead]; subst.
      constructor; [now apply IH|].
      assert (compare y x <= 0)%Z as Hyx by (apply Hturn; lia).
      destruct rest as [|z rest]; simpl; [now constructor|].
      destruct (compare x z <=? 0)%Z; constructor; auto. now inversion Hhead.
Qed.

Lemma sort_ordered {A : Type} (compare : A -> A -> Z) (arr : list A) :
  (forall a b, (0 < compare a b)%Z -> (compare b a <= 0)%Z) ->
  Sorted (fun a b => (compare a b <= 0)%Z) (sort compare arr).
Proof.
  intros Hturn. induction arr as [|x arr IH]; simpl; [constructor|].
  now apply insertSorted_ordered.
Qed.

(** Sorting a list that is in order changes nothing. *)
Lemma sort_of_ordered {A : Type} (compare : A -> A -> Z) (arr : list A) :
  Sorted (fun a b => (compare a b <= 0)%Z) arr -> sort compare arr = arr.
Proof.
  induction 1 as [|x arr Hsorted IH Hhead]; simpl; [reflexivity|].
  rewrite IH. destruct Hhead as [|y rest Hxy]; simpl; [reflexivity|].
  assert ((compare x y <=? 0)%Z = true) as -> by lia. reflexivity.
Qed.

Section Tags.
Context {World : Type} `{Environment World}.

Lemma normalizeTags_members (tagList : list string) :
  NoDup (normalizeTags tagList)
  /\ forall tag,
       tag ∈ normalizeTags tagList
       <-> tag <> "" /\ exists raw, raw ∈ tagList /\ trim raw = tag.
Proof.
  revert tagList.
  intros tagList. unfold normalizeTags.
  destruct (firstOccurrences_facts
              (filter (fun tag => truthy tag = true) (map trim tagList)))
    as (Hdistinct & Hmember & _).
  split.
  - rewrite sort_permutation. exact Hdistinct.
  - intros tag. rewrite sort_permutation, Hmember, list_elem_of_filter.
    change (map trim tagList) with (trim <$> tagList).
    rewrite list_elem_of_fmap.
    assert (truthy tag = true <-> tag <> "") as ->.
    { rewrite <- truthy_false. destruct (truthy tag); split; congruence. }
    split; intros [Hfull (raw & Hraw & Hin)]; (split; [assumption|]);
      exists raw; split; auto.
Qed.

(** X6.  The tags that [normalizeTags] returns are the trimmed tags of the
    input that are not empty, each of them once. *)
Theorem normalizeTags_clean :
  forall tagList : list string,
    NoDup (normalizeTags tagList)
    /\ forall tag,
         tag ∈ normalizeTags tagList
         <-> tag <> "" /\ exists raw, raw ∈ tagList /\ trim raw = tag.
Proof. exact normalizeTags_members. Qed.

Lemma normalizeTags_twice (tagList : list string) :
  comparesBothWays ->
  normalizeTags (normalizeTags tagList) = normalizeTags tagList.
Proof.
  intros Hturn.
  assert (Hordered : inLocaleOrder (normalizeTags tagList))
    by (apply sort_ordered, Hturn).
  destruct (normalizeTags_members tagList) as [Hdistinct Hmember].
  set (clean := normalizeTags tagList) in *.
  unfold normalizeTags at 1.
  rewrite (map_fixed trim clean), (filter_all _ clean).
  - destruct (firstOccurrences_facts clean) as (_ & _ & Hsame).
    rewrite (Hsame Hdistinct). now apply sort_of_ordered.
  - apply Forall_forall. intros tag Htag. apply Hmember in Htag as [Hfull _].
    destruct tag; [congruence | reflexivity].
  - apply Forall_forall. intros tag Htag.
    apply Hmember in Htag as (_ & raw & _ & <-). apply trim_twice.
Qed.

(** X7.  With a [localeCompare] whose sign turns with its arguments, the tags
    that [normalizeTags] returns are in its order, and normalising them
    again changes nothing. *)
Theorem normalizeTags_settled :
  forall tagList : list string,
    comparesBothWays ->
    inLocaleOrder (normalizeTags tagList)
    /\ normalizeTags (normalizeTags tagList) = normalizeTags tagList.
Proof.
  intros tagList Hturn. split.
  - apply sort_ordered, Hturn.
  - now apply normalizeTags_twice.
Qed.

(** X8.  With such a [localeCompare], a bookmark that [parseBookmark] has built
    parses to itself, as the echo of a service that stores it unchanged
    does: only the clock is read, no id is drawn, nothing is sent and the
    client is not written. *)
Theorem parseBookmark_echo :
  forall (raw : PartialBookmark) (m m1 m2 : Machine World) (b : Bookmark),
    comparesBothWays ->
    parseBookmark raw m = (Returned b, m1) ->
    parseBookmark (asPartial b) m2
    = (Returned b, mkMachine (this m2) (isoNow (world m2)).2 (requests m2)).
Proof.
  intros raw m m1 m2 b Hturn. unfold parseBookmark, createId. run.
  destruct (isoNow (world m)) as [now w1]. simpl.
  destruct (isoNow (world m2)) as [now2 w2]. simpl.
  assert (Hfield : forall fallback (field : option string),
            trim (default fallback (option_map trim field))
            = default (trim fallback) (option_map trim field))
    by (intros fallback [x|]; simpl; [apply trim_twice | reflexivity]).
  destruct (p_id raw) as [given|]; simpl;
    [|destruct (randomUUID w1) as [made w3]; simpl];
    intros Hbuilt; injection Hbuilt as <- _; simpl;
    rewrite !Hfield, (normalizeTags_twice _ Hturn); reflexivity.
Qed.
End Tags.

(** ** Writing one bookmark *)

Lemma spread_asPartial (old new : Bookmark) : spread old (asPartial new) = new.
Proof. now destruct new. Qed.

Lemma filter_other_ids_middle (key : string) (before after : list Bookmark) (x : Bookmark) :
  id x = key ->
  filter (fun b => id b <> key) (before ++ x :: after)
  = filter (fun b => id b <> key) before ++ filter (fun b => id b <> key) after.
Proof.
  intros Hid. rewrite filter_app, filter_cons_False; [reflexivity|]. tauto.
Qed.

Section Upsert.
Context {World : Type} `{Environment World}.

(** X9.  [upsertLocal] returns, and afterwards the bookmark is the first entry
    with its id.  The entries with other ids stay as they were and in their
    order; an entry with the id is replaced in place, otherwise the bookmark
    goes to the end.  Distinct ids stay distinct.  The queue and
    [localStorage] are not written. *)
Theorem upsertLocal_outcome :
  forall (m : Machine World) (b : Bookmark),
    exists m',
      upsertLocal b m = (Returned tt, m')
      /\ (exists idx,
            findIndex (id b) (bookmarks (this m')) = Some idx
            /\ bookmarks (this m') !! idx = Some b)
      /\ filter (fun x => id x <> id b) (bookmarks (this m'))
         = filter (fun x => id x <> id b) (bookmarks (this m))
      /\ (id b ∈ map id (bookmarks (this m)) ->
          length (bookmarks (this m')) = length (bookmarks (this m)))
      /\ (id b ∉ map id (bookmarks (this m)) ->
          bookmarks (this m') = bookmarks (this m) ++ [b])
      /\ (NoDup (map id (bookmarks (this m))) ->
          NoDup (map id (bookmarks (this m'))))
      /\ pending (this m') = pending (this m)
      /\ localStorage (this m') = localStorage (this m)
      /\ world m' = world m /\ requests m' = requests m.
Proof.
  intros m b. unfold upsertLocal, setBookmarks. run.
  destruct (findIndex (id b) (bookmarks (this m))) as [idx|] eqn:Hfind; simpl.
  - destruct (findIndex_split _ _ _ Hfind)
      as (before & old & after & Hsplit & Hlen & Hid & Hnot).
    eexists. split; [reflexivity|]. simpl. rewrite Hsplit, <- Hlen, insert_middle.
    split; [|split; [|split; [|split; [|split]]]].
    + exists (length before). split; [now apply findIndex_first | apply lookup_middle].
    + now rewrite !filter_other_ids_middle.
    + intros _. rewrite !length_app. reflexivity.
    + intros Hout. exfalso. apply Hout. rewrite map_app, elem_of_app. right.
      simpl. rewrite Hid. now left.
    + rewrite !map_app. simpl. now rewrite Hid.
    + repeat split.
  - apply findIndex_absent in Hfind.
    eexists. split; [reflexivity|]. simpl.
    split; [|split; [|split; [|split; [|split]]]].
    + exists (length (bookmarks (this m))). split.
      * now apply findIndex_first.
      * rewrite lookup_app_r, Nat.sub_diag by lia. reflexivity.
    + rewrite filter_app, filter_cons_False by tauto. now rewrite app_nil_r.
    + intros Hin. contradiction.
    + reflexivity.
    + intros Hdistinct. rewrite map_app. apply NoDup_app. repeat split; auto.
      * intros x Hx Hb. apply list_elem_of_singleton in Hb as ->. contradiction.
      * apply NoDup_singleton.
    + repeat split.
Qed.
End Upsert.

(** ** Mutations while the service is out of reach *)

Lemma filter_is_delete (key : string) (items : list Bookmark) :
  NoDup (map id items) ->
  filter (fun bookmark => String.eqb (id bookmark) key = false) items
  = applyOperation items (OpDelete key).
Proof.
  intros Hdistinct. destruct (decide (key ∈ map id items)) as [Hin|Hout].
  - destruct (first_with_id key items Hin) as (before & old & after & -> & Hid & Hnot).
    rewrite applyOperation_delete_present by assumption.
    rewrite map_app in Hdistinct. simpl in Hdistinct.
    apply NoDup_app in Hdistinct as (_ & _ & Hafter).
    apply NoDup_cons in Hafter as [Hafter _]. rewrite Hid in Hafter.
    rewrite filter_app, filter_cons_False.
    + now rewrite !filter_id_absent.
    + apply eqb_string_true in Hid. rewrite Hid. discriminate.
  - rewrite applyOperation_delete_absent by assumption. now apply filter_id_absent.
Qed.

Lemma find_first (key : string) (before after : list Bookmark) (old : Bookmark) :
  id old = key -> key ∉ map id before ->
  find (fun item => String.eqb (id item) key) (before ++ old :: after) = Some old.
Proof.
  intros Hid. induction before as [|b before IH]; simpl; intros Hnot.
  - apply eqb_string_true in Hid. now rewrite Hid.
  - apply not_elem_of_cons in Hnot as [Hne Hnot].
    assert (String.eqb (id b) key = false) as -> by (apply eqb_string_false; congruence).
    auto.
Qed.

Section Unreachable.
Context {World : Type} `{Environment World}.

Lemma create_unreachable (draft : BookmarkDraft) (m : Machine World) :
  serviceUnreachable ->
  exists b,
    id b = (randomUUID (isoNow (world m)).2).1
    /\ url b = trim (d_url draft)
    /\ bookmarks (this (createBookmark draft m).2) = bookmarks (this m) ++ [b]
    /\ pending (this (createBookmark draft m).2)
       = pending (this m) ++ [mkQueued (fresh (this m)) (OpCreate b)].
Proof.
  intros Hdown.
  unfold createBookmark, confirmCreate, createLocally, parseBookmark, createId,
    recordPending, notify, setBookmarks, apiRequest, upsertLocal, removePending,
    persist, rethrowWhenOnline. run.
  destruct (isoNow (world m)) as [now w1]. simpl.
  destruct (randomUUID w1) as [uuid w2]. simpl.
  destruct (isoNow w2) as [now' w3]. simpl.
  match goal with |- context [fetch ?request w3] =>
    pose proof (Hdown request w3) as Hfail; destruct (fetch request w3) as [response w4]
  end.
  simpl in Hfail. subst response. simpl.
  destruct (onLine w4) as [[|]|]; simpl;
    match goal with |- context [_ ++ [?b] = _] => exists b end; repeat split.
Qed.

Lemma update_unreachable key updates (m : Machine World)
      (before after : list Bookmark) (old : Bookmark) :
  serviceUnreachable ->
  bookmarks (this m) = before ++ old :: after ->
  id old = key -> key ∉ map id before ->
  exists merged,
    id merged = default key (p_id updates)
    /\ visitCount merged = default (visitCount old) (p_visitCount updates)
    /\ lastVisitedAt merged = default (lastVisitedAt old) (p_lastVisitedAt updates)
    /\ updatedAt merged = (isoNow (world m)).1
    /\ bookmarks (this (updateBookmark key updates m).2) = before ++ merged :: after
    /\ pending (this (updateBookmark key updates m).2)
       = pending (this m) ++ [mkQueued (fresh (this m)) (OpUpdate key (asPartial merged))]
    /\ requests (updateBookmark key updates m).2
       = requests m ++ [PUT key (asPartial merged)].
Proof.
  intros Hdown Hsplit Hid Hnot.
  unfold updateBookmark, parseBookmark, createId, recordPending, notify,
    setBookmarks, apiRequest, upsertLocal, removePending, persist,
    rethrowWhenOnline. run.
  rewrite Hsplit, (findIndex_first key before after old Hid Hnot), lookup_middle.
  simpl. destruct (isoNow (world m)) as [now w1]. simpl.
  match goal with |- context [fetch ?request w1] =>
    pose proof (Hdown request w1) as Hfail; destruct (fetch request w1) as [response w2]
  end.
  simpl in Hfail. subst response. simpl. rewrite insert_middle.
  destruct (onLine w2) as [[|]|]; simpl;
    match goal with |- context [_ ++ ?b :: after = _] => exists b end;
    (split; [simpl; now rewrite Hid|]); repeat split.
Qed.

Lemma delete_unreachable key (m : Machine World) :
  serviceUnreachable ->
  bookmarks (this (deleteBookmark key m).2)
  = filter (fun bookmark => String.eqb (id bookmark) key = false) (bookmarks (this m))
  /\ pending (this (deleteBookmark key m).2)
     = pending (this m) ++ [mkQueued (fresh (this m)) (OpDelete key)].
Proof.
  intros Hdown.
  unfold deleteBookmark, recordPending, notify, setBookmarks, apiRequest,
    removePending, persist, rethrowWhenOnline. run.
  pose proof (Hdown (DELETE key) (world m)) as Hfail.
  destruct (fetch (DELETE key) (world m)) as [response w1].
  simpl in Hfail. subst response. simpl.
  destruct (onLine w1) as [[|]|]; simpl; split; reflexivity.
Qed.

Lemma projects_step (mirror : list Bookmark) (c c' : BookmarkClient)
      (op : PendingOperation) (where_ : nat) :
  projects mirror c -> keepsId op ->
  bookmarks c' = applyOperation (bookmarks c) op ->
  pending c' = pending c ++ [mkQueued where_ op] ->
  projects mirror c'.
Proof.
  intros [Hdistinct Hreplay] Hkeeps Hitems Hqueue. split.
  - rewrite Hitems. now apply applyOperation_distinct.
  - rewrite Hitems, Hqueue, map_app, Hreplay. simpl. now rewrite replay_snoc.
Qed.

(** X10.  While no request gets through, the collection stays the replay of the
    queue over the mirror, with distinct ids: after [deleteBookmark], after
    [updateBookmark] and [trackVisit] when the fields carry no id other than
    the target's, and after [createBookmark] when the id drawn is new. *)
Theorem unreachable_keeps_projection :
  forall (m : Machine World) (mirror : list Bookmark),
    serviceUnreachable ->
    projects mirror (this m) ->
    (forall draft,
        (randomUUID (isoNow (world m)).2).1 ∉ map id (bookmarks (this m)) ->
        projects mirror (this (createBookmark draft m).2))
    /\ (forall key updates,
          p_id updates = None \/ p_id updates = Some key ->
          projects mirror (this (updateBookmark key updates m).2))
    /\ (forall key, projects mirror (this (deleteBookmark key m).2))
    /\ (forall key, projects mirror (this (trackVisit key m).2)).
Proof.
  intros m mirror Hdown Hm.
  assert (Hupdate : forall key updates (m0 : Machine World),
            this m0 = this m ->
            p_id updates = None \/ p_id updates = Some key ->
            projects mirror (this (updateBookmark key updates m0).2)).
  { intros key updates m0 Hsame Hkeeps.
    destruct (decide (key ∈ map id (bookmarks (this m0)))) as [Hin|Hout].
    - destruct (first_with_id key _ Hin) as (before & old & after & Hsplit & Hid & Hnot).
      destruct (update_unreachable key updates m0 before after old Hdown Hsplit Hid Hnot)
        as (merged & Hmerged & _ & _ & _ & Hitems & Hqueue & _).
      apply (projects_step mirror (this m0) _ (OpUpdate key (asPartial merged))
               (fresh (this m0))).
      + now rewrite Hsame.
      + simpl. right. rewrite Hmerged. now destruct Hkeeps as [->| ->].
      + rewrite Hitems, Hsplit, applyOperation_update_present by assumption.
        now rewrite spread_asPartial.
      + exact Hqueue.
    - unfold updateBookmark. run. apply findIndex_absent in Hout.
      rewrite Hout. simpl. now rewrite Hsame. }
  split; [|split; [|split]].
  - intros draft Hnew.
    destruct (create_unreachable draft m Hdown) as (b & Hid & _ & Hitems & Hqueue).
    apply (projects_step mirror (this m) _ (OpCreate b) (fresh (this m)));
      [assumption | exact I | | exact Hqueue].
    rewrite Hitems, applyOperation_create_absent; [reflexivity|]. now rewrite Hid.
  - intros key updates Hkeeps. now apply Hupdate.
  - intros key. destruct (delete_unreachable key m Hdown) as [Hitems Hqueue].
    apply (projects_step mirror (this m) _ (OpDelete key) (fresh (this m)));
      [assumption | exact I | | exact Hqueue].
    rewrite Hitems. apply filter_is_delete, Hm.
  - intros key. unfold trackVisit. run.
    destruct (find _ (bookmarks (this m))) as [bookmark|]; simpl; [|assumption].
    destruct (isoNow (world m)) as [now w1] eqn:Hnow. simpl.
    apply Hupdate; [reflexivity | now left].
Qed.
End Unreachable.

(** ** Deleting, visiting, importing *)

Lemma filter_removes_id (key : string) (items : list Bookmark) :
  key ∉ map id (filter (fun bookmark => String.eqb (id bookmark) key = false) items).
Proof.
  intros Hin. apply list_elem_of_In, in_map_iff in Hin as (b & Hid & Hb).
  apply list_elem_of_In, list_elem_of_filter in Hb as [Hne _].
  apply eqb_string_false in Hne. congruence.
Qed.

Section Mutations.
Context {World : Type} `{Environment World}.

(** X11.  After [deleteBookmark] no entry of the collection has the id, and the
    other entries are as before; one DELETE is sent.  When it gets through,
    the call returns the collection and no Delete of the id is left in the
    queue, an older one neither.  When it fails, the Delete is at the end
    of the queue, and the call throws exactly when the browser reports
    itself online. *)
Theorem deleteBookmark_outcome :
  forall (m : Machine World) (key : string),
    (key ∉ map id (bookmarks (this (deleteBookmark key m).2)))
    /\ bookmarks (this (deleteBookmark key m).2)
       = filter (fun bookmark => String.eqb (id bookmark) key = false)
           (bookmarks (this m))
    /\ requests (deleteBookmark key m).2 = requests m ++ [DELETE key]
    /\ ((fetch (DELETE key) (world m)).1 <> Failure ->
        (deleteBookmark key m).1
        = Returned (bookmarks (this (deleteBookmark key m).2))
        /\ pending (this (deleteBookmark key m).2)
           = filter (fun queued => isDeleteOf key queued = false) (pending (this m)))
    /\ ((fetch (DELETE key) (world m)).1 = Failure ->
        pending (this (deleteBookmark key m).2)
        = pending (this m) ++ [mkQueued (fresh (this m)) (OpDelete key)]
        /\ ((deleteBookmark key m).1 = Thrown RequestFailed
            <-> onLine (world (deleteBookmark key m).2) = Some true)).
Proof.
  intros m key.
  assert (Hitems : bookmarks (this (deleteBookmark key m).2)
                   = filter (fun bookmark => String.eqb (id bookmark) key = false)
                       (bookmarks (this m))).
  { unfold deleteBookmark, recordPending, notify, setBookmarks, apiRequest,
      removePending, persist, rethrowWhenOnline. run.
    destruct (fetch (DELETE key) (world m)) as [[| |data] w]; simpl;
      try destruct (onLine w) as [[|]|]; reflexivity. }
  split; [rewrite Hitems; apply filter_removes_id|]. split; [exact Hitems|].
  clear Hitems.
  unfold deleteBookmark, recordPending, notify, setBookmarks, apiRequest,
    removePending, persist, rethrowWhenOnline. run.
  destruct (fetch (DELETE key) (world m)) as [[| |data] w]; simpl.
  - destruct (onLine w) as [[|]|] eqn:Hstatus; simpl;
      (split; [reflexivity|]); (split; [intros Hok; congruence|]); intros _;
      (split; [reflexivity|]); rewrite Hstatus; split; intros Heq; congruence.
  - split; [reflexivity|]. split; [|intros Hfail; congruence]. intros _.
    split; [reflexivity|].
    rewrite filter_app, filter_cons_False, app_nil_r;
      [reflexivity | unfold isDeleteOf; simpl; rewrite String.eqb_refl; discriminate].
  - split; [reflexivity|]. split; [|intros Hfail; congruence]. intros _.
    split; [reflexivity|].
    rewrite filter_app, filter_cons_False, app_nil_r;
      [reflexivity | unfold isDeleteOf; simpl; rewrite String.eqb_refl; discriminate].
Qed.

Lemma trackVisit_found (m : Machine World) key (before after : list Bookmark) old :
  bookmarks (this m) = before ++ old :: after ->
  id old = key -> key ∉ map id before ->
  trackVisit key m
  = updateBookmark key
      {| p_id := None; p_title := None; p_url := None; p_description := None;
         p_notes := None; p_tags := None; p_folder := None;
         p_createdAt := None; p_updatedAt := None;
         p_visitCount := Some (visitCount old + 1)%Z;
         p_lastVisitedAt := Some (Some (isoNow (world m)).1) |}
      (mkMachine (this m) (isoNow (world m)).2 (requests m)).
Proof.
  intros Hsplit Hid Hnot. unfold trackVisit. run.
  rewrite Hsplit, (find_first key before after old Hid Hnot).
  destruct (isoNow (world m)) as [now w1]. reflexivity.
Qed.

Lemma update_sends key updates (m : Machine World)
      (before after : list Bookmark) (old : Bookmark) :
  bookmarks (this m) = before ++ old :: after ->
  id old = key -> key ∉ map id before ->
  exists fields,
    requests (updateBookmark key updates m).2 = requests m ++ [PUT key fields]
    /\ p_id fields = Some (default key (p_id updates))
    /\ p_url fields = Some (default (url old) (p_url updates))
    /\ p_title fields = Some (default (title old) (p_title updates))
    /\ p_visitCount fields = Some (default (visitCount old) (p_visitCount updates))
    /\ p_lastVisitedAt fields
       = Some (default (lastVisitedAt old) (p_lastVisitedAt updates))
    /\ p_updatedAt fields = Some (isoNow (world m)).1
    /\ (updateBookmark key updates m).1 <> Thrown BookmarkNotFound.
Proof.
  intros Hsplit Hid Hnot.
  unfold updateBookmark, recordPending, notify, setBookmarks, apiRequest,
    upsertLocal, removePending, persist, rethrowWhenOnline. run.
  rewrite Hsplit, (findIndex_first key before after old Hid Hnot), lookup_middle.
  simpl. destruct (isoNow (world m)) as [now w1]. simpl.
  match goal with |- context [fetch (PUT key ?fields) w1] => exists fields end.
  split; [|split; [simpl; now rewrite Hid|]];
    [|split; [reflexivity|]; split; [reflexivity|]; split; [reflexivity|];
      split; [reflexivity|]; split; [reflexivity|]];
    (destruct (fetch _ w1) as [[| |data] w2]; simpl;
     [ destruct (onLine w2) as [[|]|]; simpl; congruence
     | congruence
     | match goal with |- context [parseBookmark ?raw ?mm] =>
         destruct (parseBookmark_quiet raw mm) as (saved & m' & Hparse & _ & Hsent);
         rewrite Hparse
       end;
       simpl; destruct (findIndex (id saved) (bookmarks (this m'))); simpl;
       first [exact Hsent | congruence] ]).
Qed.

(** X12.  [trackVisit] of a bookmark of the collection sends one PUT for it, with
    a visit count one above the bookmark's, the time of the visit, and the
    bookmark's id, url and title; it does not throw 'Bookmark not found'.
    While no request gets through, the entry stays in its place with that
    count and that time. *)
Theorem trackVisit_counts :
  forall (m : Machine World) (key : string) (before after : list Bookmark)
         (old : Bookmark),
    bookmarks (this m) = before ++ old :: after ->
    id old = key -> key ∉ map id before ->
    (exists fields,
        requests (trackVisit key m).2 = requests m ++ [PUT key fields]
        /\ p_visitCount fields = Some (visitCount old + 1)%Z
        /\ p_lastVisitedAt fields = Some (Some (isoNow (world m)).1)
        /\ p_id fields = Some key
        /\ p_url fields = Some (url old)
        /\ p_title fields = Some (title old))
    /\ (trackVisit key m).1 <> Thrown BookmarkNotFound
    /\ (serviceUnreachable ->
        exists visited,
          bookmarks (this (trackVisit key m).2) = before ++ visited :: after
          /\ id visited = key
          /\ visitCount visited = (visitCount old + 1)%Z
          /\ lastVisitedAt visited = Some (isoNow (world m)).1).
Proof.
  intros m key before after old Hsplit Hid Hnot.
  rewrite (trackVisit_found m key before after old Hsplit Hid Hnot).
  set (m0 := mkMachine (this m) (isoNow (world m)).2 (requests m)).
  destruct (update_sends key
              {| p_id := None; p_title := None; p_url := None;
                 p_description := None; p_notes := None; p_tags := None;
                 p_folder := None; p_createdAt := None; p_updatedAt := None;
                 p_visitCount := Some (visitCount old + 1)%Z;
                 p_lastVisitedAt := Some (Some (isoNow (world m)).1) |}
              m0 before after old Hsplit Hid Hnot)
    as (fields & Hsent & Hi & Hu & Ht & Hv & Hl & _ & Hnever).
  split; [|split].
  - exists fields. repeat split; assumption.
  - exact Hnever.
  - intros Hdown.
    destruct (update_unreachable key
                {| p_id := None; p_title := None; p_url := None;
                   p_description := None; p_notes := None; p_tags := None;
                   p_folder := None; p_createdAt := None; p_updatedAt := None;
                   p_visitCount := Some (visitCount old + 1)%Z;
                   p_lastVisitedAt := Some (Some (isoNow (world m)).1) |}
                m0 before after old Hdown Hsplit Hid Hnot)
      as (visited & Hident & Hcount & Hlast & _ & Hitems & _).
    exists visited. repeat split; assumption.
Qed.

Lemma find_url_none (link : string) (items : list Bookmark) :
  find (fun bookmark => String.eqb (url bookmark) link) items = None ->
  link ∉ map url items.
Proof.
  intros Hnone Hin. destruct (find_url_present link items Hin) as [dup Hdup].
  congruence.
Qed.

Lemma import_unreachable_from (entries : list BookmarkDraft) :
  serviceUnreachable ->
  forall count (m : Machine World),
    exists added report m',
      importFrom entries count m = (Returned report, m')
      /\ bookmarks (this m') = bookmarks (this m) ++ added
      /\ map operation (pending (this m'))
         = map operation (pending (this m)) ++ map OpCreate added
      /\ imported report = (imported count + length added)%nat
      /\ Forall (fun b => url b <> "") added
      /\ (NoDup (map url (bookmarks (this m))) ->
          NoDup (map url (bookmarks (this m')))).
Proof.
  intros Hdown. induction entries as [|entry rest IH]; intros count m.
  - exists [], count, m. simpl. rewrite !app_nil_r.
    repeat split; auto; lia.
  - simpl. destruct (truthy (trim (d_url entry))) eqn:Htruthy.
    + unfold bind at 1. unfold getThis.
      destruct (find _ (bookmarks (this m))) as [dup|] eqn:Hfind.
      * destruct (IH (mkReport (imported count) (S (skipped count))) m)
          as (added & report & m' & Hrun & Hitems & Hops & Hcount & Hurls & Hdistinct).
        exists added, report, m'. repeat split; auto.
      * unfold bind at 1. rewrite tryCatch_swallow.
        destruct (create_unreachable entry m Hdown) as (b & _ & Hurl & Hitems & Hqueue).
        destruct (IH (mkReport (S (imported count)) (skipped count))
                    (createBookmark entry m).2)
          as (added & report & m' & Hrun & Hitems' & Hops & Hcount & Hurls & Hdistinct).
        exists (b :: added), report, m'. rewrite Hrun, Hitems', Hitems, Hops, Hqueue.
        rewrite map_app, <- !app_assoc. simpl in *.
        split; [reflexivity|]. split; [reflexivity|]. split; [reflexivity|].
        split; [lia|]. split.
        -- constructor; [|assumption]. rewrite Hurl.
           intros Hempty. apply truthy_false in Hempty. congruence.
        -- intros Hbefore. rewrite Hitems', Hitems, <- app_assoc in Hdistinct.
           apply Hdistinct. rewrite map_app. apply NoDup_app. repeat split; auto.
           ++ intros x Hx Hb. apply list_elem_of_singleton in Hb as ->.
              rewrite Hurl in Hx. now apply find_url_none in Hfind.
           ++ apply NoDup_singleton.
    + destruct (IH (mkReport (imported count) (S (skipped count))) m)
        as (added & report & m' & Hrun & Hitems & Hops & Hcount & Hurls & Hdistinct).
      exists added, report, m'. repeat split; auto.
Qed.

(** X13.  While no request gets through, [importBookmarks] only appends: the
    collection is the one before followed by the bookmarks imported, as
    many as the count says, each with a url that is not empty and with its
    Create at the end of the queue; and urls that were pairwise different
    before are so afterwards. *)
Theorem import_unreachable :
  forall (m : Machine World) (entries : list BookmarkDraft),
    serviceUnreachable ->
    exists added report m',
      importBookmarks entries m = (Returned report, m')
      /\ bookmarks (this m') = bookmarks (this m) ++ added
      /\ map operation (pending (this m'))
         = map operation (pending (this m)) ++ map OpCreate added
      /\ imported report = length added
      /\ Forall (fun b => url b <> "") added
      /\ (NoDup (map url (bookmarks (this m))) ->
          NoDup (map url (bookmarks (this m')))).
Proof.
  intros m entries Hdown.
  destruct (import_unreachable_from entries Hdown (mkReport 0 0) m)
    as (added & report & m' & Hrun & Hitems & Hops & Hcount & Hurls & Hdistinct).
  exists added, report, m'. repeat split; auto.
Qed.
End Mutations.

(** ** More on the replay *)

Lemma replay_keeps_distinct (log : list PendingOperation) :
  forall base,
    NoDup (map id base) -> Forall keepsId log -> NoDup (map id (replay log base)).
Proof.
  unfold replay. induction log as [|op log IH]; simpl; intros base Hbase Hlog; auto.
  apply Forall_cons in Hlog as [Hop Hlog].
  apply IH; auto. now apply applyOperation_distinct.
Qed.

Lemma applyOperation_keeps_absent (result : list Bookmark) (op : PendingOperation) key :
  keepsId op -> key ∉ map id result ->
  (forall b, op = OpCreate b -> id b <> key) ->
  key ∉ map id (applyOperation result op).
Proof.
  intros Hkeeps Hout Hcreate.
  destruct (applyOperation_ids result op Hkeeps)
    as [(b & -> & _ & ->)|[->|(before & other & after & Hsplit & ->)]]; auto.
  - rewrite elem_of_app, list_elem_of_singleton. intros [Hin| ->]; [auto|].
    now apply (Hcreate b).
  - rewrite Hsplit in Hout. rewrite elem_of_app in *. rewrite elem_of_cons in Hout.
    tauto.
Qed.

(** X14.  A Delete wins over what follows it: after the replay of a log with a
    Delete of an id, the id is not in the projection unless a later
    operation of the log creates it; Updates of it do nothing.  This needs
    distinct ids in the mirror and Updates that keep ids. *)
Theorem replay_delete_wins :
  forall (base : list Bookmark) (earlier later : list PendingOperation)
         (key : string),
    NoDup (map id base) ->
    Forall keepsId (earlier ++ later) ->
    key ∉ createdIds later ->
    key ∉ map id (replay (earlier ++ OpDelete key :: later) base).
Proof.
  intros base earlier later key Hbase Hlog Hnone.
  apply Forall_app in Hlog as [Hearlier Hlater].
  unfold replay. rewrite fold_left_app.
  change (fold_left applyOperation (OpDelete key :: later)
            (fold_left applyOperation earlier base))
    with (fold_left applyOperation later
            (applyOperation (fold_left applyOperation earlier base) (OpDelete key))).
  pose proof (replay_keeps_distinct earlier base Hbase Hearlier) as Hdistinct.
  unfold replay in Hdistinct.
  set (result := fold_left applyOperation earlier base) in *.
  assert (Hgone : key ∉ map id (applyOperation result (OpDelete key))).
  { destruct (decide (key ∈ map id result)) as [Hin|Hout].
    - destruct (first_with_id key result Hin)
        as (before & old & after & Hsplit & Hid & Hnot).
      rewrite Hsplit in *. rewrite applyOperation_delete_present by assumption.
      rewrite map_app in *. simpl in Hdistinct.
      apply NoDup_app in Hdistinct as (_ & _ & Hafter).
      apply NoDup_cons in Hafter as [Hafter _]. rewrite Hid in Hafter.
      rewrite elem_of_app. tauto.
    - now rewrite applyOperation_delete_absent. }
  clear Hdistinct. revert Hgone.
  generalize (applyOperation result (OpDelete key)). clear result.
  induction later as [|op later IH]; intros current Hgone; simpl; [assumption|].
  apply Forall_cons in Hlater as [Hop Hlater].
  apply IH; auto.
  - intros Hin. apply Hnone. unfold createdIds in *. simpl.
    destruct op; simpl; auto. now right.
  - apply applyOperation_keeps_absent; auto.
    intros b -> Heq. apply Hnone. unfold createdIds. simpl. rewrite <- Heq. left.
Qed.

(** ** No duplicates *)

Lemma filter_nothing {A : Type} (P : A -> Prop) `{forall x, Decision (P x)} (l : list A) :
  filter P l = [] <-> Forall (fun x => ~ P x) l.
Proof.
  induction l as [|x l IH]; [split; [constructor | reflexivity]|].
  rewrite Forall_cons, <- IH. destruct (decide (P x)) as [Hx|Hx].
  - rewrite filter_cons_True by assumption. split; [discriminate | tauto].
  - rewrite filter_cons_False by assumption. tauto.
Qed.

Lemma distinct_by_count {A : Type} (f : A -> string) (l : list A) :
  NoDup (map f l)
  <-> forall key, length (filter (fun x => f x = key) l) <= 1.
Proof.
  induction l as [|x l IH]; simpl.
  - split; [intros _ key; simpl; lia | constructor].
  - rewrite NoDup_cons, IH. split.
    + intros [Hfresh Hrest] key. destruct (decide (f x = key)) as [<-|Hne].
      * rewrite filter_cons_True by reflexivity. simpl.
        assert (filter (fun y => f y = f x) l = []) as ->; [|simpl; lia].
        apply filter_nothing, Forall_forall. intros y Hy Heq. apply Hfresh.
        rewrite <- Heq. apply list_elem_of_In, in_map, list_elem_of_In, Hy.
      * rewrite filter_cons_False by assumption. apply Hrest.
    + intros Hcount. split.
      * intros Hin. apply list_elem_of_In, in_map_iff in Hin as (y & Heq & Hy).
        specialize (Hcount (f x)). rewrite filter_cons_True in Hcount by reflexivity.
        assert (y ∈ filter (fun z => f z = f x) l) as Hfound
          by (apply list_elem_of_filter; split; [assumption | now apply list_elem_of_In]).
        destruct (filter (fun z => f z = f x) l); [inversion Hfound|].
        simpl in Hcount. lia.
      * intros key. specialize (Hcount key).
        destruct (decide (f x = key)).
        -- rewrite filter_cons_True in Hcount by assumption. simpl in Hcount. lia.
        -- now rewrite filter_cons_False in Hcount by assumption.
Qed.

(** X15.  [detectDuplicates] reports nothing exactly when the bookmarks that have
    a url have pairwise different urls, case apart. *)
Theorem detectDuplicates_none :
  forall c : BookmarkClient,
    detectDuplicates c = []
    <-> NoDup (map (fun b => toLowerCase (url b))
                 (filter (fun b => url b <> "") (bookmarks c))).
Proof.
  intros c. destruct (groupByUrl_groups (bookmarks c)) as [Hkeys Hget].
  rewrite distinct_by_count. unfold detectDuplicates.
  rewrite filter_nothing, Forall_forall.
  assert (Hsame : forall key,
            filter (fun b => toLowerCase (url b) = key)
              (filter (fun b => url b <> "") (bookmarks c))
            = sharingUrl key (bookmarks c)).
  { intros key. unfold sharingUrl. rewrite list_filter_filter.
    apply list_filter_iff. intros b. tauto. }
  split.
  - intros Hsmall key. rewrite Hsame.
    destruct (sharingUrl key (bookmarks c)) as [|b group] eqn:Hgroup; [simpl; lia|].
    assert ((key, b :: group) ∈ groupByUrl (bookmarks c)) as Hentry
      by (apply mapGet_entry; [assumption | now rewrite Hget, Hgroup]).
    specialize (Hsmall _ Hentry). simpl in *.
    destruct (length group) as [|n]; [lia|].
    exfalso. apply Hsmall. reflexivity.
  - intros Hcount [key group] Hentry Hlarge. simpl in Hlarge.
    apply mapGet_entry in Hentry; [|assumption]. rewrite Hget in Hentry.
    specialize (Hcount key). rewrite Hsame in Hcount.
    destruct (sharingUrl key (bookmarks c)) as [|b rest]; [discriminate|].
    injection Hentry as <-. apply Nat.ltb_ge in Hlarge. lia.
Qed.

(** ** The form *)

Lemma hasHttpScheme_added (link : string) : hasHttpScheme ("https://" +:+ link) = true.
Proof.
  unfold hasHttpScheme. cbv [String.append]. simpl. now destruct (toLowerCase link).
Qed.

Lemma truthy_added (link : string) : truthy ("https://" +:+ link) = true.
Proof. reflexivity. Qed.

Lemma formatUrl_scheme (link : string) :
  link <> "" -> hasHttpScheme (formatUrl link) = true.
Proof.
  intros Hfull. unfold formatUrl. destruct link as [|c rest]; [congruence|].
  cbn [truthy]. destruct (hasHttpScheme (String c rest)) eqn:Hscheme;
    [assumption | apply hasHttpScheme_added].
Qed.

(** X16.  [formatUrl] gives every url that is not empty an http or https scheme,
    leaves a url that has one as it is, and applied again changes
    nothing. *)
Theorem formatUrl_settles :
  forall link : string,
    formatUrl (formatUrl link) = formatUrl link
    /\ (link <> "" -> hasHttpScheme (formatUrl link) = true)
    /\ (hasHttpScheme link = true -> formatUrl link = link)
    /\ (formatUrl link = "" <-> link = "").
Proof.
  intros link. unfold formatUrl.
  destruct link as [|c rest]; [simpl; repeat split; congruence|].
  cbn [truthy]. destruct (hasHttpScheme (String c rest)) eqn:Hscheme.
  - cbn [truthy]. rewrite Hscheme. repeat split; congruence.
  - rewrite truthy_added, hasHttpScheme_added.
    repeat split; try reflexivity; discriminate.
Qed.

Lemma trimEnd_appended (head tail : string) :
  trimEnd tail = tail -> tail <> "" -> trimEnd (head +:+ tail) = head +:+ tail.
Proof.
  intros Hfixed Hfull. induction head as [|c head IH]; [exact Hfixed|].
  change (String c head +:+ tail) with (String c (head +:+ tail)).
  cbn [trimEnd]. rewrite IH. destruct (head +:+ tail) eqn:Hjoined; [|reflexivity].
  destruct head; cbv [String.append] in Hjoined; congruence.
Qed.

Lemma trim_formatUrl (link : string) :
  trim link = link -> trim (formatUrl link) = formatUrl link.
Proof.
  intros Hfixed. unfold formatUrl.
  destruct (truthy link) eqn:Hfull; [|reflexivity].
  destruct (hasHttpScheme link); [assumption|].
  assert (link <> "") as Hne by (intros ->; discriminate).
  assert (trimEnd link = link) as Hend.
  { rewrite <- Hfixed at 1. unfold trim. rewrite trimEnd_twice. exact Hfixed. }
  unfold trim. change (trimStart ("https://" +:+ link)) with ("https://" +:+ link).
  now apply trimEnd_appended.
Qed.

Lemma parseTagsInput_members (input : string) :
  NoDup (parseTagsInput input)
  /\ Forall (fun tag => trim tag = tag /\ tag <> "") (parseTagsInput input).
Proof.
  unfold parseTagsInput.
  destruct (firstOccurrences_facts
              (filter (fun tag => truthy tag = true) (map trim (splitAtCommas input))))
    as (Hdistinct & Hmember & _).
  split; [assumption|]. apply Forall_forall. intros tag Htag.
  apply Hmember, list_elem_of_filter in Htag as [Hfull Htag].
  change (map trim ?l) with (trim <$> l) in Htag.
  apply list_elem_of_fmap in Htag as (piece & -> & _).
  split; [apply trim_twice|]. intros Hempty. rewrite Hempty in Hfull. discriminate.
Qed.

Section Form.
Context {World : Type} `{Environment World}.

(** The tags of the form go through [normalizeTags] unchanged but for their
    order. *)
Lemma normalizeTags_of_form (input : string) :
  normalizeTags (parseTagsInput input) = sort localeCompare (parseTagsInput input).
Proof.
  destruct (parseTagsInput_members input) as [Hdistinct Hclean].
  unfold normalizeTags. rewrite map_fixed, filter_all.
  - destruct (firstOccurrences_facts (parseTagsInput input)) as (_ & _ & Hsame).
    now rewrite Hsame.
  - eapply Forall_impl; [exact Hclean|]. simpl. intros tag [_ Hfull].
    destruct tag; [congruence | reflexivity].
  - eapply Forall_impl; [exact Hclean|]. simpl. tauto.
Qed.

(** X17.  The form hands nothing to the client exactly when the title or the url
    is empty after trimming.  What it hands over makes [createBookmark]
    build a bookmark with the trimmed title, which is not empty, with the
    trimmed url under an http or https scheme, and with the tags of the
    form, each once and none empty, in the order of [localeCompare]. *)
Theorem form_submission :
  forall form : FormState,
    (submittedPayload form = None
     <-> trim (f_title form) = "" \/ trim (f_url form) = "")
    /\ forall draft (m : Machine World),
         submittedPayload form = Some draft ->
         exists b m1,
           createLocally draft m = (Returned b, m1)
           /\ title b = trim (f_title form) /\ title b <> ""
           /\ url b = formatUrl (trim (f_url form))
           /\ hasHttpScheme (url b) = true
           /\ tags b = sort localeCompare (parseTagsInput (f_tagsInput form)).
Proof.
  intros form. unfold submittedPayload.
  destruct (truthy (trim (f_title form))) eqn:Htitle;
    destruct (truthy (trim (f_url form))) eqn:Hurl; simpl.
  2-4: split; [split; [intros _|reflexivity] | intros draft m Hnone; discriminate];
       rewrite <- !truthy_false; auto.
  assert (trim (f_title form) <> "") as Htitle'
    by (rewrite <- truthy_false; congruence).
  assert (trim (f_url form) <> "") as Hurl'
    by (rewrite <- truthy_false; congruence).
  split; [split; [discriminate | tauto]|].
  intros draft m Hsome. injection Hsome as <-.
  unfold createLocally, parseBookmark, createId, recordPending, notify,
    setBookmarks, persist. run.
  destruct (isoNow (world m)) as [now w1]. simpl.
  destruct (randomUUID w1) as [uuid w2]. simpl.
  destruct (isoNow w2) as [now' w3]. simpl.
  eexists _, _. split; [reflexivity|]. simpl.
  rewrite trim_twice, (trim_formatUrl (trim (f_url form)) (trim_twice _)).
  repeat split; auto.
  - now apply formatUrl_scheme.
  - apply normalizeTags_of_form.
Qed.
End Form.


(** ** The request of [createBookmark] and [updateBookmark] *)

Section Confirmation.
Context {World : Type} `{Environment World}.

Lemma createLocally_outcome (draft : BookmarkDraft) (m : Machine World) :
  exists b m1,
    createLocally draft m = (Returned b, m1)
    /\ id b = (randomUUID (isoNow (world m)).2).1
    /\ bookmarks (this m1) = bookmarks (this m) ++ [b]
    /\ pending (this m1) = pending (this m) ++ [mkQueued (fresh (this m)) (OpCreate b)]
    /\ requests m1 = requests m.
Proof.
  unfold createLocally, parseBookmark, createId, recordPending, notify, setBookmarks,
    persist. run.
  destruct (isoNow (world m)) as [now w1]. simpl.
  destruct (randomUUID w1) as [uuid w2]. simpl.
  destruct (isoNow w2) as [now' w3]. simpl.
  eexists _, _. repeat split.
Qed.

(** X18.  [createBookmark] builds the bookmark, with the id drawn from the
    browser, puts it at the end of the collection and a Create for it at the
    end of the queue, and sends one POST with it.  When the request fails
    the client stays so, and the call throws exactly when the browser
    reports itself online and returns the collection otherwise.  An answer
    without content leaves the Create in the queue.  An answer with a record
    puts the record in the collection as [upsertLocal] does and takes every
    Create of the bookmark's id out of the queue. *)
Theorem createBookmark_outcome :
  forall (m : Machine World) (draft : BookmarkDraft),
    exists b m1,
      createLocally draft m = (Returned b, m1)
      /\ id b = (randomUUID (isoNow (world m)).2).1
      /\ bookmarks (this m1) = bookmarks (this m) ++ [b]
      /\ pending (this m1)
         = pending (this m) ++ [mkQueued (fresh (this m)) (OpCreate b)]
      /\ requests (createBookmark draft m).2 = requests m ++ [POST b]
      /\ ((fetch (POST b) (world m1)).1 = Failure ->
          this (createBookmark draft m).2 = this m1
          /\ ((createBookmark draft m).1 = Thrown RequestFailed
              <-> onLine (world (createBookmark draft m).2) = Some true)
          /\ ((createBookmark draft m).1 = Returned (bookmarks (this m1))
              <-> onLine (world (createBookmark draft m).2) <> Some true))
      /\ ((fetch (POST b) (world m1)).1 = NoContent ->
          this (createBookmark draft m).2 = this m1
          /\ (createBookmark draft m).1 = Returned (bookmarks (this m1)))
      /\ (forall data,
            (fetch (POST b) (world m1)).1 = Json data ->
            exists saved m2,
              parseBookmark (savedRaw data)
                (mkMachine (this m1) (fetch (POST b) (world m1)).2
                   (requests m ++ [POST b]))
              = (Returned saved, m2)
              /\ bookmarks (this (createBookmark draft m).2)
                 = bookmarks (this (upsertLocal saved m2).2)
              /\ pending (this (createBookmark draft m).2)
                 = filter (fun queued => isCreateOf (id b) queued = false)
                     (pending (this m))
              /\ (createBookmark draft m).1
                 = Returned (bookmarks (this (createBookmark draft m).2))).
Proof.
  intros m draft.
  destruct (createLocally_outcome draft m) as (b & m1 & Hlocal & Hid & Hitems & Hqueue & Hsent).
  exists b, m1. split; [exact Hlocal|]. split; [exact Hid|].
  split; [exact Hitems|]. split; [exact Hqueue|].
  assert (Hrun : createBookmark draft m
                 = (confirmCreate b ;;; c' <- getThis ;; ret (bookmarks c'))%action m1).
  { unfold createBookmark. unfold bind at 1. now rewrite Hlocal. }
  rewrite Hrun. clear Hrun Hlocal.
  unfold confirmCreate, apiRequest, rethrowWhenOnline. run. rewrite Hsent.
  destruct (fetch (POST b) (world m1)) as [[| |data] w] eqn:Hfetch; simpl.
  - destruct (onLine w) as [[|]|] eqn:Hstatus; simpl;
      (split; [reflexivity|]); (split; [intros _|]);
      try (split; [intros Hok; congruence|]; intros data Hdata; congruence);
      (split; [reflexivity|]); rewrite ?Hstatus; split; split; congruence.
  - split; [reflexivity|]. split; [intros Hfail; congruence|].
    split; [intros _; split; reflexivity|]. intros data Hdata. congruence.
  - match goal with |- context [parseBookmark ?raw ?mm] =>
      destruct (parseBookmark_quiet raw mm) as (saved & m2 & Hparse & Hthis & Hrequests)
    end.
    rewrite Hparse. simpl in *.
    unfold removePending, persist, notify. run.
    destruct (upsertLocal saved m2) as [[[]|e] m3] eqn:Hupsert.
    2: { unfold upsertLocal, setBookmarks in Hupsert. revert Hupsert. run.
         destruct (findIndex _ _); discriminate. }
    assert (Hkept : pending (this m3) = pending (this m1)
                    /\ requests m3 = requests m ++ [POST b]).
    { unfold upsertLocal, setBookmarks in Hupsert. revert Hupsert. run.
      destruct (findIndex _ _); intros [= <-]; simpl; rewrite Hthis; auto. }
    destruct Hkept as [Hkept Hrequests3]. simpl.
    split; [exact Hrequests3|]. split; [intros Hfail; congruence|].
    split; [intros Hfail; congruence|]. intros data' Hdata.
    injection Hdata as <-. exists saved, m2. split; [exact Hparse|].
    rewrite Hupsert. simpl. split; [reflexivity|]. split; [|reflexivity].
    rewrite Hkept, Hqueue, filter_app, filter_cons_False, app_nil_r;
      [reflexivity | unfold isCreateOf; simpl; rewrite String.eqb_refl; discriminate].
Qed.

End Confirmation.

(** ** Reading the collection back *)

Lemma createsFresh_seen (log : list PendingOperation) :
  forall seen seen',
    (forall x, x ∈ seen' -> x ∈ seen) -> createsFresh seen log -> createsFresh seen' log.
Proof.
  induction log as [|op log IH]; simpl; intros seen seen' Hsub Hfresh; [exact I|].
  destruct Hfresh as [Hop Hrest]. split.
  - destruct op; auto.
  - apply (IH (targetOf op :: seen)); [|exact Hrest].
    intros x Hx. apply elem_of_cons in Hx as [->|Hx]; [left | right; auto].
Qed.

Lemma createsFresh_snoc (log : list PendingOperation) (op : PendingOperation) :
  forall seen,
    createsFresh seen (log ++ [op])
    <-> createsFresh seen log
        /\ (forall b, op = OpCreate b -> (id b ∉ seen) /\ (id b ∉ map targetOf log)).
Proof.
  induction log as [|first log IH]; simpl; intros seen.
  - split.
    + intros [Hop _]. split; [exact I|]. intros b ->. split; [exact Hop|].
      intros Hin. inversion Hin.
    + intros [_ Hop]. split; [|exact I]. destruct op as [b| |]; auto.
      now destruct (Hop b eq_refl).
  - rewrite IH. split.
    + intros (Hfirst & Hrest & Hop). split; [split; assumption|].
      intros b ->. destruct (Hop b eq_refl) as [Hseen Hlog].
      rewrite not_elem_of_cons in Hseen. destruct Hseen as [Hne Hseen].
      split; [exact Hseen|]. rewrite not_elem_of_cons. split; assumption.
    + intros ((Hfirst & Hrest) & Hop). split; [exact Hfirst|]. split; [exact Hrest|].
      intros b ->. destruct (Hop b eq_refl) as [Hseen Hlog].
      rewrite not_elem_of_cons in Hlog. destruct Hlog as [Hne Hlog].
      split; [|exact Hlog]. rewrite not_elem_of_cons. split; assumption.
Qed.

(** The ids of the projection come from the mirror or from the log. *)
Lemma replay_ids (log : list PendingOperation) :
  forall base x,
    Forall keepsId log ->
    x ∈ map id (replay log base) -> x ∈ map id base \/ x ∈ map targetOf log.
Proof.
  unfold replay. induction log as [|op log IH]; simpl; intros base x Hlog Hx; [now left|].
  apply Forall_cons in Hlog as [Hop Hlog].
  destruct (IH _ x Hlog Hx) as [Hin|Hin]; [|right; now right].
  destruct (applyOperation_ids base op Hop)
    as [(b & -> & _ & Hids)|[Hids|(before & key & after & Hsplit & Hids)]];
    rewrite Hids in Hin.
  - apply elem_of_app in Hin as [Hin|Hin]; [now left|].
    apply list_elem_of_singleton in Hin as ->. right. now left.
  - now left.
  - left. rewrite Hsplit. rewrite elem_of_app in *. rewrite elem_of_cons. tauto.
Qed.

(** *** The entries with other ids *)

Lemma others_app (key : string) (l1 l2 : list Bookmark) :
  others key (l1 ++ l2) = others key l1 ++ others key l2.
Proof. apply filter_app. Qed.

Lemma others_absent (key : string) (items : list Bookmark) :
  key ∉ map id items -> others key items = items.
Proof.
  intros Hout. apply filter_all. apply Forall_forall. intros b Hb Hid.
  apply Hout. rewrite <- Hid. now apply list_elem_of_fmap_2.
Qed.

Lemma others_ids (key x : string) (items : list Bookmark) :
  x ∈ map id (others key items) <-> x ∈ map id items /\ x <> key.
Proof.
  unfold others. rewrite !list_elem_of_fmap. split.
  - intros (b & -> & Hb). apply list_elem_of_filter in Hb as [Hne Hb]. eauto.
  - intros [(b & -> & Hb) Hne]. exists b. split; [reflexivity|].
    apply list_elem_of_filter. auto.
Qed.

Lemma others_twice (key : string) (items : list Bookmark) :
  others key (others key items) = others key items.
Proof.
  apply others_absent. rewrite others_ids. tauto.
Qed.

(** An operation about [key] leaves the other entries alone. *)
Lemma others_same_target (key : string) (op : PendingOperation) (items : list Bookmark) :
  keepsId op -> targetOf op = key ->
  others key (applyOperation items op) = others key items.
Proof.
  intros Hkeeps Htarget. destruct op as [b|target updates|target]; simpl in Htarget; subst key.
  - destruct (decide (id b ∈ map id items)) as [Hin|Hout].
    + now rewrite applyOperation_create_present.
    + rewrite applyOperation_create_absent by assumption.
      rewrite others_app. unfold others at 2. rewrite filter_cons_False by tauto.
      apply app_nil_r.
  - destruct (decide (target ∈ map id items)) as [Hin|Hout].
    + destruct (first_with_id target items Hin) as (before & old & after & -> & Hid & Hnot).
      rewrite applyOperation_update_present by assumption.
      unfold others. rewrite !filter_other_ids_middle; auto.
      now apply spread_keeps_id.
    + now rewrite applyOperation_update_absent.
  - destruct (decide (target ∈ map id items)) as [Hin|Hout].
    + destruct (first_with_id target items Hin) as (before & old & after & -> & Hid & Hnot).
      rewrite applyOperation_delete_present by assumption.
      unfold others. rewrite filter_other_ids_middle by assumption. apply filter_app.
    + now rewrite applyOperation_delete_absent.
Qed.

(** An operation about another id acts on the other entries as on all. *)
Lemma others_other_target (key : string) (op : PendingOperation) (items : list Bookmark) :
  keepsId op -> targetOf op <> key ->
  others key (applyOperation items op) = applyOperation (others key items) op.
Proof.
  intros Hkeeps Htarget. destruct op as [b|target updates|target]; simpl in Htarget.
  - destruct (decide (id b ∈ map id items)) as [Hin|Hout].
    + rewrite !applyOperation_create_present; auto. rewrite others_ids. auto.
    + rewrite !applyOperation_create_absent; auto.
      * rewrite others_app. unfold others at 2. now rewrite filter_cons_True, filter_nil.
      * rewrite others_ids. tauto.
  - destruct (decide (target ∈ map id items)) as [Hin|Hout].
    + destruct (first_with_id target items Hin) as (before & old & after & -> & Hid & Hnot).
      rewrite applyOperation_update_present by assumption.
      assert (Hmerged : id (spread old updates) = target) by now apply spread_keeps_id.
      rewrite !others_app. unfold others at 2 4.
      rewrite !filter_cons_True by congruence.
      rewrite applyOperation_update_present; auto.
      rewrite others_ids. tauto.
    + rewrite !applyOperation_update_absent; auto. rewrite others_ids. tauto.
  - destruct (decide (target ∈ map id items)) as [Hin|Hout].
    + destruct (first_with_id target items Hin) as (before & old & after & -> & Hid & Hnot).
      rewrite applyOperation_delete_present by assumption.
      rewrite !others_app. unfold others at 4.
      rewrite !filter_cons_True by congruence.
      rewrite applyOperation_delete_present; auto.
      rewrite others_ids. tauto.
    + rewrite !applyOperation_delete_absent; auto. rewrite others_ids. tauto.
Qed.

Lemma others_step (key : string) (op : PendingOperation) (l1 l2 : list Bookmark) :
  keepsId op -> others key l1 = others key l2 ->
  others key (applyOperation l1 op) = others key (applyOperation l2 op).
Proof.
  intros Hkeeps Hsame. destruct (decide (targetOf op = key)) as [Htarget|Htarget].
  - now rewrite !others_same_target.
  - rewrite !others_other_target by assumption. now rewrite Hsame.
Qed.

Lemma others_replay (key : string) (log : list PendingOperation) :
  forall l1 l2,
    Forall keepsId log -> others key l1 = others key l2 ->
    others key (replay log l1) = others key (replay log l2).
Proof.
  unfold replay. induction log as [|op log IH]; simpl; intros l1 l2 Hlog Hsame; auto.
  apply Forall_cons in Hlog as [Hop Hlog]. apply IH; auto. now apply others_step.
Qed.

Lemma delete_is_others (key : string) (items : list Bookmark) :
  NoDup (map id items) -> applyOperation items (OpDelete key) = others key items.
Proof.
  intros Hdistinct. destruct (decide (key ∈ map id items)) as [Hin|Hout].
  - destruct (first_with_id key items Hin) as (before & old & after & -> & Hid & Hnot).
    rewrite applyOperation_delete_present by assumption.
    unfold others. rewrite filter_other_ids_middle by assumption.
    rewrite map_app in Hdistinct. simpl in Hdistinct.
    apply NoDup_app in Hdistinct as (_ & _ & Hafter). apply NoDup_cons in Hafter as [Hafter _].
    rewrite Hid in Hafter.
    fold (others key before). fold (others key after).
    now rewrite !others_absent.
  - rewrite applyOperation_delete_absent by assumption. symmetry. now apply others_absent.
Qed.

(** *** Entries that differ in the fields of an Update *)

Lemma spread_twice (a : Bookmark) (u : PartialBookmark) :
  spread (spread a u) u = spread a u.
Proof.
  unfold spread. simpl.
  destruct u as [i t l d n g f c p v s]. simpl.
  destruct i, t, l, d, n, g, f, c, p, v, s; reflexivity.
Qed.

Lemma spread_under (a b : Bookmark) (u v : PartialBookmark) :
  spread a u = spread b u -> spread (spread a v) u = spread (spread b v) u.
Proof.
  intros Hsame. unfold spread in *. simpl.
  injection Hsame as Hi Ht Hl Hd Hn Hg Hf Hc Hp Hv Hs.
  f_equal.
  - destruct (p_id u); simpl in *; [reflexivity|]. now rewrite Hi.
  - destruct (p_title u); simpl in *; [reflexivity|]. now rewrite Ht.
  - destruct (p_url u); simpl in *; [reflexivity|]. now rewrite Hl.
  - destruct (p_description u); simpl in *; [reflexivity|]. now rewrite Hd.
  - destruct (p_notes u); simpl in *; [reflexivity|]. now rewrite Hn.
  - destruct (p_tags u); simpl in *; [reflexivity|]. now rewrite Hg.
  - destruct (p_folder u); simpl in *; [reflexivity|]. now rewrite Hf.
  - destruct (p_createdAt u); simpl in *; [reflexivity|]. now rewrite Hc.
  - destruct (p_updatedAt u); simpl in *; [reflexivity|]. now rewrite Hp.
  - destruct (p_visitCount u); simpl in *; [reflexivity|]. now rewrite Hv.
  - destruct (p_lastVisitedAt u); simpl in *; [reflexivity|]. now rewrite Hs.
Qed.

Lemma upTo_same (key : string) (u : PartialBookmark) (a : Bookmark) : upTo key u a a.
Proof. repeat split. Qed.

Lemma upTo_all_same (key : string) (u : PartialBookmark) (items : list Bookmark) :
  Forall2 (upTo key u) items items.
Proof. induction items; constructor; auto using upTo_same. Qed.

Lemma upTo_ids (key : string) (u : PartialBookmark) (l1 l2 : list Bookmark) :
  Forall2 (upTo key u) l1 l2 -> map id l1 = map id l2.
Proof.
  induction 1 as [|a b l1 l2 (Hid & _) _ IH]; simpl; congruence.
Qed.

Lemma upTo_equal (key : string) (u : PartialBookmark) (l1 l2 : list Bookmark) :
  key ∉ map id l1 -> Forall2 (upTo key u) l1 l2 -> l1 = l2.
Proof.
  intros Hout Hsame. induction Hsame as [|a b l1 l2 (Hid & _ & Hother) _ IH]; [reflexivity|].
  simpl in Hout. apply not_elem_of_cons in Hout as [Hne Hout].
  rewrite (Hother (not_eq_sym Hne)), IH; auto.
Qed.

Lemma upTo_split (key : string) (u : PartialBookmark)
      (before after : list Bookmark) (old : Bookmark) (l2 : list Bookmark) :
  Forall2 (upTo key u) (before ++ old :: after) l2 ->
  exists before' old' after',
    l2 = before' ++ old' :: after'
    /\ Forall2 (upTo key u) before before'
    /\ upTo key u old old'
    /\ Forall2 (upTo key u) after after'.
Proof.
  intros Hsame. apply Forall2_app_inv_l in Hsame as (before' & rest & Hbefore & Hrest & ->).
  apply Forall2_cons_inv_l in Hrest as (old' & after' & Hold & Hafter & ->).
  eauto 8.
Qed.

(** One operation keeps two arrays alike. *)
Lemma upTo_step (key : string) (u : PartialBookmark) (op : PendingOperation)
      (l1 l2 : list Bookmark) :
  keepsId op -> Forall2 (upTo key u) l1 l2 ->
  Forall2 (upTo key u) (applyOperation l1 op) (applyOperation l2 op).
Proof.
  intros Hkeeps Hsame. pose proof (upTo_ids key u l1 l2 Hsame) as Hids.
  destruct op as [b|target updates|target].
  - destruct (decide (id b ∈ map id l1)) as [Hin|Hout].
    + rewrite !applyOperation_create_present; auto. now rewrite <- Hids.
    + rewrite !applyOperation_create_absent; auto; [|now rewrite <- Hids].
      apply Forall2_app; [assumption|]. constructor; [apply upTo_same | constructor].
  - destruct (decide (target ∈ map id l1)) as [Hin|Hout].
    + destruct (first_with_id target l1 Hin) as (before & old & after & -> & Hid & Hnot).
      destruct (upTo_split key u before after old l2 Hsame)
        as (before' & old' & after' & -> & Hbefore & Hold & Hafter).
      pose proof (upTo_ids key u _ _ Hbefore) as Hbefore_ids.
      destruct Hold as (Hold_id & Hold_key & Hold_other).
      rewrite !applyOperation_update_present; auto; try congruence.
      apply Forall2_app; [assumption|]. constructor; [|assumption].
      assert (Hleft : id (spread old updates) = target) by now apply spread_keeps_id.
      assert (Hright : id (spread old' updates) = target)
        by (apply spread_keeps_id; congruence).
      split; [congruence|]. split.
      * intros Hkey. apply spread_under. apply Hold_key. congruence.
      * intros Hother. rewrite Hold_other; [reflexivity | congruence].
    + rewrite !applyOperation_update_absent; auto. now rewrite <- Hids.
  - destruct (decide (target ∈ map id l1)) as [Hin|Hout].
    + destruct (first_with_id target l1 Hin) as (before & old & after & -> & Hid & Hnot).
      destruct (upTo_split key u before after old l2 Hsame)
        as (before' & old' & after' & -> & Hbefore & Hold & Hafter).
      pose proof (upTo_ids key u _ _ Hbefore) as Hbefore_ids.
      destruct Hold as (Hold_id & _).
      rewrite !applyOperation_delete_present; auto; try congruence.
      now apply Forall2_app.
    + rewrite !applyOperation_delete_absent; auto. now rewrite <- Hids.
Qed.

Lemma upTo_replay (key : string) (u : PartialBookmark) (log : list PendingOperation) :
  forall l1 l2,
    Forall keepsId log -> Forall2 (upTo key u) l1 l2 ->
    Forall2 (upTo key u) (replay log l1) (replay log l2).
Proof.
  unfold replay. induction log as [|op log IH]; simpl; intros l1 l2 Hlog Hsame; auto.
  apply Forall_cons in Hlog as [Hop Hlog]. apply IH; auto. now apply upTo_step.
Qed.

(** The Update itself makes two alike arrays equal. *)
Lemma upTo_update (key : string) (u : PartialBookmark) (l1 l2 : list Bookmark) :
  NoDup (map id l1) -> Forall2 (upTo key u) l1 l2 ->
  applyOperation l1 (OpUpdate key u) = applyOperation l2 (OpUpdate key u).
Proof.
  intros Hdistinct Hsame. pose proof (upTo_ids key u l1 l2 Hsame) as Hids.
  destruct (decide (key ∈ map id l1)) as [Hin|Hout].
  - destruct (first_with_id key l1 Hin) as (before & old & after & -> & Hid & Hnot).
    destruct (upTo_split key u before after old l2 Hsame)
      as (before' & old' & after' & -> & Hbefore & Hold & Hafter).
    destruct Hold as (Hold_id & Hold_key & _).
    rewrite map_app in Hdistinct. simpl in Hdistinct.
    apply NoDup_app in Hdistinct as (_ & _ & Hrest). apply NoDup_cons in Hrest as [Hrest _].
    rewrite Hid in Hrest.
    pose proof (upTo_equal key u _ _ Hnot Hbefore) as <-.
    pose proof (upTo_equal key u _ _ Hrest Hafter) as <-.
    rewrite !applyOperation_update_present; auto; try congruence.
    now rewrite (Hold_key Hid).
  - rewrite (upTo_equal key u l1 l2 Hout Hsame). reflexivity.
Qed.

(** *** Operations read back from their JSON form *)

Lemma throughJSON_keepsId (op : PendingOperation) : keepsId op -> keepsId (throughJSON op).
Proof. destruct op; simpl; auto. Qed.

Lemma throughJSON_target (op : PendingOperation) : targetOf (throughJSON op) = targetOf op.
Proof. now destruct op. Qed.

Lemma throughJSON_twice (op : PendingOperation) :
  throughJSON (throughJSON op) = throughJSON op.
Proof.
  destruct op as [b|key u|key]; simpl; [reflexivity| |reflexivity].
  unfold throughJSONFields. simpl. now destruct (p_lastVisitedAt u) as [[visit|]|].
Qed.

Lemma throughJSON_all_twice (log : list PendingOperation) :
  map throughJSON (map throughJSON log) = map throughJSON log.
Proof.
  induction log as [|op log IH]; simpl; [reflexivity|].
  now rewrite throughJSON_twice, IH.
Qed.

Lemma throughJSON_all_keepId (log : list PendingOperation) :
  Forall keepsId log -> Forall keepsId (map throughJSON log).
Proof.
  intros Hlog. apply List.Forall_map. eapply Forall_impl; [exact Hlog|].
  apply throughJSON_keepsId.
Qed.

Lemma throughJSON_targets (log : list PendingOperation) :
  map targetOf (map throughJSON log) = map targetOf log.
Proof.
  induction log as [|op log IH]; simpl; [reflexivity|].
  now rewrite throughJSON_target, IH.
Qed.

(** The key that [JSON.stringify] leaves out makes no difference for an
    entry that has no visit. *)
Lemma spread_throughJSON (old : Bookmark) (u : PartialBookmark) :
  (p_lastVisitedAt u = Some None -> lastVisitedAt old = None) ->
  spread old (throughJSONFields u) = spread old u.
Proof.
  intros Hvisit. unfold spread, throughJSONFields. simpl. f_equal.
  destruct (p_lastVisitedAt u) as [[visit|]|]; simpl; auto.
Qed.

Lemma keepsVisit_first (key : string) (u : PartialBookmark)
      (before after : list Bookmark) (old : Bookmark) :
  keepsVisit (before ++ old :: after) (OpUpdate key u) ->
  id old = key -> key ∉ map id before ->
  p_lastVisitedAt u = Some None -> lastVisitedAt old = None.
Proof.
  intros Hkeeps Hid Hnot Hvisit. specialize (Hkeeps Hvisit).
  now rewrite (find_first key before after old Hid Hnot) in Hkeeps.
Qed.

Lemma applyOperation_throughJSON (items : list Bookmark) (op : PendingOperation) :
  keepsVisit items op -> applyOperation items (throughJSON op) = applyOperation items op.
Proof.
  destruct op as [b|key u|key]; [reflexivity| |reflexivity]. intros Hkeeps.
  cbn [throughJSON]. destruct (decide (key ∈ map id items)) as [Hin|Hout].
  - destruct (first_with_id key items Hin) as (before & old & after & -> & Hid & Hnot).
    rewrite !applyOperation_update_present by assumption.
    rewrite spread_throughJSON; [reflexivity|].
    now apply (keepsVisit_first key u before after old).
  - now rewrite !applyOperation_update_absent.
Qed.

Lemma replay_throughJSON (log : list PendingOperation) :
  forall items,
    keepsVisits items log -> replay (map throughJSON log) items = replay log items.
Proof.
  unfold replay. induction log as [|op log IH]; intros items Hkeeps; [reflexivity|].
  destruct Hkeeps as [Hop Hrest]. cbn [map fold_left].
  rewrite (applyOperation_throughJSON items op Hop). now apply IH.
Qed.

Lemma keepsVisits_snoc (log : list PendingOperation) (op : PendingOperation) :
  forall items,
    keepsVisits items (log ++ [op])
    <-> keepsVisits items log /\ keepsVisit (replay log items) op.
Proof.
  unfold replay. induction log as [|first log IH]; intros items; cbn [app keepsVisits fold_left].
  - tauto.
  - rewrite IH. tauto.
Qed.

(** An operation that has gone through JSON carries no [undefined]. *)
Lemma keepsVisits_throughJSON (log : list PendingOperation) :
  forall items, keepsVisits items (map throughJSON log).
Proof.
  induction log as [|op log IH]; intros items; cbn [map keepsVisits]; [exact I|].
  split; [|apply IH]. destruct op as [b|key u|key]; simpl; auto.
  now destruct (p_lastVisitedAt u) as [[visit|]|].
Qed.

Lemma createsFresh_throughJSON (log : list PendingOperation) :
  forall seen, createsFresh seen log -> createsFresh seen (map throughJSON log).
Proof.
  induction log as [|op log IH]; intros seen; cbn [map createsFresh]; [auto|].
  intros [Hop Hrest]. rewrite throughJSON_target. split; [now destruct op | now apply IH].
Qed.

(** *** The replay of the stored queue over what the queue has built *)

Lemma replay_reloaded (log : list PendingOperation) :
  forall base extra : list Bookmark,
    NoDup (map id base) -> Forall keepsId log -> createsFresh (map id base) log ->
    keepsVisits base log ->
    NoDup (map id extra) ->
    (forall x, x ∈ map id extra -> (x ∉ map id base) /\ (x ∉ map targetOf log)) ->
    replay (map throughJSON log) (replay log base ++ extra) = replay log base ++ extra.
Proof.
  induction log as [|op log IH] using rev_ind;
    intros base extra Hbase Hlog Hfresh Hvisits Hextra Hnew; [reflexivity|].
  apply Forall_app in Hlog as [Hlog Hop]. apply Forall_cons in Hop as [Hop _].
  apply createsFresh_snoc in Hfresh as [Hfresh Hcreate].
  apply keepsVisits_snoc in Hvisits as [Hvisits Hvisit].
  assert (Hnew' : forall x, x ∈ map id extra ->
                    (x ∉ map id base) /\ (x ∉ map targetOf log) /\ x <> targetOf op).
  { intros x Hx. destruct (Hnew x Hx) as [Hb Hl]. split; [exact Hb|].
    rewrite map_app, elem_of_app in Hl. simpl in Hl. rewrite list_elem_of_singleton in Hl.
    tauto. }
  rewrite map_app. cbn [map]. rewrite !replay_snoc.
  set (built := replay log base) in *. set (stored := map throughJSON log).
  assert (Hstored : Forall keepsId stored) by now apply throughJSON_all_keepId.
  assert (Hbuilt : NoDup (map id built)) by now apply replay_keeps_distinct.
  assert (Hapart : forall x, x ∈ map id built -> x ∉ map id extra).
  { intros x Hx Hin. destruct (Hnew' x Hin) as (Hb & Hl & _).
    destruct (replay_ids log base x Hlog Hx); contradiction. }
  assert (Hall : NoDup (map id (built ++ extra))).
  { rewrite map_app. apply NoDup_app. repeat split; assumption. }
  assert (Hlast : targetOf op ∉ map id extra).
  { intros Hin. now destruct (Hnew' _ Hin) as (_ & _ & Hne). }
  assert (Hsettled : replay stored (built ++ extra) = built ++ extra).
  { apply IH; auto. intros x Hx. destruct (Hnew' x Hx) as (? & ? & _). auto. }
  destruct op as [b|key u|key]; simpl in Hlast; cbn [throughJSON].
  - destruct (decide (id b ∈ map id built)) as [Hin|Hout].
    + rewrite (applyOperation_create_present built b Hin), Hsettled.
      apply applyOperation_create_present. rewrite map_app, elem_of_app. now left.
    + rewrite (applyOperation_create_absent built b Hout), <- app_assoc. simpl.
      destruct (Hcreate b eq_refl) as [Hb Hl].
      assert (Hmore : replay stored (built ++ b :: extra) = built ++ b :: extra).
      { apply IH; auto.
        - simpl. apply NoDup_cons. split; assumption.
        - intros x Hx. simpl in Hx. apply elem_of_cons in Hx as [->|Hx]; [auto|].
          destruct (Hnew' x Hx) as (? & ? & _). auto. }
      rewrite Hmore.
      apply applyOperation_create_present. rewrite map_app, elem_of_app. right. now left.
  - destruct (decide (key ∈ map id built)) as [Hin|Hout].
    + destruct (first_with_id key built Hin) as (before & old & after & Hsplit & Hid & Hnot).
      assert (Hlocal : applyOperation built (OpUpdate key u)
                       = before ++ spread old u :: after)
        by (rewrite Hsplit; now apply applyOperation_update_present).
      assert (Hunvisited : p_lastVisitedAt u = Some None -> lastVisitedAt old = None).
      { apply (keepsVisit_first key u before after old); auto. now rewrite <- Hsplit. }
      assert (Hread : spread old (throughJSONFields u) = spread old u)
        by now apply spread_throughJSON.
      rewrite Hlocal.
      assert (Hstep : applyOperation (built ++ extra) (OpUpdate key (throughJSONFields u))
                      = (before ++ spread old u :: after) ++ extra).
      { rewrite Hsplit, <- !app_assoc, <- !app_comm_cons, <- Hread.
        now apply applyOperation_update_present. }
      transitivity (applyOperation (replay stored (built ++ extra))
                      (OpUpdate key (throughJSONFields u)));
        [|now rewrite Hsettled].
      symmetry. apply upTo_update; [now rewrite Hsettled|].
      apply upTo_replay; [assumption|].
      rewrite Hsplit. apply Forall2_app; [|apply upTo_all_same].
      apply Forall2_app; [apply upTo_all_same|].
      constructor; [|apply upTo_all_same].
      assert (Hmerged : id (spread old u) = key) by now apply spread_keeps_id.
      split; [congruence|]. split; [|congruence].
      intros _. rewrite Hread. rewrite spread_throughJSON.
      * symmetry. apply spread_twice.
      * intros Hnone. simpl. now rewrite Hnone.
    + rewrite (applyOperation_update_absent built key u Hout), Hsettled.
      apply applyOperation_update_absent. rewrite map_app, elem_of_app. tauto.
  - rewrite (delete_is_others key built Hbuilt).
    assert (Hrest : others key built ++ extra = others key (built ++ extra)).
    { rewrite others_app. now rewrite (others_absent key extra Hlast). }
    rewrite Hrest. rewrite delete_is_others.
    + transitivity (others key (replay stored (built ++ extra))); [|now rewrite Hsettled].
      apply others_replay; [assumption|]. apply others_twice.
    + apply replay_keeps_distinct; [|assumption].
      unfold others.
      eapply sublist_NoDup; [exact Hall|].
      apply fmap_sublist, sublist_filter.
Qed.

Lemma construct_queue (stored : Storage) :
  map operation (pending (construct stored)) = PENDING_STORAGE_KEY stored.
Proof. unfold construct. simpl. apply (imap_operations _ 0). Qed.

(** X20.  A client built from what a reloadable client has left in
    [localStorage] has the same collection, in the same order; its queue
    holds the operations in their JSON form, in which an Update has lost a
    [lastVisitedAt] that was [undefined]; and it is reloadable again.  The
    constructor replays the stored queue over the stored collection, on
    which the queue has been replayed already. *)
Theorem construct_reads_back :
  forall (c : BookmarkClient) (mirror : list Bookmark),
    reloadable mirror c ->
    bookmarks (construct (localStorage c)) = bookmarks c
    /\ map operation (pending (construct (localStorage c)))
       = map throughJSON (map operation (pending c))
    /\ reloadable mirror (construct (localStorage c)).
Proof.
  intros c mirror
    ([Hitems Hqueue] & [Hdistinct Hreplay] & Hmirror & Hkeeps & Hfresh & Hvisits).
  assert (Hsame : bookmarks (construct (localStorage c)) = bookmarks c).
  { unfold construct. simpl. rewrite Hitems, Hqueue, Hreplay.
    rewrite <- (app_nil_r (replay _ mirror)) at 1.
    rewrite replay_reloaded; auto using app_nil_r.
    - constructor.
    - intros x Hx. inversion Hx. }
  assert (Hops : map operation (pending (construct (localStorage c)))
                 = map throughJSON (map operation (pending c)))
    by (rewrite construct_queue; exact Hqueue).
  split; [exact Hsame|]. split; [exact Hops|].
  split; [|split; [|split; [|split; [|split]]]].
  - split; [rewrite Hsame; exact Hitems|]. rewrite Hops.
    change (PENDING_STORAGE_KEY (localStorage (construct (localStorage c))))
      with (PENDING_STORAGE_KEY (localStorage c)).
    rewrite Hqueue. symmetry. apply throughJSON_all_twice.
  - split; rewrite Hsame; [assumption|].
    rewrite Hops. now rewrite replay_throughJSON.
  - assumption.
  - rewrite Hops. now apply throughJSON_all_keepId.
  - rewrite Hops. now apply createsFresh_throughJSON.
  - rewrite Hops. apply keepsVisits_throughJSON.
Qed.

Section Reload.
Context {World : Type} `{Environment World}.

Lemma reloadable_step (mirror : list Bookmark) (c c' : BookmarkClient)
      (op : PendingOperation) (where_ : nat) :
  reloadable mirror c -> inSync c' -> keepsId op ->
  (forall b, op = OpCreate b ->
             (id b ∉ map id mirror) /\ (id b ∉ map targetOf (map operation (pending c)))) ->
  keepsVisit (bookmarks c) op ->
  bookmarks c' = applyOperation (bookmarks c) op ->
  pending c' = pending c ++ [mkQueued where_ op] ->
  reloadable mirror c'.
Proof.
  intros (_ & Hprojects & Hmirror & Hkeeps & Hfresh & Hvisits)
    Hsync Hop Hcreate Hvisit Hitems Hqueue.
  split; [exact Hsync|].
  split; [now apply (projects_step mirror c c' op where_)|].
  split; [exact Hmirror|]. rewrite Hqueue, map_app. simpl. split; [|split].
  - apply Forall_app. split; [assumption|]. now constructor.
  - apply createsFresh_snoc. split; assumption.
  - apply keepsVisits_snoc. split; [assumption|].
    destruct Hprojects as [_ Hreplay]. now rewrite <- Hreplay.
Qed.

(** X21.  While no request gets through, a reloadable client stays reloadable:
    after [deleteBookmark], after [trackVisit], after [updateBookmark] when
    the fields carry no id other than the target's and no [lastVisitedAt]
    that is [undefined], and after [createBookmark] when the id drawn is
    not in the mirror and no operation of the queue is about it.  So the
    collection that is built while the service cannot be reached is there
    again when the page is loaded anew. *)
Theorem unreachable_stays_reloadable :
  forall (m : Machine World) (mirror : list Bookmark),
    serviceUnreachable ->
    reloadable mirror (this m) ->
    (forall draft,
        (randomUUID (isoNow (world m)).2).1 ∉ map id mirror ->
        (randomUUID (isoNow (world m)).2).1
          ∉ map targetOf (map operation (pending (this m))) ->
        reloadable mirror (this (createBookmark draft m).2))
    /\ (forall key updates,
          p_id updates = None \/ p_id updates = Some key ->
          p_lastVisitedAt updates <> Some None ->
          reloadable mirror (this (updateBookmark key updates m).2))
    /\ (forall key, reloadable mirror (this (deleteBookmark key m).2))
    /\ (forall key, reloadable mirror (this (trackVisit key m).2)).
Proof.
  intros m mirror Hdown Hm.
  assert (Hupdate : forall key updates (m0 : Machine World),
            this m0 = this m ->
            p_id updates = None \/ p_id updates = Some key ->
            p_lastVisitedAt updates <> Some None ->
            reloadable mirror (this (updateBookmark key updates m0).2)).
  { intros key updates m0 Hsame Hkeeps Hvisit. rewrite <- Hsame in Hm.
    destruct (decide (key ∈ map id (bookmarks (this m0)))) as [Hin|Hout].
    - destruct (first_with_id key _ Hin) as (before & old & after & Hsplit & Hid & Hnot).
      destruct (update_unreachable key updates m0 before after old Hdown Hsplit Hid Hnot)
        as (merged & Hmerged & _ & Hlast & _ & Hitems & Hqueue & _).
      apply (reloadable_step mirror (this m0) _ (OpUpdate key (asPartial merged))
               (fresh (this m0))).
      + exact Hm.
      + apply inSync_updateBookmark, Hm.
      + simpl. right. rewrite Hmerged. now destruct Hkeeps as [->| ->].
      + intros b Hb. discriminate.
      + simpl. intros [= Hnone]. rewrite Hsplit, (find_first key before after old Hid Hnot).
        rewrite Hlast in Hnone.
        destruct (p_lastVisitedAt updates) as [[visit|]|]; simpl in Hnone;
          [discriminate | contradiction | assumption].
      + rewrite Hitems, Hsplit, applyOperation_update_present by assumption.
        now rewrite spread_asPartial.
      + exact Hqueue.
    - unfold updateBookmark. run. apply findIndex_absent in Hout.
      rewrite Hout. simpl. exact Hm. }
  split; [|split; [|split]].
  - intros draft Hnew Hunused.
    destruct (create_unreachable draft m Hdown) as (b & Hid & _ & Hitems & Hqueue).
    apply (reloadable_step mirror (this m) _ (OpCreate b) (fresh (this m)));
      [assumption | apply inSync_createBookmark | exact I | | exact I | | exact Hqueue].
    + intros b' [= <-]. rewrite Hid. split; assumption.
    + rewrite Hitems, applyOperation_create_absent; [reflexivity|].
      rewrite Hid. intros Hin.
      destruct Hm as (_ & [_ Hreplay] & _ & Hkeeps & _). rewrite Hreplay in Hin.
      destruct (replay_ids _ _ _ Hkeeps Hin); contradiction.
  - intros key updates Hkeeps Hvisit. now apply Hupdate.
  - intros key. destruct (delete_unreachable key m Hdown) as [Hitems Hqueue].
    apply (reloadable_step mirror (this m) _ (OpDelete key) (fresh (this m)));
      [assumption | apply inSync_deleteBookmark | exact I | | exact I | | exact Hqueue].
    + intros b Hb. discriminate.
    + rewrite Hitems. apply filter_is_delete. destruct Hm as (_ & [Hdistinct _] & _).
      exact Hdistinct.
  - intros key. unfold trackVisit. run.
    destruct (find _ (bookmarks (this m))) as [bookmark|]; simpl; [|assumption].
    destruct (isoNow (world m)) as [now w1] eqn:Hnow. simpl.
    apply Hupdate; [reflexivity | now left | discriminate].
Qed.
End Reload.

(** ** The further statements at sample inputs *)

Lemma scripted_compares_both_ways : comparesBothWays (H := scripted).
Proof.
  intros a b. simpl. rewrite (String.compare_antisym b a).
  destruct (String.compare a b); simpl; lia.
Qed.

Lemma cutOff_unreachable : serviceUnreachable (H := cutOff).
Proof. intros request w. reflexivity. Qed.

Lemma sync_answer_third_fails :
  NoDup (map address (pending (this thirdFails)))
  /\ exists answer m',
       sync thirdFails = (Returned answer, m')
       /\ (answer = true <-> pending (this m') = []).
Proof.
  split; [decided|]. apply (sync_answer thirdFails). decided.
Defined.

Lemma sync_full_drain_all_accepted :
  pending (this allAccepted) <> []
  /\ NoDup (map address (pending (this allAccepted)))
  /\ onLine (world allAccepted) <> Some false
  /\ exists m',
       sync allAccepted = (Returned true, m')
       /\ pending (this m') = []
       /\ requests m' = [PUT "a" (renamed "First"); DELETE "b"; GET]
       /\ bookmarks (this m') = [newerBookmark; olderBookmark]
       /\ BOOKMARK_STORAGE_KEY (localStorage (this m')) = [newerBookmark; olderBookmark]
       /\ newestFirst (H := scripted) (bookmarks (this m')).
Proof.
  assert (H1 : pending (this allAccepted) <> []) by discriminate.
  assert (H2 : NoDup (map address (pending (this allAccepted)))) by decided.
  assert (H3 : onLine (world allAccepted) <> Some false) by discriminate.
  split; [exact H1|]. split; [exact H2|]. split; [exact H3|].
  assert (H4 : pushedAll (pending (this allAccepted)) allAccepted
               = Some (default allAccepted
                         (pushedAll (pending (this allAccepted)) allAccepted)))
    by reflexivity.
  destruct (sync_full_drain allAccepted _ H1 H2 H3 H4)
    as (m' & Hsync & Hqueue & Hsent & _ & Hdone).
  destruct Hdone as (remote & Hremote & _ & Hsorted & Hthis); [discriminate|].
  vm_compute in Hremote. injection Hremote as <-.
  exists m'. split; [exact Hsync|]. split; [exact Hqueue|]. split; [exact Hsent|].
  rewrite Hthis. split; [reflexivity|]. split; [reflexivity|].
  apply Hsorted. repeat constructor; eexists; reflexivity.
Defined.

Lemma load_outcome_samples :
  (exists m', load idle = (Returned [], m') /\ this m' = this idle)
  /\ exists remote m',
       (fetchRemote listing).1 = Returned remote
       /\ load listing = (Returned remote, m')
       /\ map id remote = ["b"; "a"]
       /\ BOOKMARK_STORAGE_KEY (localStorage (this m')) = remote.
Proof.
  split.
  - apply (proj1 (load_outcome idle)). reflexivity.
  - destruct (proj2 (load_outcome listing))
      as (remote & m' & Hremote & Hload & Hitems & _ & Hstored & _).
    + discriminate.
    + exists remote, m'. rewrite Hstored, Hitems.
      repeat split; try assumption.
      vm_compute in Hremote. injection Hremote as <-. reflexivity.
Defined.

Lemma storage_mirrors_memory_importing :
  inSync (this importing)
  /\ inSync (this (importBookmarks threeDrafts importing).2)
  /\ inSync (this (sync importing).2)
  /\ inSync (this stranded)
  /\ inSync (this (updateBookmark "a" (renamed "A") stranded).2)
  /\ PENDING_STORAGE_KEY (localStorage (this (updateBookmark "a" (renamed "A") stranded).2))
     <> map operation (pending (this (updateBookmark "a" (renamed "A") stranded).2)).
Proof.
  assert (Hstart : inSync (this importing)) by (split; reflexivity).
  assert (Hstranded : inSync (this stranded)) by (split; reflexivity).
  destruct (storage_mirrors_memory importing Hstart)
    as (_ & _ & _ & _ & Himport & Hsync & _).
  destruct (storage_mirrors_memory stranded Hstranded) as (_ & Hupdate & _).
  split; [exact Hstart|]. split; [apply Himport|]. split; [exact Hsync|].
  split; [exact Hstranded|]. split; [apply Hupdate|].
  vm_compute. discriminate.
Defined.

Lemma queue_objects_distinct_samples :
  wellAllocated (construct (mkStorage [] (map operation fiveQueued) None))
  /\ wellAllocated (this thirdFails)
  /\ NoDup (map address (pending (this (sync thirdFails).2)))
  /\ NoDup (map address (pending (this (createBookmark blankDraft thirdFails).2))).
Proof.
  destruct (queue_objects_distinct Scripted scripted) as [Hnew Hkept].
  assert (Hstart : wellAllocated (this thirdFails)).
  { split; [decided|]. repeat constructor. }
  destruct (Hkept thirdFails Hstart) as (Hcreate & _ & _ & _ & _ & Hsync & _).
  split; [apply Hnew|]. split; [exact Hstart|]. split; [exact Hsync | apply Hcreate].
Defined.

Lemma normalizeTags_clean_sample :
  "proof" ∈ normalizeTags (H := scripted) [" proof"; "logic"; "proof "; ""]
  /\ NoDup (normalizeTags (H := scripted) [" proof"; "logic"; "proof "; ""]).
Proof.
  destruct (normalizeTags_clean (H := scripted) [" proof"; "logic"; "proof "; ""])
    as [Hdistinct Hmember].
  split; [|exact Hdistinct].
  apply Hmember. split; [discriminate|]. exists " proof". split; [decided | reflexivity].
Defined.

Lemma normalizeTags_settled_sample :
  comparesBothWays (H := scripted)
  /\ inLocaleOrder (H := scripted)
       (normalizeTags (H := scripted) [" proof"; "logic"; "proof "; ""])
  /\ normalizeTags (H := scripted)
       (normalizeTags (H := scripted) [" proof"; "logic"; "proof "; ""])
     = ["logic"; "proof"].
Proof.
  destruct (normalizeTags_settled (H := scripted) [" proof"; "logic"; "proof "; ""]
              scripted_compares_both_ways) as [Hordered Htwice].
  split; [exact scripted_compares_both_ways|]. split; [exact Hordered|].
  rewrite Htwice. reflexivity.
Defined.

Lemma parseBookmark_echo_sample :
  comparesBothWays (H := scripted)
  /\ exists b m1,
       parseBookmark taggedRaw idle = (Returned b, m1)
       /\ title b = "Rocq" /\ tags b = ["logic"; "proof"]
       /\ (parseBookmark (asPartial b) m1).1 = Returned b.
Proof.
  split; [exact scripted_compares_both_ways|].
  eexists _, _. split; [reflexivity|]. split; [reflexivity|]. split; [reflexivity|].
  rewrite (parseBookmark_echo taggedRaw idle _ _ _ scripted_compares_both_ways eq_refl).
  reflexivity.
Defined.

Lemma upsertLocal_outcome_sample :
  exists m',
    upsertLocal (sampleBookmark "a" "https://new.example" "2024-02-01T00:00:00.000Z")
      importing = (Returned tt, m')
    /\ length (bookmarks (this m')) = 1
    /\ NoDup (map id (bookmarks (this m'))).
Proof.
  destruct (upsertLocal_outcome importing
              (sampleBookmark "a" "https://new.example" "2024-02-01T00:00:00.000Z"))
    as (m' & Hrun & _ & _ & Hlength & _ & Hdistinct & _).
  exists m'. split; [exact Hrun|]. split.
  - rewrite Hlength; [reflexivity | decided].
  - apply Hdistinct. decided.
Defined.

Lemma unreachable_keeps_projection_stranded :
  serviceUnreachable (H := cutOff)
  /\ projects (bookmarks (this stranded)) (this stranded)
  /\ projects (bookmarks (this stranded))
       (this (createBookmark (sampleDraft "B" "https://b.example") stranded).2)
  /\ projects (bookmarks (this stranded))
       (this (updateBookmark "a" (renamed "A") stranded).2)
  /\ projects (bookmarks (this stranded)) (this (deleteBookmark "a" stranded).2).
Proof.
  assert (Hstart : projects (bookmarks (this stranded)) (this stranded)).
  { split; [decided | reflexivity]. }
  destruct (unreachable_keeps_projection stranded (bookmarks (this stranded))
              cutOff_unreachable Hstart) as (Hcreate & Hupdate & Hdelete & _).
  split; [exact cutOff_unreachable|]. split; [exact Hstart|].
  split; [|split].
  - apply Hcreate. decided.
  - apply Hupdate. left. reflexivity.
  - apply Hdelete.
Defined.

Lemma deleteBookmark_outcome_sample :
  ("a" ∉ map id (bookmarks (this (deleteBookmark "a" importing).2)))
  /\ (deleteBookmark "a" importing).1 = Returned []
  /\ pending (this (deleteBookmark "a" importing).2) = [].
Proof.
  destruct (deleteBookmark_outcome importing "a") as (Hgone & _ & _ & Hdone & _).
  destruct Hdone as [Hanswer Hqueue]; [discriminate|].
  split; [exact Hgone|]. split.
  - rewrite Hanswer. reflexivity.
  - rewrite Hqueue. reflexivity.
Defined.

Lemma trackVisit_counts_sample :
  bookmarks (this strandedVisitor) = [olderBookmark] ++ visitedTwice :: []
  /\ ("v" ∉ map id [olderBookmark])
  /\ exists visited,
       bookmarks (this (trackVisit "v" strandedVisitor).2) = [olderBookmark; visited]
       /\ visitCount visited = 3%Z.
Proof.
  assert (Hfirst : "v" ∉ map id [olderBookmark]) by decided.
  split; [reflexivity|]. split; [exact Hfirst|].
  destruct (trackVisit_counts strandedVisitor "v" [olderBookmark] [] visitedTwice
              eq_refl eq_refl Hfirst) as (_ & _ & Hstays).
  destruct (Hstays cutOff_unreachable) as (visited & Hitems & _ & Hcount & _).
  exists visited. split; [exact Hitems | exact Hcount].
Defined.

Lemma import_unreachable_stranded :
  serviceUnreachable (H := cutOff)
  /\ NoDup (map url (bookmarks (this stranded)))
  /\ exists added report m',
       importBookmarks threeDrafts stranded = (Returned report, m')
       /\ bookmarks (this m') = bookmarks (this stranded) ++ added
       /\ imported report = length added
       /\ NoDup (map url (bookmarks (this m'))).
Proof.
  assert (Hstart : NoDup (map url (bookmarks (this stranded)))) by decided.
  split; [exact cutOff_unreachable|]. split; [exact Hstart|].
  destruct (import_unreachable stranded threeDrafts cutOff_unreachable)
    as (added & report & m' & Hrun & Hitems & _ & Hcount & _ & Hdistinct).
  exists added, report, m'. repeat split; try assumption. exact (Hdistinct Hstart).
Defined.

Lemma replay_delete_wins_sample :
  NoDup (map id twoBookmarks)
  /\ Forall keepsId ([OpUpdate "a" (renamed "First")] ++ [OpCreate newerBookmark])
  /\ ("a" ∉ createdIds [OpCreate newerBookmark])
  /\ ("a" ∉ map id (replay ([OpUpdate "a" (renamed "First")]
                              ++ OpDelete "a" :: [OpCreate newerBookmark])
                       twoBookmarks)).
Proof.
  assert (Hmirror : NoDup (map id twoBookmarks)) by decided.
  assert (Hlog : Forall keepsId
            ([OpUpdate "a" (renamed "First")] ++ [OpCreate newerBookmark]))
    by (repeat constructor; simpl; auto).
  assert (Hlater : "a" ∉ createdIds [OpCreate newerBookmark]) by decided.
  split; [exact Hmirror|]. split; [exact Hlog|]. split; [exact Hlater|].
  apply (replay_delete_wins twoBookmarks _ _ "a" Hmirror Hlog Hlater).
Defined.

Lemma detectDuplicates_none_samples :
  detectDuplicates (clientWith [mixedCase; bareHost] []) = []
  /\ ~ NoDup (map (fun b => toLowerCase (url b))
                (filter (fun b => url b <> "") (bookmarks threeUrls))).
Proof.
  split.
  - apply (proj2 (detectDuplicates_none (clientWith [mixedCase; bareHost] []))).
    decided.
  - intros Hdistinct.
    apply (proj2 (detectDuplicates_none threeUrls)) in Hdistinct. discriminate.
Defined.

Lemma formatUrl_settles_bare_host :
  "example.com" <> ""
  /\ formatUrl "example.com" = "https://example.com"
  /\ hasHttpScheme (formatUrl "example.com") = true
  /\ formatUrl (formatUrl "example.com") = formatUrl "example.com".
Proof.
  assert (Hfilled : "example.com" <> "") by discriminate.
  destruct (formatUrl_settles "example.com") as (Htwice & Hscheme & _).
  split; [exact Hfilled|]. split; [reflexivity|].
  split; [exact (Hscheme Hfilled) | exact Htwice].
Defined.

Lemma form_submission_filled :
  (exists draft, submittedPayload filledForm = Some draft
     /\ exists b m1,
          createLocally draft idle = (Returned b, m1)
          /\ title b = "Rocq"
          /\ url b = "https://rocq-prover.org"
          /\ tags b = sort (localeCompare (Environment := scripted)) ["proof"; "logic"])
  /\ submittedPayload (mkForm "  " "rocq-prover.org" "" "" "" "") = None.
Proof.
  split.
  - eexists. split; [reflexivity|].
    destruct (proj2 (form_submission (H := scripted) filledForm) _ idle eq_refl)
      as (b & m1 & Hrun & Htitle & _ & Hurl & _ & Htags).
    exists b, m1. split; [exact Hrun|]. split; [exact Htitle|].
    split; [exact Hurl | exact Htags].
  - apply (proj1 (form_submission (H := scripted)
                    (mkForm "  " "rocq-prover.org" "" "" "" ""))).
    left. reflexivity.
Defined.

Lemma createBookmark_outcome_rejected :
  (createBookmark (sampleDraft "B" "https://b.example") rejecting).1
  = Thrown RequestFailed
  /\ length (pending (this (createBookmark (sampleDraft "B" "https://b.example")
                              rejecting).2)) = 1.
Proof.
  destruct (createBookmark_outcome rejecting (sampleDraft "B" "https://b.example"))
    as (b & m1 & Hlocal & _ & _ & Hqueue & _ & Hfailure & _).
  vm_compute in Hlocal. injection Hlocal as <- <-.
  destruct (Hfailure eq_refl) as (Hthis & Hthrows & _).
  split; [apply Hthrows; reflexivity|]. rewrite Hthis, Hqueue. reflexivity.
Defined.


Lemma construct_reads_back_edited :
  reloadable (bookmarks (this stranded)) editedOffline
  /\ length (pending editedOffline) = 3
  /\ PENDING_STORAGE_KEY (localStorage editedOffline)
     <> map operation (pending editedOffline)
  /\ bookmarks (construct (localStorage editedOffline)) = bookmarks editedOffline
  /\ map operation (pending (construct (localStorage editedOffline)))
     = PENDING_STORAGE_KEY (localStorage editedOffline).
Proof.
  assert (Hstart : reloadable (bookmarks (this stranded)) editedOffline).
  { split; [split; vm_compute; reflexivity|].
    split; [split; [decided | vm_compute; reflexivity]|].
    split; [decided|].
    let log := eval vm_compute in (map operation (pending editedOffline)) in
    change (map operation (pending editedOffline)) with log.
    split; [|split].
    - repeat (first [apply Forall_nil | apply Forall_cons_2]); simpl; auto.
    - simpl. repeat split; decided.
    - vm_compute. repeat split; auto. }
  split; [exact Hstart|]. split; [reflexivity|].
  split; [vm_compute; discriminate|].
  destruct (construct_reads_back editedOffline (bookmarks (this stranded)) Hstart)
    as (Hsame & Hops & _).
  split; [exact Hsame|]. rewrite Hops. vm_compute. reflexivity.
Defined.

Lemma unreachable_stays_reloadable_stranded :
  serviceUnreachable (H := cutOff)
  /\ reloadable (bookmarks (this stranded)) (this stranded)
  /\ reloadable (bookmarks (this stranded))
       (this (createBookmark (sampleDraft "B" "https://b.example") stranded).2)
  /\ reloadable (bookmarks (this stranded))
       (this (updateBookmark "a" (renamed "A") stranded).2)
  /\ reloadable (bookmarks (this stranded)) (this (deleteBookmark "a" stranded).2).
Proof.
  assert (Hstart : reloadable (bookmarks (this stranded)) (this stranded)).
  { split; [split; reflexivity|]. split; [split; [decided | reflexivity]|].
    split; [decided|]. split; [constructor|]. split; exact I. }
  destruct (unreachable_stays_reloadable stranded (bookmarks (this stranded))
              cutOff_unreachable Hstart) as (Hcreate & Hupdate & Hdelete & _).
  split; [exact cutOff_unreachable|]. split; [exact Hstart|].
  split; [|split].
  - apply Hcreate; decided.
  - apply Hupdate; [now left | discriminate].
  - apply Hdelete.
Defined.
